(** * Cryptopix-CLWE: a shallow embedding of the colour KEM and the scalar NTT

    The development follows the C++ sources:
    - [color_value.hpp]   : [ColorValue] and its 64-bit precise-value codec;
    - [color_value.cpp]   : the modular operations of [ColorValue] and
                            [color_ops];
    - [shake_sampler.cpp] : the two counter-mode samplers;
    - [sampling.cpp]      : the free function [sample_polynomial_binomial];
    - [utils.cpp]         : Montgomery and Barrett reduction, modular inverse
                            and power;
    - [ntt_engine.cpp]    : the base class [NTTEngine] and its bit-reversal
                            table;
    - [ntt_scalar.cpp]    : [ScalarNTTEngine];
    - [color_ntt_engine.cpp] : the colour arithmetic of [ColorNTTEngine];
    - [color_kem.cpp]     : [ColorKEM] key generation, encapsulation,
                            decapsulation and the (de)serialisers.

    Machine integers are integers in [Z] with the wrap-around written out;
    byte vectors are [list Z]. *)

From Stdlib Require Import ZArith List Lia Bool.
Import ListNotations.
Local Open Scope Z_scope.

(** ** Fixed-width unsigned integers *)

Definition u8 (x : Z) : Z := x mod 2 ^ 8.
Definition u16 (x : Z) : Z := x mod 2 ^ 16.
Definition u32 (x : Z) : Z := x mod 2 ^ 32.
Definition u64 (x : Z) : Z := x mod 2 ^ 64.

(** A value of C++ type [int32_t] read back from its 32-bit pattern. *)
Definition s32 (x : Z) : Z :=
  let y := u32 x in if y <? 2 ^ 31 then y else y - 2 ^ 32.

(** ** clwe.hpp: parameter sets *)

Record CLWEParameters := mkParams {
  security_level : Z;
  degree : Z;
  module_rank : Z;
  modulus : Z;
  eta : Z;
  beta : Z
}.

(** The constructor [CLWEParameters(sec_level)]: every branch of the switch
    keeps degree 256 and modulus 3329. *)
Definition CLWEParameters_of (sec_level : Z) : CLWEParameters :=
  if sec_level =? 128 then mkParams sec_level 256 2 3329 2 120
  else if sec_level =? 192 then mkParams sec_level 256 3 3329 2 200
  else if sec_level =? 256 then mkParams sec_level 256 4 3329 2 280
  else mkParams sec_level 256 2 3329 2 120.

(** ** color_value.hpp *)

Module ColorValue.

Record t := mk { r : Z; g : Z; b : Z; a : Z }.

(** [ColorValue()] *)
Definition default : t := mk 0 0 0 255.

Definition to_math_value (c : t) : Z :=
  Z.lor (Z.lor (Z.lor (u32 (Z.shiftl (r c) 24)) (u32 (Z.shiftl (g c) 16)))
               (u32 (Z.shiftl (b c) 8)))
        (a c).

Definition from_math_value (value : Z) : t :=
  mk (Z.land (Z.shiftr value 24) 255)
     (Z.land (Z.shiftr value 16) 255)
     (Z.land (Z.shiftr value 8) 255)
     (Z.land value 255).

Definition to_precise_value (c : t) : Z :=
  Z.lor (Z.lor (u64 (Z.shiftl (r c) 32)) (u64 (Z.shiftl (g c) 16))) (b c).

Definition from_precise_value (value : Z) : t :=
  mk (Z.land (Z.shiftr value 32) 255)
     (Z.land (Z.shiftr value 16) 255)
     (Z.land value 255)
     255.

(** The bit positions that survive a trip through the precise-value codec:
    0-7, 16-23 and 32-39. *)
Definition precise_mask : Z := 0xFF00FF00FF.

Definition kept_bit (i : Z) : bool :=
  ((0 <=? i) && (i <? 8)) || ((16 <=? i) && (i <? 24))
  || ((32 <=? i) && (i <? 40)).

(** color_value.cpp: the three modular operations on math values.  The
    arithmetic is that of [uint32_t] ([uint64_t] for the product);
    [% modulus] with a zero modulus is undefined. *)
Definition mod_add (this other : t) (modulus : Z) : option t :=
  if modulus =? 0 then None
  else
    let this_val := to_math_value this in
    let other_val := to_math_value other in
    let sum := u32 (this_val + other_val) mod modulus in
    Some (from_math_value sum).

Definition mod_subtract (this other : t) (modulus : Z) : option t :=
  if modulus =? 0 then None
  else
    let this_val := to_math_value this in
    let other_val := to_math_value other in
    let diff := if this_val >=? other_val then this_val - other_val
                else u32 (this_val + modulus - other_val) in
    let diff := diff mod modulus in
    Some (from_math_value diff).

Definition mod_multiply (this other : t) (modulus : Z) : option t :=
  if modulus =? 0 then None
  else
    let this_val := to_math_value this in
    let other_val := to_math_value other in
    let product := u64 (this_val * other_val) in
    let result := u32 (product mod modulus) in
    Some (from_math_value result).

End ColorValue.

(** ** Vectors, fallible reads and the host's random sources *)

(** [v[i]] on a [std::vector]: reading outside the vector is undefined
    behaviour, which the model reports as [None]. *)
Definition at_ {A : Type} (v : list A) (i : Z) : option A :=
  if (0 <=? i) && (i <? Z.of_nat (length v)) then nth_error v (Z.to_nat i)
  else None.

(** [v[i] = x] for [i] inside the vector. *)
Fixpoint set_nth {A : Type} (v : list A) (i : nat) (x : A) : list A :=
  match v, i with
  | [], _ => []
  | _ :: tl, O => x :: tl
  | hd :: tl, S i' => hd :: set_nth tl i' x
  end.

(** The index range [0, 1, ..., n-1] of a counted [for] loop. *)
Definition upto (n : Z) : list Z := map Z.of_nat (seq 0 (Z.to_nat n)).

Definition obind {A B : Type} (o : option A) (k : A -> option B) : option B :=
  match o with Some x => k x | None => None end.

Notation "x <-? c1 ;; c2" := (obind c1 (fun x => c2))
  (at level 61, c1 at next level, right associativity).

Fixpoint mapM_opt {A B : Type} (f : A -> option B) (l : list A)
  : option (list B) :=
  match l with
  | [] => Some []
  | x :: tl => y <-? f x ;; ys <-? mapM_opt f tl ;; Some (y :: ys)
  end.

(** The two entropy sources of the host: [rand()] of the C library and
    [std::random_device].  Each is a tape of raw draws with a cursor; a draw
    returns the value under the cursor and advances it.  [rand()] yields a
    non-negative [int], [random_device] an [unsigned int]. *)
Record Host := mkHost {
  rand_tape : nat -> Z;
  rand_pos : nat;
  rd_tape : nat -> Z;
  rd_pos : nat
}.

(** Computations that draw from the host and may run into undefined
    behaviour or out of fuel. *)
Definition M (A : Type) : Type := Host -> option (A * Host).

Definition ret {A : Type} (x : A) : M A := fun h => Some (x, h).

Definition bind {A B : Type} (m : M A) (k : A -> M B) : M B :=
  fun h => match m h with
           | Some (x, h') => k x h'
           | None => None
           end.

Definition lift {A : Type} (o : option A) : M A :=
  fun h => match o with Some x => Some (x, h) | None => None end.

Notation "x <- c1 ;; c2" := (bind c1 (fun x => c2))
  (at level 61, c1 at next level, right associativity).

(** [rand()] *)
Definition rand : M Z :=
  fun h => Some (rand_tape h (rand_pos h),
                 mkHost (rand_tape h) (S (rand_pos h)) (rd_tape h) (rd_pos h)).

(** [rd()] for a [std::random_device rd] *)
Definition random_device : M Z :=
  fun h => Some (rd_tape h (rd_pos h),
                 mkHost (rand_tape h) (rand_pos h) (rd_tape h) (S (rd_pos h))).

(** [std::generate(seed.begin(), seed.end(), gen)] over [len] bytes. *)
Fixpoint generate (len : nat) (gen : M Z) : M (list Z) :=
  match len with
  | O => ret []
  | S len' => x <- gen ;; xs <- generate len' gen ;; ret (u8 x :: xs)
  end.

(** ** shake_sampler.cpp *)

Record Sampler := mkSampler { state_ : list Z; position_ : Z }.

Module SHAKE128Sampler.

(** [init]: the seed is stored as the state.  Every caller passes a
    non-empty seed (34 bytes in [generate_matrix_A]). *)
Definition init (seed : list Z) : Sampler := mkSampler seed 0.

(** The byte produced for absolute stream position [pos]: one iteration of
    the loop of [squeeze].  It stands for the code on a non-empty state
    only: with [state_.size() = 0] (a sampler that was never initialised)
    the code divides by zero, and every statement about [squeeze] below is
    made for a state that is not empty. *)
Definition byte_at (state : list Z) (pos : Z) : Z :=
  let size := Z.of_nat (length state) in
  let state_idx := pos mod size in
  let counter := u32 (pos / size) in
  let value := nth (Z.to_nat state_idx) state 0 in
  let value := u8 (Z.lxor value (Z.land counter 255)) in
  let value := u8 (Z.lxor value (Z.land (Z.shiftr counter 8) 255)) in
  let value := u8 (Z.lor (Z.shiftl value 5) (Z.shiftr value 3)) in
  u8 (Z.lxor value (nth (Z.to_nat ((state_idx + 1) mod size)) state 0)).

Definition squeeze (s : Sampler) (len : Z) : list Z * Sampler :=
  (map (fun i => byte_at (state_ s) (u64 (position_ s + i))) (upto len),
   mkSampler (state_ s) (u64 (position_ s + len))).

End SHAKE128Sampler.

Module SHAKE256Sampler.

(** The constructor sizes the state to 32 bytes; [init] resets it, copies
    the seed and fills what is left with a pattern of the seed. *)
Definition init (seed : list Z) : Sampler :=
  let seed_len := Z.of_nat (length seed) in
  let copy_len := Z.min seed_len 32 in
  mkSampler
    (firstn 32 seed
     ++ map (fun i => Z.land (nth (Z.to_nat (i mod seed_len)) seed 0 + i) 255)
            (map (fun i => copy_len + i) (upto (32 - copy_len))))
    0.

Definition byte_at (state : list Z) (pos : Z) : Z :=
  let size := Z.of_nat (length state) in
  let state_idx := pos mod size in
  let counter := u32 (pos / size) in
  let value := nth (Z.to_nat state_idx) state 0 in
  let value := u8 (Z.lxor value (Z.land counter 255)) in
  let value := u8 (Z.lxor value (Z.land (Z.shiftr counter 8) 255)) in
  let value := u8 (Z.lxor value (Z.land (Z.shiftr counter 16) 255)) in
  let value := u8 (Z.lxor value (Z.land (Z.shiftr counter 24) 255)) in
  let value := u8 (Z.lor (Z.shiftl value 3) (Z.shiftr value 5)) in
  u8 (Z.lxor value (nth (Z.to_nat ((state_idx + 1) mod size)) state 0)).

Definition squeeze (s : Sampler) (len : Z) : list Z * Sampler :=
  (map (fun i => byte_at (state_ s) (u64 (position_ s + i))) (upto len),
   mkSampler (state_ s) (u64 (position_ s + len))).

(** One round of the loop of [sample_binomial_coefficient]. *)
Definition binomial_round (acc : Z * Sampler) : Z * Sampler :=
  let '(result, s) := acc in
  let '(byte1, s) := squeeze s 1 in
  let '(byte2, s) := squeeze s 1 in
  let result :=
    result + (if Z.land (nth 0 byte1 0) 1 =? 0 then -1 else 1) in
  let result :=
    result + (if Z.land (nth 0 byte2 0) 1 =? 0 then -1 else 1) in
  (result, s).

Definition sample_binomial_coefficient (s : Sampler) (eta : Z)
  : Z * Sampler :=
  fold_left (fun acc _ => binomial_round acc) (upto eta) (0, s).

(** [coeffs[i] = (sample % int32_t(modulus) + modulus) % modulus] for
    [i < degree]: the remainder is that of [int32_t], the sum and the last
    reduction are formed in [uint32_t].  The list holds the values written
    to [coeffs[0 .. degree)]. *)
Definition sample_polynomial_binomial (s : Sampler) (degree eta modulus : Z)
  : list Z * Sampler :=
  fold_left
    (fun (st : list Z * Sampler) _ =>
       let '(coeffs, s) := st in
       let '(sample, s) := sample_binomial_coefficient s eta in
       (coeffs ++ [u32 (Z.rem sample (s32 modulus) + modulus) mod modulus],
        s))
    (upto degree) ([], s).

End SHAKE256Sampler.

(** ** utils.cpp *)

Module Utils.

(** [montgomery_reduce(uint64_t a, uint32_t q)].  The expression
    [a * (1 << 32) % q] parses as [(a * 2^32) % q] in 64-bit arithmetic. *)
Definition montgomery_reduce (a q : Z) : Z :=
  let t := u64 (a * 2 ^ 32) mod q in
  u32 (Z.shiftr (u64 (a + u64 (t * q))) 32).

Definition is_power_of_two (x : Z) : bool :=
  (Z.land x (u32 (x - 1)) =? 0) && negb (x =? 0).

(** The loop of [mod_inverse]; the state is [(a, m, x0, x1)].  Dividing by
    [m = 0] is undefined.  [m] strictly decreases, so the fuel given by
    [mod_inverse] is never exhausted. *)
Fixpoint mod_inverse_loop (fuel : nat) (a m x0 x1 : Z) : option Z :=
  if a >? 1 then
    match fuel with
    | O => None
    | S fuel' =>
        if m =? 0 then None
        else
          let q := a / m in
          let t := m in
          let m' := a mod m in
          let a' := u32 t in
          let t := x0 in
          let x0' := x1 - q * x0 in
          let x1' := t in
          mod_inverse_loop fuel' a' m' x0' x1'
    end
  else Some x1.

Definition mod_inverse (a m : Z) : option Z :=
  let m0 := m in
  if m =? 1 then Some 0
  else
    x1 <-? mod_inverse_loop (S (Z.to_nat m)) a m 0 1 ;;
    Some (u32 (if x1 <? 0 then x1 + m0 else x1)).

(** The loop of [mod_pow]: [exp] is a 32-bit value halved at every turn,
    so 32 turns are all the loop can make. *)
Fixpoint mod_pow_loop (fuel : nat) (result base exp md : Z) : Z :=
  match fuel with
  | O => result
  | S fuel' =>
      if exp >? 0 then
        let result :=
          if Z.land exp 1 =? 0 then result else (result * base) mod md in
        let base := (base * base) mod md in
        mod_pow_loop fuel' result base (Z.shiftr exp 1) md
      else result
  end.

Definition mod_pow (base exp md : Z) : Z :=
  mod_pow_loop 32 1 (base mod md) exp md.

(** [barrett_reduce(uint64_t a, uint32_t q, uint64_t mu)]. *)
Definition barrett_reduce (a q mu : Z) : Z :=
  let t := Z.shiftr (u64 (a * mu)) 32 in
  let r := u64 (a - u64 (t * q)) in
  let r := if r >=? q then u64 (r - q) else r in
  u32 r.

End Utils.

(** ** ntt_engine.cpp and ntt_scalar.cpp *)

Module ScalarNTTEngine.

Record t := mk {
  q_ : Z;
  n_ : Z;
  log_n_ : Z;
  zetas_ : list Z;
  zetas_inv_ : list Z;
  montgomery_r_ : Z;
  montgomery_r_inv_ : Z
}.

(** [zetas_[0] = 1; zetas_[i] = zetas_[i-1] * zeta % q]. *)
Fixpoint powers (len : nat) (cur zeta q : Z) : list Z :=
  match len with
  | O => []
  | S len' => cur :: powers len' ((cur * zeta) mod q) zeta q
  end.

(** The constructor: [NTTEngine(q, n)] throws unless [n] is a power of
    two and counts [log_n_] by halving; [ScalarNTTEngine(q, n)] then fills
    the Montgomery constants and the two tables of powers of
    [zeta = 17^((q-1)/n)]. *)
Definition create (q n : Z) : option t :=
  if negb (Utils.is_power_of_two n) then None
  else
    let log_n := Z.log2 n in
    let montgomery_r := (2 ^ 32) mod q in
    montgomery_r_inv <-? Utils.mod_inverse montgomery_r q ;;
    let g := 17 in
    let zeta := Utils.mod_pow g ((q - 1) / n) q in
    let zetas := powers (Z.to_nat n) 1 zeta q in
    zeta_inv <-? Utils.mod_inverse zeta q ;;
    let zetas_inv := powers (Z.to_nat n) 1 zeta_inv q in
    Some (mk q n log_n zetas zetas_inv montgomery_r montgomery_r_inv).

Section Engine.
Variable e : t.

(** [montgomery_reduce(uint64_t val)] of the engine. *)
Definition montgomery_reduce (val : Z) : Z :=
  let t := u64 (val * montgomery_r_inv_ e) in
  let k := u32 (t mod 2 ^ 32) in
  let res := u64 (val - k * q_ e) in
  u32 (Z.shiftr res 32).

Definition butterfly (a b zeta : Z) : Z * Z :=
  let sum := u32 (a + b) mod q_ e in
  let diff := if a >=? b then a - b else u32 (a + q_ e - b) in
  let prod := montgomery_reduce (u64 (diff * zeta)) in
  (sum, prod).

Definition butterfly_inv (a b zeta : Z) : Z * Z := butterfly a b zeta.

(** [butterfly(poly[i], poly[i + k], zeta)] in place.  The indices stay
    below [n_] when [poly] holds [n_] coefficients. *)
Definition butterfly_at (bf : Z -> Z -> Z -> Z * Z)
           (poly : list Z) (i k zeta : Z) : list Z :=
  let '(x, y) := bf (nth (Z.to_nat i) poly 0)
                    (nth (Z.to_nat (i + k)) poly 0) zeta in
  set_nth (set_nth poly (Z.to_nat i) x) (Z.to_nat (i + k)) y.

(** The inner loop over [i < k] of one stage, with [j] stepping by [m]
    through [table]. *)
Definition stage (bf : Z -> Z -> Z -> Z * Z) (table : list Z)
           (poly : list Z) (m k : Z) : list Z :=
  fst (fold_left
         (fun (st : list Z * Z) i =>
            let '(poly, j) := st in
            let zeta := nth (Z.to_nat j) table 0 in
            (butterfly_at bf poly i k zeta, j + m))
         (upto k) (poly, 0)).

Definition ntt_forward (poly : list Z) : list Z :=
  fst (fold_left
         (fun (st : list Z * (Z * Z)) _ =>
            let '(poly, (m, k)) := st in
            (stage butterfly (zetas_ e) poly m k, (u32 (m * 2), k / 2)))
         (upto (log_n_ e)) (poly, (1, n_ e / 2))).

Definition ntt_inverse (poly : list Z) : option (list Z) :=
  let poly :=
    fst (fold_left
           (fun (st : list Z * (Z * Z)) _ =>
              let '(poly, (m, k)) := st in
              (stage butterfly_inv (zetas_inv_ e) poly m k,
               (m / 2, u32 (k * 2))))
           (upto (log_n_ e)) (poly, (n_ e / 2, 1))) in
  n_inv <-? Utils.mod_inverse (n_ e) (q_ e) ;;
  Some (map (fun c => montgomery_reduce (u64 (c * n_inv))) poly).

Definition multiply (a b : list Z) : option (list Z) :=
  let a_ntt := ntt_forward a in
  let b_ntt := ntt_forward b in
  let result :=
    map (fun i => montgomery_reduce
                    (u64 (nth (Z.to_nat i) a_ntt 0 * nth (Z.to_nat i) b_ntt 0)))
        (upto (n_ e)) in
  ntt_inverse result.

End Engine.

End ScalarNTTEngine.

(** The reference the transforms are measured against: the product in
    Z_q[x]/(x^n+1), coefficient by coefficient. *)
Definition schoolbook_coeff (q n : Z) (a b : list Z) (k : Z) : Z :=
  fold_left
    (fun acc i =>
       let ai := nth (Z.to_nat i) a 0 in
       if i <=? k then (acc + ai * nth (Z.to_nat (k - i)) b 0) mod q
       else (acc - ai * nth (Z.to_nat (n + k - i)) b 0) mod q)
    (upto n) 0.

Definition schoolbook (q n : Z) (a b : list Z) : list Z :=
  map (schoolbook_coeff q n a b) (upto n).

Definition kyber_engine : option ScalarNTTEngine.t :=
  ScalarNTTEngine.create 3329 256.

Definition monomial (n : nat) (i : nat) : list Z :=
  set_nth (repeat 0 n) i 1.

(** ** color_kem.cpp *)

Module ColorKEM.

Record ColorPublicKey := mkPublicKey {
  seed : list Z;
  public_data : list Z;
  pk_params : CLWEParameters
}.

Record ColorPrivateKey := mkPrivateKey {
  secret_data : list Z;
  sk_params : CLWEParameters
}.

Record ColorCiphertext := mkCiphertext {
  ciphertext_data : list Z;
  shared_secret_hint : list Z;
  ct_params : CLWEParameters
}.

(** *** Byte codecs *)

Definition be32 (value : Z) : list Z :=
  [ u8 (Z.land (Z.shiftr value 24) 255);
    u8 (Z.land (Z.shiftr value 16) 255);
    u8 (Z.land (Z.shiftr value 8) 255);
    u8 (Z.land value 255) ].

Definition encode_color_secret (secret : ColorValue.t) : list Z :=
  let value := u32 (ColorValue.to_precise_value secret) in
  be32 value.

Definition color_secret_to_bytes (secret : ColorValue.t) : list Z :=
  let value := u32 (ColorValue.to_precise_value secret) in
  be32 value.

Definition bytes_to_color_secret (bytes : list Z) : ColorValue.t :=
  match bytes with
  | b0 :: b1 :: b2 :: b3 :: _ =>
      let value :=
        Z.lor (Z.lor (Z.lor (u32 (Z.shiftl b0 24)) (u32 (Z.shiftl b1 16)))
                     (u32 (Z.shiftl b2 8)))
              b3 in
      ColorValue.from_precise_value value
  | _ => ColorValue.from_precise_value 0
  end.

Definition decode_color_secret (encoded : list Z) : ColorValue.t :=
  bytes_to_color_secret encoded.

(** The loop [for (i = 0; i < data.size(); i += 4)] cutting [data] into
    slices [data[i .. min(i + 4, size))]. *)
Fixpoint chunks (fuel : nat) (data : list Z) : list (list Z) :=
  match fuel with
  | O => []
  | S fuel' =>
      match data with
      | [] => []
      | _ => firstn 4 data :: chunks fuel' (skipn 4 data)
      end
  end.

Definition parse_colors (data : list Z) : list ColorValue.t :=
  map bytes_to_color_secret (chunks (length data) data).

Definition colors_to_bytes (colors : list ColorValue.t) : list Z :=
  flat_map color_secret_to_bytes colors.

(** *** Serialisation *)

Definition ColorPublicKey_serialize (key : ColorPublicKey) : list Z :=
  seed key ++ public_data key.

(** [ColorPublicKey key;] default-initialises the object: [public_data] is
    empty, [params] is [CLWEParameters()], and the 32 bytes of [seed] are
    whatever the storage held ([indeterminate]). *)
Definition ColorPublicKey_deserialize (indeterminate : list Z)
           (data : list Z) : ColorPublicKey :=
  if 32 <=? Z.of_nat (length data)
  then mkPublicKey (firstn 32 data) (skipn 32 data) (CLWEParameters_of 128)
  else mkPublicKey indeterminate [] (CLWEParameters_of 128).

Definition ColorPrivateKey_serialize (key : ColorPrivateKey) : list Z :=
  secret_data key.

Definition ColorPrivateKey_deserialize (data : list Z) : ColorPrivateKey :=
  mkPrivateKey data (CLWEParameters_of 128).

Definition ColorCiphertext_serialize (ct : ColorCiphertext) : list Z :=
  ciphertext_data ct ++ shared_secret_hint ct.

Definition ColorCiphertext_deserialize (data : list Z) : ColorCiphertext :=
  let split := Z.of_nat (length data) / 2 in
  mkCiphertext (firstn (Z.to_nat split) data) (skipn (Z.to_nat split) data)
               (CLWEParameters_of 128).

Section WithParams.
Variable params_ : CLWEParameters.

(** *** generate_matrix_A *)

(** The two 12-bit candidates cut from three squeezed bytes. *)
Definition coeff1_of (bytes : list Z) : Z :=
  u16 (Z.land (Z.lor (Z.shiftl (nth 0 bytes 0) 4)
                     (Z.shiftr (nth 1 bytes 0) 4)) 0xFFF).

Definition coeff2_of (bytes : list Z) : Z :=
  u16 (Z.land (Z.lor (Z.shiftl (nth 1 bytes 0) 8) (nth 2 bytes 0)) 0xFFF).

(** [if (c < q && coeff_idx < n) coeffs[coeff_idx++] = c;] *)
Definition accept (q n c : Z) (st : Z * list Z) : Z * list Z :=
  let '(coeff_idx, coeffs) := st in
  if (c <? q) && (coeff_idx <? n)
  then (coeff_idx + 1, set_nth coeffs (Z.to_nat coeff_idx) c)
  else (coeff_idx, coeffs).

(** The rejection loop [while (coeff_idx < n)].  It ends only when the
    stream has yielded [n] candidates below [q]; [fuel] bounds the number
    of turns the model follows. *)
Fixpoint sample_loop (fuel : nat) (q n : Z) (shake128 : Sampler)
         (coeff_idx : Z) (coeffs : list Z) : option (list Z) :=
  if coeff_idx <? n then
    match fuel with
    | O => None
    | S fuel' =>
        let '(bytes, shake128) := SHAKE128Sampler.squeeze shake128 3 in
        let coeff1 := coeff1_of bytes in
        let coeff2 := coeff2_of bytes in
        let '(coeff_idx, coeffs) :=
          accept q n coeff2 (accept q n coeff1 (coeff_idx, coeffs)) in
        sample_loop fuel' q n shake128 coeff_idx coeffs
    end
  else Some coeffs.

(** The coefficient vector sampled for position [(i, j)]: the sampler is
    seeded with [seed ‖ i ‖ j]. *)
Definition sample_entry (fuel : nat) (seed : list Z) (i j : Z)
  : option (list Z) :=
  let n := degree params_ in
  let q := modulus params_ in
  let coeffs := repeat 0 (Z.to_nat n) in
  let shake_input := seed ++ [u8 i; u8 j] in
  let shake128 := SHAKE128Sampler.init shake_input in
  sample_loop fuel q n shake128 0 coeffs.

(** The store loop [for (coeff < n) matrix[i][j] = from_precise_value(
    coeffs[coeff])]: every turn assigns the same slot. *)
Definition store_entry (coeffs : list Z) : ColorValue.t :=
  fold_left
    (fun (_ : ColorValue.t) coeff =>
       ColorValue.from_precise_value (nth (Z.to_nat coeff) coeffs 0))
    (upto (degree params_)) ColorValue.default.

Definition generate_matrix_A (fuel : nat) (seed : list Z)
  : option (list (list ColorValue.t)) :=
  let k := module_rank params_ in
  mapM_opt
    (fun i =>
       mapM_opt
         (fun j =>
            coeffs <-? sample_entry fuel seed i j ;;
            Some (store_entry coeffs))
         (upto k))
    (upto k).

(** *** Noise and secrets *)

(** [(sample % int32_t(q) + q) % q]: the sum is formed in [uint32_t]. *)
Definition lift_sample (sample : Z) : Z :=
  let q := modulus params_ in
  u32 (Z.rem sample (s32 q) + q) mod q.

Definition sample_colors (sampler : Sampler) : list ColorValue.t :=
  fst (fold_left
         (fun (st : list ColorValue.t * Sampler) _ =>
            let '(acc, sampler) := st in
            let '(sample, sampler) :=
              SHAKE256Sampler.sample_binomial_coefficient
                sampler (eta params_) in
            (acc ++ [ColorValue.from_precise_value (lift_sample sample)],
             sampler))
         (upto (module_rank params_)) ([], sampler)).

Definition rand_byte : M Z := x <- rand ;; ret (Z.rem x 256).

Definition generate_error_vector : M (list ColorValue.t) :=
  seed <- generate 32 rand_byte ;;
  ret (sample_colors (SHAKE256Sampler.init seed)).

Definition generate_secret_key : M (list ColorValue.t) :=
  seed <- generate 32 rand_byte ;;
  ret (sample_colors (SHAKE256Sampler.init seed)).

(** *** Linear algebra over colours *)

Definition dot_step (acc x y : Z) : Z :=
  u64 (acc + u64 (x * y)) mod modulus params_.

Definition matrix_vector_mul (matrix : list (list ColorValue.t))
           (vector : list ColorValue.t) : option (list ColorValue.t) :=
  let k := module_rank params_ in
  mapM_opt
    (fun i =>
       sum <-? fold_left
                (fun (acc : option Z) j =>
                   sum <-? acc ;;
                   row <-? at_ matrix i ;;
                   m <-? at_ row j ;;
                   v <-? at_ vector j ;;
                   Some (dot_step sum (ColorValue.to_precise_value m)
                                  (ColorValue.to_precise_value v)))
                (upto k) (Some 0) ;;
       Some (ColorValue.from_precise_value sum))
    (upto k).

Definition matrix_transpose_vector_mul
           (matrix : list (list ColorValue.t))
           (vector : list ColorValue.t) : option (list ColorValue.t) :=
  let k := module_rank params_ in
  mapM_opt
    (fun i =>
       sum <-? fold_left
                (fun (acc : option Z) j =>
                   sum <-? acc ;;
                   row <-? at_ matrix j ;;
                   m <-? at_ row i ;;
                   v <-? at_ vector j ;;
                   Some (dot_step sum (ColorValue.to_precise_value m)
                                  (ColorValue.to_precise_value v)))
                (upto k) (Some 0) ;;
       Some (ColorValue.from_precise_value sum))
    (upto k).

Definition generate_public_key (secret_key : list ColorValue.t)
           (matrix_A : list (list ColorValue.t))
           (error_vector : list ColorValue.t)
  : option (list ColorValue.t) :=
  As <-? matrix_vector_mul matrix_A secret_key ;;
  mapM_opt
    (fun i =>
       as_c <-? at_ As i ;;
       e_c <-? at_ error_vector i ;;
       let as_val := ColorValue.to_precise_value as_c in
       let e_val := ColorValue.to_precise_value e_c in
       let pk_val := u64 (as_val + e_val) mod modulus params_ in
       Some (ColorValue.from_precise_value pk_val))
    (upto (module_rank params_)).

(** [sum = (sum + x[i] * y[i]) % q] over [i < k]. *)
Definition inner_product (x y : list ColorValue.t) : option Z :=
  fold_left
    (fun (acc : option Z) i =>
       sum <-? acc ;;
       xi <-? at_ x i ;;
       yi <-? at_ y i ;;
       Some (dot_step sum (ColorValue.to_precise_value xi)
                      (ColorValue.to_precise_value yi)))
    (upto (module_rank params_)) (Some 0).

(** *** Encryption and decryption of one colour *)

Definition encrypt_message (matrix_A : list (list ColorValue.t))
           (public_key : list ColorValue.t) (message : ColorValue.t)
  : M (list ColorValue.t) :=
  let k := module_rank params_ in
  let q := modulus params_ in
  r_vector <- generate_secret_key ;;
  e1_vector <- generate_error_vector ;;
  e2_vector <- generate_error_vector ;;
  e2 <- lift (at_ e2_vector 0) ;;
  c1 <- lift (mapM_opt
                (fun i =>
                   r_c <-? at_ r_vector i ;;
                   e1_c <-? at_ e1_vector i ;;
                   let r_val := ColorValue.to_precise_value r_c in
                   let e1_val := ColorValue.to_precise_value e1_c in
                   let c1_val := u64 (r_val + e1_val) mod q in
                   Some (ColorValue.from_precise_value c1_val))
                (upto k)) ;;
  inner <- lift (inner_product public_key r_vector) ;;
  let e2_val := ColorValue.to_precise_value e2 in
  let m_val := ColorValue.to_precise_value message in
  let q_fourth := q / 4 in
  let encoded_m := u64 (m_val * q_fourth) in
  let c2_val := u64 (u64 (inner + e2_val) + encoded_m) mod q in
  ret (c1 ++ [ColorValue.from_precise_value c2_val]).

Definition decrypt_message (secret_key ciphertext : list ColorValue.t)
  : option ColorValue.t :=
  let k := module_rank params_ in
  let q := modulus params_ in
  if Z.of_nat (length ciphertext) <? k then None
  else
    let c1 := firstn (Z.to_nat k) ciphertext in
    c2 <-? at_ ciphertext k ;;
    s_dot_c1 <-? inner_product secret_key c1 ;;
    let c2_val := ColorValue.to_precise_value c2 in
    let v := if c2_val >=? s_dot_c1 then c2_val - s_dot_c1
             else u64 (u64 (c2_val + q) - s_dot_c1) in
    let v := v mod q in
    let q_half := q / 2 in
    let m := if v >? q_half then 1 else 0 in
    Some (ColorValue.from_precise_value m).

(** *** The three KEM operations *)

Definition rd_byte : M Z := x <- random_device ;; ret (u32 x mod 256).

Definition keygen (fuel : nat) : M (ColorPublicKey * ColorPrivateKey) :=
  matrix_seed <- generate 32 rd_byte ;;
  matrix_A <- lift (generate_matrix_A fuel matrix_seed) ;;
  secret_key_colors <- generate_secret_key ;;
  error_vector <- generate_error_vector ;;
  public_key_colors <-
    lift (generate_public_key secret_key_colors matrix_A error_vector) ;;
  let secret_data := colors_to_bytes secret_key_colors in
  let public_data := colors_to_bytes public_key_colors in
  ret (mkPublicKey matrix_seed public_data params_,
       mkPrivateKey secret_data params_).

Definition encapsulate (fuel : nat) (public_key : ColorPublicKey)
  : M (ColorCiphertext * ColorValue.t) :=
  bit <- rand ;;
  let shared_secret := ColorValue.from_precise_value (u64 (Z.rem bit 2)) in
  matrix_A <- lift (generate_matrix_A fuel (seed public_key)) ;;
  let public_key_colors := parse_colors (public_data public_key) in
  ciphertext_colors <-
    encrypt_message matrix_A public_key_colors shared_secret ;;
  let ciphertext_data := colors_to_bytes ciphertext_colors in
  let shared_secret_hint := encode_color_secret shared_secret in
  ret (mkCiphertext ciphertext_data shared_secret_hint params_,
       shared_secret).

Definition decapsulate (public_key : ColorPublicKey)
           (private_key : ColorPrivateKey) (ciphertext : ColorCiphertext)
  : option ColorValue.t :=
  let secret_key_colors := parse_colors (secret_data private_key) in
  let ciphertext_colors := parse_colors (ciphertext_data ciphertext) in
  decrypt_message secret_key_colors ciphertext_colors.

Definition verify_keypair (public_key : ColorPublicKey)
           (private_key : ColorPrivateKey) : bool :=
  (security_level (pk_params public_key)
   =? security_level (sk_params private_key))
  && (modulus (pk_params public_key) =? modulus (sk_params private_key)).

End WithParams.

End ColorKEM.

(** A host whose two tapes are given by finite lists, repeated for ever. *)
Definition cyclic (l : list Z) : nat -> Z :=
  fun i => nth (i mod length l)%nat l 0.

Definition host_of (rand_draws rd_draws : list Z) : Host :=
  mkHost (cyclic rand_draws) 0 (cyclic rd_draws) 0.


(** ** The candidate stream of the matrix sampler *)

(** The three bytes of the [t]-th squeeze of a sampler with state [st]. *)
Definition triple (st : list Z) (t : Z) : list Z :=
  [ SHAKE128Sampler.byte_at st (3 * t);
    SHAKE128Sampler.byte_at st (3 * t + 1);
    SHAKE128Sampler.byte_at st (3 * t + 2) ].

Definition candidates (st : list Z) (t : Z) : list Z :=
  [ ColorKEM.coeff1_of (triple st t); ColorKEM.coeff2_of (triple st t) ].

(** The candidates below [q] among the first [T] squeezes, in order. *)
Definition accepted (q : Z) (st : list Z) (T : Z) : list Z :=
  filter (fun c => c <? q) (flat_map (candidates st) (upto T)).

(** The loop state after the accepted candidates [L] have been offered:
    the index and the partly filled coefficient vector. *)
Definition filled (n : Z) (L : list Z) : Z * list Z :=
  (Z.of_nat (Nat.min (Z.to_nat n) (length L)),
   firstn (Z.to_nat n) L ++ repeat 0 (Z.to_nat n - length L)).

(** A squeeze whose first byte has bit 7 clear. *)
Definition low_start (st : list Z) (t : Z) : bool :=
  negb (Z.testbit (SHAKE128Sampler.byte_at st (3 * t)) 7).

(** ** The specification's reading of the same operations

    These definitions follow the words of the specification; they are what
    the code is compared with. *)

(** Uniform sampling as specified: [d1 = b0 | ((b1 & 0x0F) << 8)] and
    [d2 = (b1 >> 4) | (b2 << 4)]. *)
Definition spec_d1 (bytes : list Z) : Z :=
  Z.lor (nth 0 bytes 0) (Z.shiftl (Z.land (nth 1 bytes 0) 0x0F) 8).

Definition spec_d2 (bytes : list Z) : Z :=
  Z.lor (Z.shiftr (nth 1 bytes 0) 4) (Z.shiftl (nth 2 bytes 0) 4).

Definition spec_candidates (st : list Z) (t : Z) : list Z :=
  [ spec_d1 (triple st t); spec_d2 (triple st t) ].

(** Matrix entry [(i, j)] as specified: the sampler absorbs [rho ‖ j ‖ i],
    and the first [n] accepted candidates are the coefficients.  [T] is the
    number of squeezes looked at. *)
Definition spec_matrix_entry (q n : Z) (rho : list Z) (i j : Z) (T : Z)
  : list Z :=
  firstn (Z.to_nat n)
         (filter (fun c => c <? q)
                 (flat_map (spec_candidates (rho ++ [u8 j; u8 i])) (upto T))).

(** The coefficients a matrix slot of the code holds: one colour. *)
Definition stored_coeffs (entry : ColorValue.t) : list Z :=
  [ ColorValue.to_precise_value entry ].

(** The postcondition specified for Montgomery reduction with radix [R]:
    [a] lies strictly between [-q] and [q] and [a * R ≡ x (mod q)]. *)
Definition mont_post (q R x a : Z) : Prop :=
  - q < a < q /\ (a * R) mod q = x mod q.

(** Decapsulation with the Fujisaki-Okamoto transform and implicit
    rejection, over the primitives the specification names. *)
Section FujisakiOkamoto.
Variable G : list Z -> list Z * list Z.
Variable H : list Z -> list Z.
Variable KDF : list Z -> list Z.
Variable Enc_PKE : list Z -> list Z -> list Z -> list Z.
Variable Dec_PKE : list Z -> list Z -> list Z.

(** Equality of two byte strings by an accumulated xor over every byte. *)
Definition ct_equal (c c' : list Z) : bool :=
  (length c =? length c')%nat
  && (fold_left Z.lor (map (fun p => Z.lxor (fst p) (snd p)) (combine c c')) 0
      =? 0).

(** Byte-wise masked selection. *)
Definition ct_select (valid : bool) (a b : list Z) : list Z :=
  let mask := if valid then 255 else 0 in
  map (fun p => Z.lor (Z.land (fst p) mask) (Z.land (snd p) (Z.lxor mask 255)))
      (combine a b).

Definition fo_decaps (sk_pke pk hpk z c : list Z) : list Z :=
  let m' := Dec_PKE sk_pke c in
  let '(Kbar', r') := G (m' ++ hpk) in
  let c' := Enc_PKE pk m' r' in
  let valid := ct_equal c c' in
  let K_ok := KDF (Kbar' ++ H c) in
  let K_fail := KDF (z ++ H c) in
  ct_select valid K_ok K_fail.

End FujisakiOkamoto.

(** Error codes of [clwe.hpp], and what a caller can observe of a call. *)
Inductive CLWEError :=
| SUCCESS
| INVALID_PARAMETERS
| MEMORY_ALLOCATION_FAILED
| AVX_NOT_SUPPORTED
| INVALID_KEY
| VERIFICATION_FAILED
| UNKNOWN_ERROR.

Inductive Outcome (A : Type) :=
| Returned (x : A)
| Failed (e : CLWEError).

Arguments Returned {A} x.
Arguments Failed {A} e.

(** The two parse routines as their callers see them: neither body has a
    [throw] or an error return, every path ends in [return key] or
    [return ct]. *)
Definition parse_public_key (indeterminate data : list Z)
  : Outcome ColorKEM.ColorPublicKey :=
  Returned (ColorKEM.ColorPublicKey_deserialize indeterminate data).

Definition parse_ciphertext (data : list Z)
  : Outcome ColorKEM.ColorCiphertext :=
  Returned (ColorKEM.ColorCiphertext_deserialize data).

(** Lengths of what [keygen] and [encapsulate] serialise: a 32-byte seed and
    [k] four-byte colours; [k + 1] four-byte colours and the four-byte hint. *)
Definition public_key_bytes (p : CLWEParameters) : Z :=
  32 + 4 * module_rank p.

Definition ciphertext_bytes (p : CLWEParameters) : Z :=
  4 * (module_rank p + 1) + 4.

(** ** Concrete inputs *)

Definition L1 : CLWEParameters := CLWEParameters_of 128.

Definition zero_seed : list Z := repeat 0 32.

(** [rand()] answers 1 at every call, [random_device] answers 0. *)
Definition host_ones : Host := host_of [1] [0].

(** Both sources answer 0 at every call. *)
Definition host_zeros : Host := host_of [0] [0].

(** One KEM session: key generation, encapsulation to the fresh public key
    and decapsulation of the fresh ciphertext.  It returns the secret of the
    sender and the secret of the receiver. *)
Definition kem_session (p : CLWEParameters) (fuel : nat) (h : Host)
  : option (ColorValue.t * ColorValue.t) :=
  match ColorKEM.keygen p fuel h with
  | Some ((pk, sk), h1) =>
      match ColorKEM.encapsulate p fuel pk h1 with
      | Some ((ct, shared_secret), _) =>
          recovered <-? ColorKEM.decapsulate p pk sk ct ;;
          Some (shared_secret, recovered)
      | None => None
      end
  | None => None
  end.

(** ** What a computation draws from the host *)

(** The next [len] bytes [rand() % 256] and [rd() % 256] a host will give,
    and the host after [len] draws. *)
Definition rand_bytes (h : Host) (len : nat) : list Z :=
  map (fun i => u8 (Z.rem (rand_tape h (rand_pos h + i)) 256)) (seq 0 len).

Definition rd_bytes (h : Host) (len : nat) : list Z :=
  map (fun i => u8 (u32 (rd_tape h (rd_pos h + i)) mod 256)) (seq 0 len).

Definition skip_rand (h : Host) (len : nat) : Host :=
  mkHost (rand_tape h) (rand_pos h + len) (rd_tape h) (rd_pos h).

Definition skip_rd (h : Host) (len : nat) : Host :=
  mkHost (rand_tape h) (rand_pos h) (rd_tape h) (rd_pos h + len).

(** Two hosts whose next [n] draws agree. *)
Definition same_rand (h1 h2 : Host) (n : nat) : Prop :=
  forall i, (i < n)%nat ->
            rand_tape h1 (rand_pos h1 + i) = rand_tape h2 (rand_pos h2 + i).

Definition same_rd (h1 h2 : Host) (n : nat) : Prop :=
  forall i, (i < n)%nat ->
            rd_tape h1 (rd_pos h1 + i) = rd_tape h2 (rd_pos h2 + i).

(** A host that has already served five draws of each source; its tapes
    agree with those of [host_ones] on the next 200 draws and differ later. *)
Definition host_late : Host :=
  mkHost (fun i => if (i <? 205)%nat then 1 else 7) 5
         (fun i => if (i <? 205)%nat then 0 else 9) 5.

(** A host that answers as [host_ones] to the first 64 draws of [rand()]
    and the first 32 draws of [random_device], and differently from then
    on. *)
Definition host_short : Host :=
  mkHost (fun i => if (i <? 64)%nat then 1 else 7) 0
         (fun i => if (i <? 32)%nat then 0 else 9) 0.

(** The value of four bytes read most significant byte first. *)
Definition be_value (bytes : list Z) : Z :=
  fold_left (fun acc b => acc * 256 + b) bytes 0.

(** A key pair and a ciphertext of the L1 parameter set. *)
Definition sample_public_key : ColorKEM.ColorPublicKey :=
  ColorKEM.mkPublicKey zero_seed [0; 0; 0; 143; 0; 0; 0; 143] L1.

Definition sample_private_key : ColorKEM.ColorPrivateKey :=
  ColorKEM.mkPrivateKey [0; 0; 0; 253; 0; 0; 0; 253] L1.

Definition sample_ciphertext : ColorKEM.ColorCiphertext :=
  ColorKEM.mkCiphertext [0; 0; 0; 250; 0; 0; 0; 250; 0; 0; 0; 142]
                        [0; 0; 0; 0] L1.

(** The arithmetic of [encrypt_message] once its three noise vectors have
    been drawn. *)
Definition encrypt_with (p : CLWEParameters)
           (public_key : list ColorValue.t) (message : ColorValue.t)
           (r_vector e1_vector e2_vector : list ColorValue.t)
  : option (list ColorValue.t) :=
  let k := module_rank p in
  let q := modulus p in
  e2 <-? at_ e2_vector 0 ;;
  c1 <-? mapM_opt
          (fun i =>
             r_c <-? at_ r_vector i ;;
             e1_c <-? at_ e1_vector i ;;
             let r_val := ColorValue.to_precise_value r_c in
             let e1_val := ColorValue.to_precise_value e1_c in
             let c1_val := u64 (r_val + e1_val) mod q in
             Some (ColorValue.from_precise_value c1_val))
          (upto k) ;;
  inner <-? ColorKEM.inner_product p public_key r_vector ;;
  let e2_val := ColorValue.to_precise_value e2 in
  let m_val := ColorValue.to_precise_value message in
  let q_fourth := q / 4 in
  let encoded_m := u64 (m_val * q_fourth) in
  let c2_val := u64 (u64 (inner + e2_val) + encoded_m) mod q in
  Some (c1 ++ [ColorValue.from_precise_value c2_val]).

(** The noise vector sampled from the next 32 bytes of [rand()]. *)
Definition noise_of (p : CLWEParameters) (h : Host) : list ColorValue.t :=
  ColorKEM.sample_colors p (SHAKE256Sampler.init (rand_bytes h 32)).

(** The 161 values [rand()] of the GNU C library returns after [srand(3)]:
    as many as one session draws (64 in [keygen], 97 in [encapsulate]). *)
Definition gnu_rand_3 : list Z :=
  [1205554746; 483147985; 844158168; 953350440; 612121425; 310914940;
   1210224072; 1856883376; 1922860801; 495649264; 8614858; 989089924;
   378651393; 1344681739; 2029100602; 1816952841; 21468264; 552076975;
   87517201; 953369895; 374612515; 787097142; 126313438; 1207815258;
   287632273; 1886964647; 1220723885; 1119448937; 444268468; 1865680798;
   1654563454; 1649823214; 201345136; 351237974; 455690006; 813466561;
   662152915; 1665914078; 522866290; 437530068; 14079694; 531481148;
   1426619992; 392731087; 1876162888; 1308236947; 62200281; 1897631152;
   1860313922; 149717482; 703517399; 87442789; 936814624; 829830837;
   1295258048; 1224446897; 569311836; 368498285; 196412186; 1013580304;
   86695435; 1850975641; 515919871; 288040571; 54729967; 971609877;
   1101507133; 716882882; 490040308; 1624373423; 1154412950; 504120002;
   8370923; 433549295; 896851090; 1884533811; 1741786242; 959051371;
   1634681315; 1454616516; 1108768853; 190715066; 1542059306; 2045583477;
   1020545904; 689833706; 1122546726; 1589857740; 1058331991; 1318958913;
   455954397; 1145027426; 1022450906; 971874268; 1433067998; 1077180873;
   1943484145; 387091483; 1794063756; 286040805; 2011464906; 800993058;
   790160808; 2019835829; 1234542353; 1687011898; 1756885993; 828844947;
   498579621; 1244083660; 135977816; 1607348474; 1434798727; 1678037122;
   1505448303; 307860983; 220387180; 480511381; 1897718723; 1278719171;
   1799470294; 206189472; 276262949; 674437552; 1178063740; 1709330947;
   1751618426; 974064238; 2096422430; 1398198534; 1260105043; 1960403688;
   51707944; 2050265851; 1832755870; 1286250298; 1589794101; 1442158215;
   2115095245; 2088373722; 538758227; 103589413; 1548238548; 1973556954;
   1781626535; 906203203; 133934289; 2002013715; 1386714585; 2031653013;
   1133249238; 1038701231; 90358837; 1409512188; 1713138784; 1268422578;
   971359487; 1317273562; 95003168; 920298270; 567988448].

Definition host_gnu_3 : Host := host_of gnu_rand_3 [0].

(** ** Proof automation *)

(** Case analysis on every integer comparison of the goal, then on the
    remaining booleans. *)
Ltac zcases :=
  repeat match goal with
    | |- context [?x <? ?y] => destruct (Z.ltb_spec x y); try lia
    | |- context [?x <=? ?y] => destruct (Z.leb_spec x y); try lia
    end;
  cbn [andb orb negb xorb];
  repeat match goal with
    | |- context [Z.testbit ?x ?y] => destruct (Z.testbit x y)
    end;
  try reflexivity.

(** ** Further definitions: colours that fit their bytes *)

(** A colour whose four channels are bytes, as every [ColorValue] object of
    the C++ code is. *)
Definition byte_color (c : ColorValue.t) : Prop :=
  0 <= ColorValue.r c < 256 /\ 0 <= ColorValue.g c < 256
  /\ 0 <= ColorValue.b c < 256 /\ 0 <= ColorValue.a c < 256.

(** What the four-byte codec of [color_kem.cpp] keeps of a colour: the green
    and blue channels. *)
Definition codec_image (c : ColorValue.t) : ColorValue.t :=
  ColorValue.mk 0 (ColorValue.g c) (ColorValue.b c) 255.

(** A colour written by [from_precise_value] from a 32-bit value. *)
Definition precise32 (c : ColorValue.t) : Prop :=
  exists v, 0 <= v < 2 ^ 32 /\ c = ColorValue.from_precise_value v.

(** The sum of [f 0], ..., [f (n - 1)] over the integers. *)
Definition sum_upto (f : Z -> Z) (n : Z) : Z :=
  fold_left (fun acc i => acc + f i) (upto n) 0.

(** The precise value of the [i]-th colour of a vector. *)
Definition precise_at (v : list ColorValue.t) (i : Z) : Z :=
  ColorValue.to_precise_value (nth (Z.to_nat i) v ColorValue.default).

(** Powers of two met in the byte arithmetic, as numerals. *)
Ltac pow2s :=
  change (2 ^ 8) with 256 in *; change (2 ^ 16) with 65536 in *;
  change (2 ^ 24) with 16777216 in *; change (2 ^ 32) with 4294967296 in *;
  change (2 ^ 64) with 18446744073709551616 in *.


(** ** color_value.cpp: [color_ops] *)

Module color_ops.

(** [std::min(255, a.r + b.r)] is formed in [int] and passed to a
    [uint8_t] parameter of the constructor. *)
Definition add_colors (a b : ColorValue.t) : ColorValue.t :=
  ColorValue.mk
    (u8 (Z.min 255 (ColorValue.r a + ColorValue.r b)))
    (u8 (Z.min 255 (ColorValue.g a + ColorValue.g b)))
    (u8 (Z.min 255 (ColorValue.b a + ColorValue.b b)))
    (u8 (Z.min 255 (ColorValue.a a + ColorValue.a b))).

Definition multiply_colors (a b : ColorValue.t) : ColorValue.t :=
  ColorValue.mk
    (u8 ((ColorValue.r a * ColorValue.r b) / 255))
    (u8 ((ColorValue.g a * ColorValue.g b) / 255))
    (u8 ((ColorValue.b a * ColorValue.b b) / 255))
    (u8 ((ColorValue.a a * ColorValue.a b) / 255)).

Definition mod_reduce_color (c : ColorValue.t) (modulus : Z)
  : option ColorValue.t :=
  if modulus =? 0 then None
  else
    let val := ColorValue.to_math_value c in
    let val := val mod modulus in
    Some (ColorValue.from_math_value val).

End color_ops.

(** ** ntt_engine.cpp: the base class [NTTEngine] *)

Module NTTEngine.

(** [while (temp > 1) { temp >>= 1; log_n_++; }]: a 32-bit value is halved
    at most 32 times before it reaches 1 or 0. *)
Fixpoint log_n_loop (fuel : nat) (temp log_n : Z) : Z :=
  match fuel with
  | O => log_n
  | S fuel' =>
      if temp >? 1 then log_n_loop fuel' (Z.shiftr temp 1) (u32 (log_n + 1))
      else log_n
  end.

Definition log_n_of (n : Z) : Z := log_n_loop 32 n 0.

(** The inner loop of [precompute_bitrev]:
    [rev |= ((i >> j) & 1) << (log_n_ - 1 - j)] for [j < log_n_]. *)
Definition bitrev_of (log_n i : Z) : Z :=
  fold_left
    (fun rev j =>
       Z.lor rev (u32 (Z.shiftl (Z.land (Z.shiftr i j) 1) (log_n - 1 - j))))
    (upto log_n) 0.

Definition precompute_bitrev (n log_n : Z) : list Z :=
  map (bitrev_of log_n) (upto n).

(** [temp[bitrev_[i]] = poly[i]] for [i < n_], then [temp] is copied back.
    [temp] starts as [n_] zeros. *)
Definition bit_reverse (n : Z) (bitrev : list Z) (poly : list Z) : list Z :=
  fold_left
    (fun temp i =>
       set_nth temp (Z.to_nat (nth (Z.to_nat i) bitrev 0))
               (nth (Z.to_nat i) poly 0))
    (upto n) (repeat 0 (Z.to_nat n)).

End NTTEngine.

(** ** color_ntt_engine.cpp: coefficients carried as colours *)

Module ColorNTTEngine.

Definition convert_uint32_to_colors (n : Z) (coeffs : list Z)
  : list ColorValue.t :=
  map (fun i => ColorValue.from_precise_value (nth (Z.to_nat i) coeffs 0))
      (upto n).

Definition convert_colors_to_uint32 (n : Z) (colors : list ColorValue.t)
  : list Z :=
  map (fun i =>
         u32 (ColorValue.to_precise_value
                (nth (Z.to_nat i) colors ColorValue.default)))
      (upto n).

(** The three operations of the colour butterfly.  The sums and products
    are those of [uint64_t]; [% modulus] with a zero modulus is
    undefined. *)
Definition color_add_precise (a b : ColorValue.t) (modulus : Z)
  : option ColorValue.t :=
  if modulus =? 0 then None
  else
    let a_val := ColorValue.to_precise_value a in
    let b_val := ColorValue.to_precise_value b in
    let sum := u64 (a_val + b_val) mod modulus in
    Some (ColorValue.from_precise_value sum).

Definition color_subtract_precise (a b : ColorValue.t) (modulus : Z)
  : option ColorValue.t :=
  if modulus =? 0 then None
  else
    let a_val := ColorValue.to_precise_value a in
    let b_val := ColorValue.to_precise_value b in
    let diff := if a_val >=? b_val then a_val - b_val
                else u64 (a_val + modulus - b_val) in
    let diff := diff mod modulus in
    Some (ColorValue.from_precise_value diff).

Definition color_multiply_precise (a b : ColorValue.t) (modulus : Z)
  : option ColorValue.t :=
  if modulus =? 0 then None
  else
    let a_val := ColorValue.to_precise_value a in
    let b_val := ColorValue.to_precise_value b in
    let product := u64 (a_val * b_val) mod modulus in
    Some (ColorValue.from_precise_value product).

(** [color_butterfly(a, b, zeta, modulus)]: the new values of [a] and
    [b]. *)
Definition color_butterfly (a b zeta : ColorValue.t) (modulus : Z)
  : option (ColorValue.t * ColorValue.t) :=
  sum <-? color_add_precise a b modulus ;;
  diff <-? color_subtract_precise a b modulus ;;
  product <-? color_multiply_precise diff zeta modulus ;;
  Some (sum, product).

End ColorNTTEngine.

(** ** sampling.cpp *)

(** The free function [sample_polynomial_binomial]: a 32-byte seed is drawn
    from [std::random_device] and expanded by a [SHAKE256Sampler]. *)
Definition sample_polynomial_binomial (degree eta modulus : Z)
  : M (list Z) :=
  seed <- generate 32 ColorKEM.rd_byte ;;
  ret (fst (SHAKE256Sampler.sample_polynomial_binomial
              (SHAKE256Sampler.init seed) degree eta modulus)).

(** * Properties *)

Lemma u8_range x : 0 <= u8 x < 256.
Proof. unfold u8. change (2 ^ 8) with 256. apply Z.mod_pos_bound. lia. Qed.

Lemma u8_small x : 0 <= x < 256 -> u8 x = x.
Proof. intros. unfold u8. apply Z.mod_small. change (2 ^ 8) with 256. lia. Qed.

Lemma u8_testbit x i : 0 <= i < 8 -> Z.testbit (u8 x) i = Z.testbit x i.
Proof. intros. unfold u8. apply Z.mod_pow2_bits_low. lia. Qed.

Lemma u8_testbit_high x i : 8 <= i -> Z.testbit (u8 x) i = false.
Proof. intros. unfold u8. apply Z.mod_pow2_bits_high. lia. Qed.

Lemma CLWEParameters_of_degree lvl : degree (CLWEParameters_of lvl) = 256.
Proof.
  unfold CLWEParameters_of.
  destruct (lvl =? 128); [reflexivity|].
  destruct (lvl =? 192); [reflexivity|].
  destruct (lvl =? 256); reflexivity.
Qed.

Lemma CLWEParameters_of_modulus lvl : modulus (CLWEParameters_of lvl) = 3329.
Proof.
  unfold CLWEParameters_of.
  destruct (lvl =? 128); [reflexivity|].
  destruct (lvl =? 192); [reflexivity|].
  destruct (lvl =? 256); reflexivity.
Qed.

Lemma CLWEParameters_of_rank lvl :
  2 <= module_rank (CLWEParameters_of lvl) <= 4.
Proof.
  unfold CLWEParameters_of.
  destruct (lvl =? 128); [simpl; lia|].
  destruct (lvl =? 192); [simpl; lia|].
  destruct (lvl =? 256); simpl; lia.
Qed.

Section ColorValueFacts.
Import ColorValue.

Lemma land_255_testbit x i :
  0 <= i -> Z.testbit (Z.land x 255) i = Z.testbit x i && (i <? 8).
Proof.
  intros Hi. change 255 with (Z.ones 8). rewrite Z.land_spec.
  destruct (i <? 8) eqn:E.
  - apply Z.ltb_lt in E. rewrite Z.ones_spec_low by lia. reflexivity.
  - apply Z.ltb_ge in E. rewrite Z.ones_spec_high by lia. reflexivity.
Qed.

Lemma precise_mask_testbit i :
  0 <= i -> Z.testbit precise_mask i = kept_bit i.
Proof.
  intros Hi. unfold kept_bit.
  destruct (Z_lt_le_dec i 40) as [Hlt|Hge].
  - assert (Hc : In i (map Z.of_nat (seq 0 40))).
    { apply in_map_iff. exists (Z.to_nat i). split; [lia|].
      apply in_seq. lia. }
    revert Hc. generalize i. clear.
    apply Forall_forall. vm_compute.
    repeat constructor.
  - replace (Z.testbit precise_mask i) with false.
    + symmetry.
      replace (i <? 8) with false by (symmetry; apply Z.ltb_ge; lia).
      replace (i <? 24) with false by (symmetry; apply Z.ltb_ge; lia).
      replace (i <? 40) with false by (symmetry; apply Z.ltb_ge; lia).
      rewrite !andb_false_r. reflexivity.
    + symmetry. apply Z.bits_above_log2; [unfold precise_mask; lia|].
      change (Z.log2 precise_mask) with 39. lia.
Qed.

Lemma precise_roundtrip_mask v :
  0 <= v < 2 ^ 64 ->
  to_precise_value (from_precise_value v) = Z.land v precise_mask.
Proof.
  intros Hv. unfold to_precise_value, from_precise_value, r, g, b.
  assert (H255 : forall x, 0 <= Z.land x 255 < 256).
  { intro x. change 255 with (Z.ones 8). rewrite Z.land_ones by lia.
    change (2 ^ 8) with 256. apply Z.mod_pos_bound. lia. }
  assert (Hr := H255 (Z.shiftr v 32)). assert (Hg := H255 (Z.shiftr v 16)).
  unfold u64.
  rewrite (Z.mod_small (Z.shiftl (Z.land (Z.shiftr v 32) 255) 32)).
  2:{ rewrite Z.shiftl_mul_pow2 by lia. lia. }
  rewrite (Z.mod_small (Z.shiftl (Z.land (Z.shiftr v 16) 255) 16)).
  2:{ rewrite Z.shiftl_mul_pow2 by lia. lia. }
  apply Z.bits_inj'. intros i Hi.
  rewrite !Z.lor_spec, (Z.land_spec v precise_mask), precise_mask_testbit by lia.
  rewrite (land_255_testbit v) by lia.
  unfold kept_bit.
  destruct (Z_lt_le_dec i 16) as [H16|H16].
  - rewrite !Z.shiftl_spec_low by lia. zcases.
  - destruct (Z_lt_le_dec i 32) as [H32|H32].
    + rewrite (Z.shiftl_spec_low _ 32) by lia.
      rewrite Z.shiftl_spec by lia.
      rewrite land_255_testbit by lia.
      rewrite Z.shiftr_spec by lia.
      replace (i - 16 + 16) with i by lia. zcases.
    + rewrite !Z.shiftl_spec by lia.
      rewrite !land_255_testbit by lia.
      rewrite !Z.shiftr_spec by lia.
      replace (i - 32 + 32) with i by lia.
      replace (i - 16 + 16) with i by lia. zcases.
Qed.

End ColorValueFacts.


(** ** The rejection loop of the matrix sampler *)

Section CandidateStream.
Import ColorKEM.

Lemma seq_shift_Z s len :
  map Z.of_nat (seq s len)
  = map (fun i => Z.of_nat s + i) (map Z.of_nat (seq 0 len)).
Proof.
  revert s. induction len as [|len IH]; intro s; [reflexivity|].
  change (seq s (S len)) with (s :: seq (S s) len).
  change (seq 0 (S len)) with (0%nat :: seq 1 len).
  cbn [map]. f_equal; [lia|].
  rewrite (IH (S s)). rewrite (IH 1%nat). rewrite !map_map.
  apply map_ext. intro x. lia.
Qed.

Lemma upto_app a b :
  0 <= a -> 0 <= b -> upto (a + b) = upto a ++ map (fun i => a + i) (upto b).
Proof.
  intros Ha Hb. unfold upto.
  rewrite Z2Nat.inj_add by lia. rewrite seq_app, map_app. f_equal.
  rewrite seq_shift_Z. apply map_ext. intro x. lia.
Qed.

Lemma upto_succ a : 0 <= a -> upto (a + 1) = upto a ++ [a].
Proof.
  intro Ha. rewrite upto_app by lia. f_equal.
  change (upto 1) with [0]. cbn [map]. f_equal. lia.
Qed.

Lemma accepted_app q st a b :
  0 <= a -> 0 <= b ->
  accepted q st (a + b)
  = accepted q st a
    ++ filter (fun c => c <? q)
              (flat_map (candidates st) (map (fun i => a + i) (upto b))).
Proof.
  intros Ha Hb. unfold accepted.
  rewrite upto_app, flat_map_app, filter_app by lia. reflexivity.
Qed.

Lemma accepted_succ q st a :
  0 <= a ->
  accepted q st (a + 1)
  = accepted q st a ++ filter (fun c => c <? q) (candidates st a).
Proof.
  intro Ha. unfold accepted.
  rewrite upto_succ, flat_map_app, filter_app by lia.
  cbn [flat_map]. rewrite app_nil_r. reflexivity.
Qed.

Lemma set_nth_app {A} (l1 l2 : list A) (y x : A) :
  set_nth (l1 ++ y :: l2) (length l1) x = l1 ++ x :: l2.
Proof. induction l1 as [|h tl IH]; cbn; [reflexivity|]. now rewrite IH. Qed.

(** Offering one more candidate to the loop state. *)
Lemma accept_filled q n c L :
  0 <= n ->
  accept q n c (filled n L) = filled n (if c <? q then L ++ [c] else L).
Proof.
  intros Hn. unfold accept, filled.
  destruct (c <? q); cbn [andb]; [|reflexivity].
  destruct (Z.ltb_spec (Z.of_nat (Nat.min (Z.to_nat n) (length L))) n) as [Hlt|Hge].
  - assert (HL : (length L < Z.to_nat n)%nat) by lia.
    rewrite Nat.min_r by lia. rewrite Nat2Z.id.
    rewrite firstn_all2 by lia.
    rewrite length_app. cbn [length].
    rewrite Nat.min_r by lia.
    rewrite firstn_all2 by (rewrite length_app; cbn [length]; lia).
    f_equal; [lia|].
    replace (Z.to_nat n - length L)%nat
      with (S (Z.to_nat n - (length L + 1)))%nat by lia.
    cbn [repeat]. rewrite set_nth_app, <- app_assoc. reflexivity.
  - assert (HL : (Z.to_nat n <= length L)%nat) by lia.
    rewrite length_app. cbn [length].
    rewrite !Nat.min_l by lia.
    rewrite firstn_app.
    replace (Z.to_nat n - length L)%nat with 0%nat by lia.
    replace (Z.to_nat n - (length L + 1))%nat with 0%nat by lia.
    cbn [firstn repeat]. rewrite !app_nil_r. reflexivity.
Qed.

Lemma squeeze_triple st t :
  0 <= t -> 3 * t + 3 < 2 ^ 64 ->
  SHAKE128Sampler.squeeze (mkSampler st (3 * t)) 3
  = (triple st t, mkSampler st (3 * (t + 1))).
Proof.
  intros Ht Hb. unfold SHAKE128Sampler.squeeze, triple.
  cbn [state_ position_]. change (upto 3) with [0; 1; 2]. cbn [map].
  unfold u64. rewrite !Z.mod_small by lia.
  replace (3 * t + 0) with (3 * t) by lia.
  replace (3 * t + 3) with (3 * (t + 1)) by lia. reflexivity.
Qed.

(** The rejection loop, started after [t0] squeezes, returns the first [n]
    accepted candidates as soon as its fuel reaches a point of the stream
    where [n] candidates have been accepted. *)
Lemma sample_loop_accepted q n st fuel :
  0 <= n ->
  forall t0,
    0 <= t0 ->
    3 * (t0 + Z.of_nat fuel) < 2 ^ 64 ->
    n <= Z.of_nat (length (accepted q st (t0 + Z.of_nat fuel))) ->
    sample_loop fuel q n (mkSampler st (3 * t0))
                (fst (filled n (accepted q st t0)))
                (snd (filled n (accepted q st t0)))
    = Some (firstn (Z.to_nat n) (accepted q st (t0 + Z.of_nat fuel))).
Proof.
  intros Hn. induction fuel as [|fuel IH]; intros t0 Ht0 Hb Hacc.
  - cbn [sample_loop filled fst snd].
    rewrite Z.add_0_r in Hacc |- *.
    destruct (Z.ltb_spec (Z.of_nat (Nat.min (Z.to_nat n)
                                     (length (accepted q st t0)))) n); [lia|].
    replace (Z.to_nat n - length (accepted q st t0))%nat with 0%nat by lia.
    cbn [repeat]. rewrite app_nil_r. reflexivity.
  - cbn [sample_loop].
    destruct (Z.ltb_spec (fst (filled n (accepted q st t0))) n) as [Hlt|Hge].
    + rewrite squeeze_triple by lia.
      rewrite <- surjective_pairing, !accept_filled by lia.
      pose proof (accepted_succ q st t0 Ht0) as Hs.
      cbn [candidates filter] in Hs.
      set (c1 := coeff1_of (triple st t0)) in *.
      set (c2 := coeff2_of (triple st t0)) in *.
      assert (Hnext :
                (if c2 <? q
                 then (if c1 <? q then accepted q st t0 ++ [c1]
                       else accepted q st t0) ++ [c2]
                 else (if c1 <? q then accepted q st t0 ++ [c1]
                       else accepted q st t0))
                = accepted q st (t0 + 1)).
      { rewrite Hs. destruct (c1 <? q), (c2 <? q);
          rewrite <- ?app_assoc, ?app_nil_r; reflexivity. }
      rewrite Hnext.
      destruct (filled n (accepted q st (t0 + 1))) as [ci cs] eqn:Ef.
      replace ci with (fst (filled n (accepted q st (t0 + 1))))
        by (rewrite Ef; reflexivity).
      replace cs with (snd (filled n (accepted q st (t0 + 1))))
        by (rewrite Ef; reflexivity).
      rewrite IH by (try lia; replace (t0 + 1 + Z.of_nat fuel)
                       with (t0 + Z.of_nat (S fuel)) by lia; assumption).
      f_equal. f_equal. f_equal. lia.
    + cbn [filled fst snd] in Hge |- *.
      assert (HL : (Z.to_nat n <= length (accepted q st t0))%nat) by lia.
      replace (Z.to_nat n - length (accepted q st t0))%nat with 0%nat by lia.
      cbn [repeat]. rewrite app_nil_r.
      rewrite accepted_app by lia. rewrite firstn_app.
      replace (Z.to_nat n - length (accepted q st t0))%nat with 0%nat by lia.
      cbn [firstn]. rewrite app_nil_r. reflexivity.
Qed.

(** *** Enough candidates are accepted

    Bit 7 of a squeezed byte is bit 2 of [state[idx] ^ counter] xor bit 7
    of [state[idx + 1]].  408 positions later the index is the same and the
    counter is 12 larger, which flips its bit 2: of two squeezes 136 turns
    apart, one starts with a byte below 128, and its first candidate is
    below 2048. *)

Lemma byte_at_range st p : 0 <= SHAKE128Sampler.byte_at st p < 256.
Proof. unfold SHAKE128Sampler.byte_at. apply u8_range. Qed.

Lemma testbit_small_high c i : 0 <= c < 256 -> 8 <= i -> Z.testbit c i = false.
Proof. intros Hc Hi. rewrite <- (u8_small c Hc). now apply u8_testbit_high. Qed.

Lemma byte_at_bit7 st p :
  length st = 34%nat -> 0 <= p -> p / 34 < 256 ->
  Z.testbit (SHAKE128Sampler.byte_at st p) 7
  = xorb (xorb (Z.testbit (nth (Z.to_nat (p mod 34)) st 0) 2)
               (Z.testbit (p / 34) 2))
         (Z.testbit (nth (Z.to_nat ((p mod 34 + 1) mod 34)) st 0) 7).
Proof.
  intros Hlen Hp Hc. unfold SHAKE128Sampler.byte_at.
  rewrite Hlen. change (Z.of_nat 34) with 34.
  assert (H0 : 0 <= p / 34) by (apply Z.div_pos; lia).
  unfold u32. rewrite (Z.mod_small (p / 34)) by lia.
  set (X := nth (Z.to_nat (p mod 34)) st 0).
  set (Y := nth (Z.to_nat ((p mod 34 + 1) mod 34)) st 0).
  set (c := p / 34) in *.
  rewrite u8_testbit, Z.lxor_spec by lia. f_equal.
  rewrite u8_testbit, Z.lor_spec by lia.
  rewrite Z.shiftl_spec, Z.shiftr_spec by lia.
  change (7 - 5) with 2. change (7 + 3) with 10.
  rewrite (u8_testbit_high _ 10) by lia. rewrite orb_false_r.
  rewrite u8_testbit, Z.lxor_spec by lia.
  rewrite land_255_testbit, Z.shiftr_spec by lia.
  change (2 + 8) with 10.
  rewrite (testbit_small_high c 10) by lia.
  cbn [andb]. rewrite xorb_false_r.
  rewrite u8_testbit, Z.lxor_spec by lia.
  rewrite land_255_testbit by lia.
  change (2 <? 8) with true. rewrite andb_true_r. reflexivity.
Qed.

Lemma testbit2_add12 c : 0 <= c -> Z.testbit (c + 12) 2 = negb (Z.testbit c 2).
Proof.
  intro Hc.
  rewrite <- !(Z.shiftr_spec _ 2 0) by lia. cbn [Z.add].
  rewrite !Z.shiftr_div_pow2 by lia. change (2 ^ 2) with 4.
  replace (c + 12) with (c + 3 * 4) by lia.
  rewrite Z.div_add by lia.
  rewrite !Z.bit0_odd, Z.odd_add. change (Z.odd 3) with true.
  now rewrite xorb_true_r.
Qed.

Lemma low_start_pair st t :
  length st = 34%nat -> 0 <= t < 408 ->
  low_start st t || low_start st (t + 136) = true.
Proof.
  intros Hlen Ht. unfold low_start.
  assert (Hq : 0 <= 3 * t / 34 < 40).
  { split; [apply Z.div_pos; lia|]. apply Z.div_lt_upper_bound; lia. }
  replace (3 * (t + 136)) with (3 * t + 12 * 34) by lia.
  rewrite !byte_at_bit7; try lia.
  2:{ rewrite Z.div_add by lia. lia. }
  rewrite Z_mod_plus_full, Z.div_add by lia.
  rewrite testbit2_add12 by lia.
  destruct (Z.testbit (nth (Z.to_nat (3 * t mod 34)) st 0) 2),
    (Z.testbit (3 * t / 34) 2),
    (Z.testbit (nth (Z.to_nat ((3 * t mod 34 + 1) mod 34)) st 0) 7);
    reflexivity.
Qed.

Lemma coeff1_low b0 b1 b2 :
  0 <= b0 < 256 -> 0 <= b1 < 256 -> Z.testbit b0 7 = false ->
  0 <= coeff1_of [b0; b1; b2] < 2048.
Proof.
  intros H0 H1 Hbit. unfold coeff1_of. cbn [nth].
  assert (Hb0 : b0 < 128).
  { apply Z.testbit_false in Hbit; [|lia].
    change (2 ^ 7) with 128 in Hbit.
    assert (b0 / 128 < 2) by (apply Z.div_lt_upper_bound; lia).
    assert (0 <= b0 / 128) by (apply Z.div_pos; lia).
    assert (Hz : b0 / 128 = 0).
    { destruct (Z.eq_dec (b0 / 128) 0) as [E|E]; [exact E|].
      replace (b0 / 128) with 1 in Hbit by lia. discriminate Hbit. }
    apply Z.div_small_iff in Hz; lia. }
  rewrite Z.shiftl_mul_pow2, Z.shiftr_div_pow2 by lia.
  change (2 ^ 4) with 16.
  assert (Hd : 0 <= b1 / 16 < 16).
  { split; [apply Z.div_pos; lia|apply Z.div_lt_upper_bound; lia]. }
  set (x := b0 * 16) in *. set (y := b1 / 16) in *.
  assert (Hx : 0 <= x <= 2032) by (unfold x; lia).
  pose proof (Z.add_lor_land x y) as Hadd.
  assert (Hland : 0 <= Z.land x y) by (apply Z.land_nonneg; lia).
  assert (Hlor : 0 <= Z.lor x y) by (apply Z.lor_nonneg; lia).
  change 0xFFF with (Z.ones 12). rewrite Z.land_ones by lia.
  change (2 ^ 12) with 4096.
  rewrite (Z.mod_small (Z.lor x y)) by lia.
  unfold u16. change (2 ^ 16) with 65536. rewrite Z.mod_small by lia. lia.
Qed.

Lemma accepted_count_ge q st (l : list Z) :
  2048 <= q ->
  (length (filter (low_start st) l)
   <= length (filter (fun c => (c <? q)%Z) (flat_map (candidates st) l)))%nat.
Proof.
  intro Hq. induction l as [|t l IH]; [apply Nat.le_refl|].
  cbn [flat_map filter]. rewrite filter_app, length_app.
  destruct (low_start st t) eqn:E.
  - cbn [length]. unfold low_start in E. apply negb_true_iff in E.
    pose proof (coeff1_low _ _ (SHAKE128Sampler.byte_at st (3 * t + 2))
                  (byte_at_range st (3 * t))
                  (byte_at_range st (3 * t + 1)) E) as Hc.
    change (candidates st t)
      with [coeff1_of (triple st t); coeff2_of (triple st t)].
    cbn [filter]. fold (triple st t) in Hc.
    replace (coeff1_of (triple st t) <? q) with true
      by (symmetry; apply Z.ltb_lt; lia).
    cbn [length]. lia.
  - lia.
Qed.

Lemma paired_count st (l : list Z) :
  (forall t, In t l -> low_start st t || low_start st (t + 136) = true) ->
  (length l
   <= length (filter (low_start st) l)
      + length (filter (low_start st) (map (fun t => (t + 136)%Z) l)))%nat.
Proof.
  induction l as [|t l IH]; intro H; [apply Nat.le_refl|].
  assert (Ht := H t (or_introl eq_refl)).
  assert (IH' := IH (fun u Hu => H u (or_intror Hu))).
  cbn [map filter length].
  destruct (low_start st t), (low_start st (t + 136));
    try discriminate Ht; cbn [length]; lia.
Qed.

Lemma upto_In i n : In i (upto n) <-> 0 <= i < n.
Proof.
  unfold upto. rewrite in_map_iff. split.
  - intros [x [Hx Hin]]. apply in_seq in Hin. lia.
  - intro H. exists (Z.to_nat i). split; [lia|]. apply in_seq. lia.
Qed.

(** Among the first 544 squeezes of a 34-byte state at least 272 start
    low, so at least 272 candidates are accepted: more than the 256 the
    matrix sampler needs. *)
Lemma accepted_enough q st :
  length st = 34%nat -> 2048 <= q ->
  (272 <= length (accepted q st 544))%nat.
Proof.
  intros Hlen Hq. unfold accepted.
  eapply Nat.le_trans; [|apply accepted_count_ge; exact Hq].
  assert (Hsplit :
            upto 544
            = (upto 136 ++ map (fun t => t + 136) (upto 136))
              ++ (map (fun t => 272 + t) (upto 136)
                  ++ map (fun t => t + 136)
                       (map (fun t => 272 + t) (upto 136))))
    by (vm_compute; reflexivity).
  rewrite Hsplit, !filter_app, !length_app.
  assert (H1 := paired_count st (upto 136)).
  assert (H2 := paired_count st (map (fun t => 272 + t) (upto 136))).
  assert (L1 : length (upto 136) = 136%nat) by (vm_compute; reflexivity).
  assert (L2 : length (map (fun t => 272 + t) (upto 136)) = 136%nat)
    by (vm_compute; reflexivity).
  rewrite L1 in H1. rewrite L2 in H2.
  assert (136 <= length (filter (low_start st) (upto 136))
                 + length (filter (low_start st)
                             (map (fun t => (t + 136)%Z) (upto 136))))%nat.
  { apply H1. intros t Ht. apply upto_In in Ht.
    apply low_start_pair; [exact Hlen|lia]. }
  assert (136 <= length (filter (low_start st)
                           (map (fun t => (272 + t)%Z) (upto 136)))
                 + length (filter (low_start st)
                             (map (fun t => (t + 136)%Z)
                                (map (fun t => (272 + t)%Z) (upto 136)))))%nat.
  { apply H2. intros t Ht. apply in_map_iff in Ht.
    destruct Ht as [u [Hu Hin]]. apply upto_In in Hin.
    apply low_start_pair; [exact Hlen|lia]. }
  lia.
Qed.

End CandidateStream.

(** ** The colour codec *)

Section ColorCodec.
Import ColorValue.

Lemma kept_bit_8_16 i : 8 <= i < 16 -> kept_bit i = false.
Proof. intro Hi. unfold kept_bit. zcases. Qed.

Lemma precise_roundtrip_testbit v i :
  0 <= v < 2 ^ 64 -> 0 <= i ->
  Z.testbit (to_precise_value (from_precise_value v)) i
  = Z.testbit v i && kept_bit i.
Proof.
  intros Hv Hi. rewrite precise_roundtrip_mask by exact Hv.
  rewrite Z.land_spec, precise_mask_testbit by exact Hi. reflexivity.
Qed.

(** C9. For every 64-bit [v], [from_precise_value(v).to_precise_value()] is
    [v] with only bits 0-7, 16-23 and 32-39 kept; hence a coefficient below
    [q] with a bit set in positions 8-15 (256 for one) does not come back
    from the colour representation. *)
Theorem precise_roundtrip_masks_bits (v : Z) (Hv : 0 <= v < 2 ^ 64) :
  to_precise_value (from_precise_value v) = Z.land v 0xFF00FF00FF
  /\ (forall i, 0 <= i ->
        Z.testbit (to_precise_value (from_precise_value v)) i
        = Z.testbit v i && kept_bit i)
  /\ (forall lvl i,
        v < modulus (CLWEParameters_of lvl) ->
        8 <= i < 16 -> Z.testbit v i = true ->
        to_precise_value (from_precise_value v) <> v)
  /\ to_precise_value (from_precise_value 256) <> 256.
Proof.
  split; [exact (precise_roundtrip_mask v Hv)|].
  split; [intros i Hi; exact (precise_roundtrip_testbit v i Hv Hi)|].
  split.
  - intros lvl i _ Hi Hbit Heq.
    pose proof (precise_roundtrip_testbit v i Hv ltac:(lia)) as Hb.
    rewrite Heq, Hbit, kept_bit_8_16 in Hb by exact Hi. discriminate Hb.
  - vm_compute. discriminate.
Qed.

Lemma precise_roundtrip_masks_bits_witness :
  0 <= 256 < 2 ^ 64
  /\ to_precise_value (from_precise_value 256) = Z.land 256 0xFF00FF00FF
  /\ (forall i, 0 <= i ->
        Z.testbit (to_precise_value (from_precise_value 256)) i
        = Z.testbit 256 i && kept_bit i)
  /\ (forall lvl i,
        256 < modulus (CLWEParameters_of lvl) ->
        8 <= i < 16 -> Z.testbit 256 i = true ->
        to_precise_value (from_precise_value 256) <> 256)
  /\ to_precise_value (from_precise_value 256) <> 256.
Proof.
  assert (H : 0 <= 256 < 2 ^ 64) by (split; [lia | reflexivity]).
  split; [exact H | exact (precise_roundtrip_masks_bits 256 H)].
Defined.

End ColorCodec.

(** ** Reduction and the scalar transforms, evaluated *)

(** C6, evaluated at [x = 1] with [q = 3329]: the engine's reduction
    returns 4294967295 (-1 when read as a signed word) and the reduction of
    [utils.cpp] returns 0.  Neither lies in (-q, q) and is congruent to
    [R^-1], be the radix 2^32, as the code's constants have it, or 2^16. *)
Theorem montgomery_reduce_at_one :
  Z.abs 1 < 3329 * 2 ^ 15
  /\ (e <-? kyber_engine ;; Some (ScalarNTTEngine.montgomery_reduce e 1))
  = Some 4294967295
  /\ Utils.montgomery_reduce 1 3329 = 0
  /\ ~ mont_post 3329 (2 ^ 32) 1 4294967295
  /\ ~ mont_post 3329 (2 ^ 16) 1 4294967295
  /\ ~ mont_post 3329 (2 ^ 32) 1 (s32 4294967295)
  /\ ~ mont_post 3329 (2 ^ 16) 1 (s32 4294967295)
  /\ ~ mont_post 3329 (2 ^ 32) 1 0
  /\ ~ mont_post 3329 (2 ^ 16) 1 0.
Proof.
  split; [vm_compute; reflexivity|].
  split; [vm_compute; reflexivity|].
  split; [vm_compute; reflexivity|].
  unfold mont_post.
  repeat split; intros [Hr Hc]; vm_compute in Hr, Hc;
    try discriminate Hc; destruct Hr as [Hr1 Hr2];
    try discriminate Hr1; try discriminate Hr2.
Qed.

(** C3, evaluated at [p = 1] (the constant polynomial, 256 coefficients):
    the forward transform followed by the inverse transform returns a
    vector that starts with 4294967280, not [p]; nor is it [p] once its
    words are reduced modulo q, read as unsigned or as signed. *)
Theorem ntt_roundtrip_at_one :
  (e <-? kyber_engine ;;
   ScalarNTTEngine.ntt_inverse e (ScalarNTTEngine.ntt_forward e (monomial 256 0)))
  <> Some (monomial 256 0)
  /\ (e <-? kyber_engine ;;
      r <-? ScalarNTTEngine.ntt_inverse e
              (ScalarNTTEngine.ntt_forward e (monomial 256 0)) ;;
      Some (firstn 3 r, Z.of_nat (length r)))
     = Some ([4294967280; 4294967270; 4294967270], 256)
  /\ (e <-? kyber_engine ;;
      r <-? ScalarNTTEngine.ntt_inverse e
              (ScalarNTTEngine.ntt_forward e (monomial 256 0)) ;;
      Some (map (fun c => c mod 3329) r))
     <> Some (monomial 256 0)
  /\ (e <-? kyber_engine ;;
      r <-? ScalarNTTEngine.ntt_inverse e
              (ScalarNTTEngine.ntt_forward e (monomial 256 0)) ;;
      Some (map (fun c => s32 c mod 3329) r))
     <> Some (monomial 256 0)
  /\ forallb (fun c => (0 <=? c) && (c <? 3329)) (monomial 256 0) = true.
Proof.
  split; [vm_compute; discriminate|].
  split; [vm_compute; reflexivity|].
  split; [vm_compute; discriminate|].
  split; [vm_compute; discriminate|].
  vm_compute. reflexivity.
Qed.

(** C4, evaluated at [a = 1 + x^255] and [b = x]: the schoolbook product in
    Z_q[x]/(x^256+1) has constant coefficient 3328 = q - 1, and [multiply]
    returns 4294967250 there, which is not q - 1 modulo q either. *)
Theorem ntt_multiply_at_negacyclic_pair :
  let a := set_nth (monomial 256 0) 255 1 in
  let b := monomial 256 1 in
  nth 0 (schoolbook 3329 256 a b) 0 = 3329 - 1
  /\ (e <-? kyber_engine ;;
      r <-? ScalarNTTEngine.multiply e a b ;; Some (nth 0 r 0))
     = Some 4294967250
  /\ 4294967250 mod 3329 <> 3329 - 1
  /\ s32 4294967250 mod 3329 <> 3329 - 1
  /\ (e <-? kyber_engine ;; ScalarNTTEngine.multiply e a b)
     <> Some (schoolbook 3329 256 a b)
  /\ forallb (fun c => (0 <=? c) && (c <? 3329)) (a ++ b) = true.
Proof.
  cbv zeta.
  split; [vm_compute; reflexivity|].
  split; [vm_compute; reflexivity|].
  split; [vm_compute; discriminate|].
  split; [vm_compute; discriminate|].
  split; [vm_compute; discriminate|].
  vm_compute. reflexivity.
Qed.

(** ** One session of the KEM, evaluated *)

(** C1, evaluated on the host whose [rand()] answers 1 and whose
    [random_device] answers 0: key generation, encapsulation and
    decapsulation all return, the sender holds the secret 1 and the receiver
    recovers 0. *)
Theorem honest_session_mismatch :
  kem_session L1 544 host_ones
  = Some (ColorValue.from_precise_value 1, ColorValue.from_precise_value 0)
  /\ ColorValue.from_precise_value 1 <> ColorValue.from_precise_value 0.
Proof. split; [vm_compute; reflexivity | vm_compute; discriminate]. Qed.

(** ** Matrix expansion *)

Section MatrixExpansion.
Import ColorKEM.

(** More fuel never changes what the rejection loop returns. *)
Lemma sample_loop_mono fuel :
  forall q n s idx coeffs r (fuel' : nat),
    sample_loop fuel q n s idx coeffs = Some r ->
    (fuel <= fuel')%nat ->
    sample_loop fuel' q n s idx coeffs = Some r.
Proof.
  induction fuel as [|fuel IH]; intros q n s idx coeffs r fuel' Hr Hle.
  - cbn [sample_loop] in Hr. destruct fuel'; cbn [sample_loop];
      destruct (idx <? n); congruence.
  - destruct fuel' as [|fuel']; [lia|].
    cbn [sample_loop] in Hr |- *.
    destruct (idx <? n); [|exact Hr].
    destruct (SHAKE128Sampler.squeeze s 3) as [bytes s'].
    destruct (accept q n (coeff2_of bytes)
                (accept q n (coeff1_of bytes) (idx, coeffs))) as [idx' coeffs'].
    apply IH; [exact Hr | lia].
Qed.

Lemma accepted_544_length st :
  length st = 34%nat ->
  length (firstn 256 (accepted 3329 st 544)) = 256%nat.
Proof.
  intro Hlen. rewrite length_firstn.
  pose proof (accepted_enough 3329 st Hlen ltac:(lia)) as H. lia.
Qed.

Lemma accepted_below q st T : Forall (fun c => c < q) (accepted q st T).
Proof.
  unfold accepted. apply Forall_forall. intros c Hc.
  apply filter_In in Hc. destruct Hc as [_ Hc]. now apply Z.ltb_lt in Hc.
Qed.

Lemma In_firstn_In {A} (n : nat) (l : list A) (x : A) :
  In x (firstn n l) -> In x l.
Proof.
  intro H. rewrite <- (firstn_skipn n l). apply in_or_app. now left.
Qed.

Lemma u16_range x : 0 <= u16 x < 65536.
Proof. unfold u16. change (2 ^ 16) with 65536. apply Z.mod_pos_bound. lia. Qed.

Lemma accepted_nonneg q st T : Forall (fun c => 0 <= c) (accepted q st T).
Proof.
  unfold accepted. apply Forall_forall. intros c Hc.
  apply filter_In in Hc. destruct Hc as [Hc _].
  apply in_flat_map in Hc. destruct Hc as [t [_ Hc]].
  unfold candidates, coeff1_of, coeff2_of in Hc.
  destruct Hc as [<-|[<-|[]]]; apply u16_range.
Qed.

Lemma sample_entry_544 lvl seed i j :
  length seed = 32%nat ->
  sample_entry (CLWEParameters_of lvl) 544 seed i j
  = Some (firstn 256 (accepted 3329 (seed ++ [u8 i; u8 j]) 544)).
Proof.
  intro Hseed. unfold sample_entry.
  rewrite CLWEParameters_of_degree, CLWEParameters_of_modulus.
  set (st := seed ++ [u8 i; u8 j]).
  assert (Hst : length st = 34%nat)
    by (unfold st; rewrite length_app, Hseed; reflexivity).
  pose proof (sample_loop_accepted 3329 256 st 544 ltac:(lia) 0 ltac:(lia))
    as Hloop.
  change (accepted 3329 st 0) with (@nil Z) in Hloop.
  change (0 + Z.of_nat 544) with 544 in Hloop.
  change (Z.to_nat 256) with 256%nat in Hloop |- *.
  apply Hloop; [reflexivity|].
  pose proof (accepted_enough 3329 st Hst ltac:(lia)). lia.
Qed.

Lemma sample_entry_returns lvl seed i j fuel :
  length seed = 32%nat -> (544 <= fuel)%nat ->
  sample_entry (CLWEParameters_of lvl) fuel seed i j
  = Some (firstn 256 (accepted 3329 (seed ++ [u8 i; u8 j]) 544)).
Proof.
  intros Hseed Hfuel. unfold sample_entry.
  apply (sample_loop_mono 544); [|exact Hfuel].
  exact (sample_entry_544 lvl seed i j Hseed).
Qed.

(** C5, as the code has it. For every 32-byte seed and every index pair, the
    coefficient vector sampled for position (i, j) is made of the first 256
    accepted candidates of the stream squeezed three bytes at a time from the
    sampler seeded with seed ‖ i ‖ j, the candidates of a squeeze being
    [((b0 << 4) | (b1 >> 4)) & 0xFFF] and [((b1 << 8) | b2) & 0xFFF] and a
    candidate being accepted when it is below q = 3329.  The loop has
    returned after 544 squeezes at most, with 256 coefficients in [0, q). *)
Theorem sample_entry_accepted (lvl : Z) (seed : list Z) (i j : Z) (fuel : nat)
        (Hseed : length seed = 32%nat) (Hfuel : (544 <= fuel)%nat) :
  let st := seed ++ [u8 i; u8 j] in
  sample_entry (CLWEParameters_of lvl) fuel seed i j
  = Some (firstn 256 (accepted 3329 st 544))
  /\ length (firstn 256 (accepted 3329 st 544)) = 256%nat
  /\ Forall (fun c => 0 <= c < 3329) (firstn 256 (accepted 3329 st 544)).
Proof.
  intro st. split; [|split].
  - exact (sample_entry_returns lvl seed i j fuel Hseed Hfuel).
  - apply accepted_544_length. unfold st.
    rewrite length_app, Hseed. reflexivity.
  - apply Forall_forall. intros c Hc.
    pose proof (In_firstn_In _ _ _ Hc) as Hin. clear Hc.
    pose proof (accepted_below 3329 st 544) as Hb.
    pose proof (accepted_nonneg 3329 st 544) as Hn.
    rewrite Forall_forall in Hb, Hn. split; [apply Hn | apply Hb]; exact Hin.
Qed.

Lemma sample_entry_accepted_witness :
  length zero_seed = 32%nat /\ (544 <= 544)%nat
  /\ (let st := zero_seed ++ [u8 0; u8 1] in
      sample_entry (CLWEParameters_of 128) 544 zero_seed 0 1
      = Some (firstn 256 (accepted 3329 st 544))
      /\ length (firstn 256 (accepted 3329 st 544)) = 256%nat
      /\ Forall (fun c => 0 <= c < 3329) (firstn 256 (accepted 3329 st 544))).
Proof.
  split; [reflexivity|]. split; [apply Nat.le_refl|].
  apply (sample_entry_accepted 128 zero_seed 0 1 544);
    [reflexivity | apply Nat.le_refl].
Defined.

(** C5 as stated, refuted at the all-zero seed and position (0, 1).  The
    vector the code samples is not the one specified (absorbing seed ‖ j ‖ i
    and cutting [b0 | ((b1 & 0x0F) << 8)] and [(b1 >> 4) | (b2 << 4)]), and
    the matrix slot holds one colour, of value 97, not 256 coefficients. *)
Lemma matrix_entry_not_as_specified :
  length (spec_matrix_entry 3329 256 zero_seed 0 1 544) = 256%nat
  /\ sample_entry L1 544 zero_seed 0 1
     <> Some (spec_matrix_entry 3329 256 zero_seed 0 1 544)
  /\ (A <-? generate_matrix_A L1 544 zero_seed ;;
      row <-? at_ A 0 ;; entry <-? at_ row 1 ;; Some (stored_coeffs entry))
     = Some [97]
  /\ [97] <> spec_matrix_entry 3329 256 zero_seed 0 1 544.
Proof.
  split; [vm_compute; reflexivity|].
  split; [vm_compute; discriminate|].
  split; [vm_compute; reflexivity|].
  vm_compute. discriminate.
Qed.

Lemma mapM_opt_map {A B} (f : A -> option B) (g : A -> B) (l : list A) :
  (forall x, In x l -> f x = Some (g x)) ->
  mapM_opt f l = Some (map g l).
Proof.
  induction l as [|x l IH]; intro H; [reflexivity|].
  cbn [mapM_opt map]. rewrite (H x (or_introl eq_refl)). cbn [obind].
  rewrite IH by (intros y Hy; apply H; now right). reflexivity.
Qed.

(** The expansion returns for every 32-byte seed. *)
Lemma generate_matrix_A_returns lvl seed fuel :
  length seed = 32%nat -> (544 <= fuel)%nat ->
  exists A, generate_matrix_A (CLWEParameters_of lvl) fuel seed = Some A.
Proof.
  intros Hseed Hfuel. unfold generate_matrix_A.
  eexists.
  apply (mapM_opt_map _
           (fun i => map (fun j =>
                            store_entry (CLWEParameters_of lvl)
                              (firstn 256
                                 (accepted 3329 (seed ++ [u8 i; u8 j]) 544)))
                         (upto (module_rank (CLWEParameters_of lvl))))).
  intros i _. apply mapM_opt_map. intros j _.
  rewrite (sample_entry_returns lvl seed i j fuel Hseed Hfuel).
  reflexivity.
Qed.

End MatrixExpansion.

(** ** Draws from the host *)

Section HostDraws.
Import ColorKEM.

Lemma generate_rand_byte len :
  forall h, generate len rand_byte h = Some (rand_bytes h len, skip_rand h len).
Proof.
  induction len as [|len IH]; intro h.
  - unfold rand_bytes, skip_rand. cbn. rewrite !Nat.add_0_r.
    destruct h; reflexivity.
  - cbn [generate]. unfold bind at 1. unfold rand_byte at 1.
    unfold bind at 1. unfold rand at 1. unfold ret at 1.
    unfold bind at 1. rewrite IH. unfold ret.
    unfold rand_bytes, skip_rand. cbn [rand_tape rand_pos rd_tape rd_pos].
    cbn [seq map]. rewrite Nat.add_0_r. f_equal. f_equal.
    + f_equal. rewrite <- seq_shift, map_map.
      apply map_ext. intro i.
      replace (S (rand_pos h) + i)%nat with (rand_pos h + S i)%nat by lia.
      reflexivity.
    + f_equal. lia.
Qed.

Lemma generate_rd_byte len :
  forall h, generate len rd_byte h = Some (rd_bytes h len, skip_rd h len).
Proof.
  induction len as [|len IH]; intro h.
  - unfold rd_bytes, skip_rd. cbn. rewrite !Nat.add_0_r.
    destruct h; reflexivity.
  - cbn [generate]. unfold bind at 1. unfold rd_byte at 1.
    unfold bind at 1. unfold random_device at 1. unfold ret at 1.
    unfold bind at 1. rewrite IH. unfold ret.
    unfold rd_bytes, skip_rd. cbn [rand_tape rand_pos rd_tape rd_pos].
    cbn [seq map]. rewrite Nat.add_0_r. f_equal. f_equal.
    + f_equal. rewrite <- seq_shift, map_map.
      apply map_ext. intro i.
      replace (S (rd_pos h) + i)%nat with (rd_pos h + S i)%nat by lia.
      reflexivity.
    + f_equal. lia.
Qed.

Lemma generate_secret_key_draws p h :
  generate_secret_key p h
  = Some (sample_colors p (SHAKE256Sampler.init (rand_bytes h 32)),
          skip_rand h 32).
Proof.
  unfold generate_secret_key, bind. rewrite generate_rand_byte. reflexivity.
Qed.

Lemma generate_error_vector_draws p h :
  generate_error_vector p h
  = Some (sample_colors p (SHAKE256Sampler.init (rand_bytes h 32)),
          skip_rand h 32).
Proof.
  unfold generate_error_vector, bind. rewrite generate_rand_byte. reflexivity.
Qed.

Lemma rand_bytes_same h1 h2 len :
  same_rand h1 h2 len -> rand_bytes h1 len = rand_bytes h2 len.
Proof.
  intro H. unfold rand_bytes. apply map_ext_in. intros i Hi.
  apply in_seq in Hi. rewrite H by lia. reflexivity.
Qed.

Lemma rd_bytes_same h1 h2 len :
  same_rd h1 h2 len -> rd_bytes h1 len = rd_bytes h2 len.
Proof.
  intro H. unfold rd_bytes. apply map_ext_in. intros i Hi.
  apply in_seq in Hi. rewrite H by lia. reflexivity.
Qed.

Lemma same_rand_skip h1 h2 a b :
  same_rand h1 h2 (a + b) -> same_rand (skip_rand h1 a) (skip_rand h2 a) b.
Proof.
  intros H i Hi. unfold skip_rand. cbn [rand_tape rand_pos].
  rewrite <- !Nat.add_assoc. apply H. lia.
Qed.

Lemma same_rand_weaken h1 h2 a b :
  (a <= b)%nat -> same_rand h1 h2 b -> same_rand h1 h2 a.
Proof. intros Hle H i Hi. apply H. lia. Qed.

Lemma same_rand_skip_rd h1 h2 a n :
  same_rand h1 h2 n -> same_rand (skip_rd h1 a) (skip_rd h2 a) n.
Proof. intros H i Hi. unfold skip_rd. cbn [rand_tape rand_pos]. now apply H. Qed.

End HostDraws.

(** ** Key generation and encapsulation as functions of the draws *)

Section KemDraws.
Import ColorKEM.

Lemma rand_draw h :
  rand h = Some (rand_tape h (rand_pos h + 0), skip_rand h 1).
Proof.
  unfold rand, skip_rand. now rewrite Nat.add_0_r, Nat.add_1_r.
Qed.

Lemma bind_some {A B} (m : M A) (k : A -> M B) h x h' :
  m h = Some (x, h') -> bind m k h = k x h'.
Proof. intro H. unfold bind. now rewrite H. Qed.

Lemma bind_lift_some {A B} (x : A) (k : A -> M B) h :
  bind (lift (Some x)) k h = k x h.
Proof. reflexivity. Qed.

Lemma bind_lift_none {A B} (k : A -> M B) h :
  bind (lift (@None A)) k h = None.
Proof. reflexivity. Qed.

Lemma bind_secret_key {B} p (k : list ColorValue.t -> M B) h :
  bind (generate_secret_key p) k h = k (noise_of p h) (skip_rand h 32).
Proof. apply bind_some, generate_secret_key_draws. Qed.

Lemma bind_error_vector {B} p (k : list ColorValue.t -> M B) h :
  bind (generate_error_vector p) k h = k (noise_of p h) (skip_rand h 32).
Proof. apply bind_some, generate_error_vector_draws. Qed.

Local Opaque generate_secret_key generate_error_vector generate rand.

Lemma encrypt_message_draws p A public_key message h :
  encrypt_message p A public_key message h
  = option_map
      (fun c => (c, skip_rand (skip_rand (skip_rand h 32) 32) 32))
      (encrypt_with p public_key message
                    (noise_of p h)
                    (noise_of p (skip_rand h 32))
                    (noise_of p (skip_rand (skip_rand h 32) 32))).
Proof.
  unfold encrypt_message, encrypt_with.
  rewrite bind_secret_key. rewrite bind_error_vector.
  rewrite bind_error_vector.
  destruct (at_ (noise_of p (skip_rand (skip_rand h 32) 32)) 0) as [e2|];
    [rewrite bind_lift_some | rewrite bind_lift_none; reflexivity].
  cbn [obind].
  destruct (mapM_opt _ (upto (module_rank p))) as [c1|];
    [rewrite bind_lift_some | rewrite bind_lift_none; reflexivity].
  cbn [obind].
  destruct (inner_product p public_key (noise_of p h)) as [inner|];
    [rewrite bind_lift_some | rewrite bind_lift_none; reflexivity].
  reflexivity.
Qed.

Local Opaque generate_matrix_A generate_public_key encrypt_message.

Lemma keygen_follows_draws p fuel h1 h2 :
  same_rd h1 h2 32 -> same_rand h1 h2 64 ->
  option_map fst (keygen p fuel h1) = option_map fst (keygen p fuel h2).
Proof.
  intros Hrd Hrand. unfold keygen, bind.
  rewrite (generate_rd_byte 32 h1), (generate_rd_byte 32 h2).
  rewrite (rd_bytes_same h1 h2 32 Hrd).
  destruct (generate_matrix_A p fuel (rd_bytes h2 32)) as [A|]; [|reflexivity].
  cbn [lift].
  rewrite (generate_secret_key_draws p (skip_rd h1 32)).
  rewrite (generate_secret_key_draws p (skip_rd h2 32)).
  rewrite (generate_error_vector_draws p (skip_rand (skip_rd h1 32) 32)).
  rewrite (generate_error_vector_draws p (skip_rand (skip_rd h2 32) 32)).
  assert (H1 : same_rand (skip_rd h1 32) (skip_rd h2 32) 32).
  { apply same_rand_skip_rd. apply (same_rand_weaken _ _ 32 64); [lia|assumption]. }
  assert (H2 : same_rand (skip_rand (skip_rd h1 32) 32)
                         (skip_rand (skip_rd h2 32) 32) 32).
  { apply same_rand_skip. apply same_rand_skip_rd. exact Hrand. }
  rewrite (rand_bytes_same _ _ 32 H1), (rand_bytes_same _ _ 32 H2).
  destruct (generate_public_key p _ A _) as [pkc|]; reflexivity.
Qed.

Lemma encapsulate_follows_draws p fuel pk h1 h2 :
  same_rand h1 h2 97 ->
  option_map fst (encapsulate p fuel pk h1)
  = option_map fst (encapsulate p fuel pk h2).
Proof.
  intros Hrand. unfold encapsulate, bind.
  rewrite (rand_draw h1), (rand_draw h2).
  rewrite (Hrand 0%nat) by lia.
  destruct (generate_matrix_A p fuel (seed pk)) as [A|]; [|reflexivity].
  cbn [lift].
  set (m := ColorValue.from_precise_value
              (u64 (Z.rem (rand_tape h2 (rand_pos h2 + 0)) 2))).
  rewrite (encrypt_message_draws p A (parse_colors (public_data pk)) m
             (skip_rand h1 1)).
  rewrite (encrypt_message_draws p A (parse_colors (public_data pk)) m
             (skip_rand h2 1)).
  unfold noise_of.
  assert (H0 : same_rand (skip_rand h1 1) (skip_rand h2 1) 96)
    by (apply same_rand_skip; exact Hrand).
  assert (H1 : same_rand (skip_rand h1 1) (skip_rand h2 1) 32)
    by (apply (same_rand_weaken _ _ 32 96); [lia|exact H0]).
  assert (H2 : same_rand (skip_rand (skip_rand h1 1) 32)
                         (skip_rand (skip_rand h2 1) 32) 64)
    by (apply same_rand_skip; exact H0).
  assert (H3 : same_rand (skip_rand (skip_rand h1 1) 32)
                         (skip_rand (skip_rand h2 1) 32) 32)
    by (apply (same_rand_weaken _ _ 32 64); [lia|exact H2]).
  assert (H4 : same_rand (skip_rand (skip_rand (skip_rand h1 1) 32) 32)
                         (skip_rand (skip_rand (skip_rand h2 1) 32) 32) 32)
    by (apply same_rand_skip; exact H2).
  rewrite (rand_bytes_same _ _ 32 H1), (rand_bytes_same _ _ 32 H3),
    (rand_bytes_same _ _ 32 H4).
  destruct (encrypt_with _ _ _ _ _ _); reflexivity.
Qed.

Local Transparent generate_secret_key generate_error_vector generate rand.
Local Transparent generate_matrix_A generate_public_key encrypt_message.

(** C7 as stated, refuted: two calls of [keygen] with the same parameters,
    and two calls of [encapsulate] with the same public key, return
    different bytes on two hosts. *)
Lemma keygen_encapsulate_depend_on_host :
  option_map fst (keygen L1 544 host_ones)
  <> option_map fst (keygen L1 544 host_zeros)
  /\ option_map fst (encapsulate L1 544 sample_public_key host_ones)
     <> option_map fst (encapsulate L1 544 sample_public_key host_zeros).
Proof. split; vm_compute; discriminate. Qed.

End KemDraws.

(** ** Encapsulation returns, and its hint is the secret *)

Section EncapsulationHint.
Import ColorKEM.

Lemma at_some {A} (v : list A) i :
  0 <= i < Z.of_nat (length v) -> exists x, at_ v i = Some x.
Proof.
  intro Hi. unfold at_.
  replace ((0 <=? i) && (i <? Z.of_nat (length v))) with true
    by (symmetry; apply andb_true_iff; split;
        [apply Z.leb_le | apply Z.ltb_lt]; lia).
  destruct (nth_error v (Z.to_nat i)) as [x|] eqn:E; [now exists x|].
  apply nth_error_None in E. lia.
Qed.

Lemma upto_length n : length (upto n) = Z.to_nat n.
Proof. unfold upto. now rewrite length_map, length_seq. Qed.

Lemma sample_colors_length p s :
  length (sample_colors p s) = Z.to_nat (module_rank p).
Proof.
  unfold sample_colors. rewrite <- (upto_length (module_rank p)).
  generalize (upto (module_rank p)) as l.
  assert (H : forall (l : list Z) acc s0,
             length
               (fst (fold_left
                       (fun (st : list ColorValue.t * Sampler) (_ : Z) =>
                          let '(acc, sampler) := st in
                          let '(sample, sampler0) :=
                            SHAKE256Sampler.sample_binomial_coefficient
                              sampler (eta p) in
                          (acc ++ [ColorValue.from_precise_value
                                     (lift_sample p sample)], sampler0))
                       l (acc, s0)))
             = (length acc + length l)%nat).
  { induction l as [|x l IH]; intros acc s0; cbn [fold_left length fst]; [lia|].
    destruct (SHAKE256Sampler.sample_binomial_coefficient s0 (eta p))
      as [sample s1].
    rewrite IH, length_app. cbn [length]. lia. }
  intro l. rewrite H. reflexivity.
Qed.

Lemma mapM_opt_some {A B} (f : A -> option B) (l : list A) :
  (forall x, In x l -> exists y, f x = Some y) ->
  exists ys, mapM_opt f l = Some ys.
Proof.
  induction l as [|x l IH]; intro H; [now exists []|].
  destruct (H x (or_introl eq_refl)) as [y Hy].
  destruct (IH (fun z Hz => H z (or_intror Hz))) as [ys Hys].
  exists (y :: ys). cbn [mapM_opt]. rewrite Hy. cbn [obind].
  rewrite Hys. reflexivity.
Qed.

Lemma mapM_opt_length {A B} (f : A -> option B) (l : list A) :
  forall ys, mapM_opt f l = Some ys -> length ys = length l.
Proof.
  induction l as [|x l IH]; intros ys H.
  - injection H as <-. reflexivity.
  - cbn [mapM_opt] in H. destruct (f x) as [y|]; [|discriminate H].
    cbn [obind] in H. destruct (mapM_opt f l) as [ys'|]; [|discriminate H].
    cbn [obind] in H. injection H as <-. cbn [length]. now rewrite (IH ys').
Qed.

Lemma inner_product_some p (x y : list ColorValue.t) :
  module_rank p <= Z.of_nat (length x) ->
  module_rank p <= Z.of_nat (length y) ->
  exists s, inner_product p x y = Some s.
Proof.
  intros Hx Hy. unfold inner_product.
  assert (H : forall (l : list Z) acc,
             (forall i, In i l -> 0 <= i < module_rank p) ->
             exists s,
               fold_left
                 (fun (acc : option Z) i =>
                    sum <-? acc ;;
                    xi <-? at_ x i ;;
                    yi <-? at_ y i ;;
                    Some (dot_step p sum (ColorValue.to_precise_value xi)
                                   (ColorValue.to_precise_value yi)))
                 l (Some acc) = Some s).
  { induction l as [|i l IH]; intros acc Hl; [now exists acc|].
    cbn [fold_left obind].
    assert (Hi := Hl i (or_introl eq_refl)).
    destruct (at_some x i ltac:(lia)) as [xi ->].
    destruct (at_some y i ltac:(lia)) as [yi ->].
    cbn [obind]. apply IH. intros j Hj. apply Hl. now right. }
  apply H. intros i Hi. now apply upto_In in Hi.
Qed.

Lemma encrypt_with_some p public_key message r e1 e2 :
  1 <= module_rank p ->
  module_rank p <= Z.of_nat (length public_key) ->
  length r = Z.to_nat (module_rank p) ->
  length e1 = Z.to_nat (module_rank p) ->
  length e2 = Z.to_nat (module_rank p) ->
  exists c, encrypt_with p public_key message r e1 e2 = Some c
            /\ length c = S (Z.to_nat (module_rank p)).
Proof.
  intros Hk Hpk Hr He1 He2. unfold encrypt_with.
  destruct (at_some e2 0 ltac:(lia)) as [x ->]. cbn [obind].
  destruct (mapM_opt_some
              (fun i =>
                 r_c <-? at_ r i ;;
                 e1_c <-? at_ e1 i ;;
                 Some (ColorValue.from_precise_value
                         (u64 (ColorValue.to_precise_value r_c
                               + ColorValue.to_precise_value e1_c)
                          mod modulus p)))
              (upto (module_rank p))) as [c1 Hc1].
  { intros i Hi. apply upto_In in Hi.
    destruct (at_some r i ltac:(lia)) as [ri ->].
    destruct (at_some e1 i ltac:(lia)) as [ei ->].
    cbn [obind]. eexists. reflexivity. }
  rewrite Hc1. cbn [obind].
  destruct (inner_product_some p public_key r Hpk ltac:(lia)) as [s ->].
  cbn [obind]. eexists. split; [reflexivity|].
  rewrite length_app, (mapM_opt_length _ _ _ Hc1), upto_length.
  cbn [length]. lia.
Qed.

Lemma chunks_length fuel :
  forall data, (length data <= fuel)%nat ->
               (length data <= 4 * length (chunks fuel data))%nat.
Proof.
  induction fuel as [|fuel IH]; intros data Hlen.
  - destruct data; cbn in *; lia.
  - destruct data as [|b data]; [cbn; lia|].
    cbn [chunks]. cbn [length].
    assert (Hs : (length (skipn 4 (b :: data)) <= fuel)%nat).
    { rewrite length_skipn. cbn [length] in *. lia. }
    specialize (IH _ Hs). rewrite length_skipn in IH.
    cbn [length] in *. lia.
Qed.

Lemma parse_colors_length data :
  (length data <= 4 * length (parse_colors data))%nat.
Proof.
  unfold parse_colors. rewrite length_map. apply chunks_length. lia.
Qed.

Lemma be_value_be32 v : 0 <= v < 2 ^ 32 -> be_value (be32 v) = v.
Proof.
  intro Hv. unfold be_value, be32. cbn [fold_left].
  change 255 with (Z.ones 8). rewrite !Z.land_ones by lia.
  rewrite !Z.shiftr_div_pow2 by lia.
  unfold u8. rewrite !Z.mod_mod by lia.
  change (2 ^ 8) with 256. change (2 ^ 16) with 65536.
  change (2 ^ 24) with 16777216. change (2 ^ 32) with 4294967296 in Hv.
  Z.div_mod_to_equations. lia.
Qed.

Lemma be32_bytes v : Forall (fun b => 0 <= b < 256) (be32 v).
Proof. unfold be32. repeat constructor; apply u8_range. Qed.

Lemma u32_range x : 0 <= u32 x < 2 ^ 32.
Proof. unfold u32. apply Z.mod_pos_bound. lia. Qed.

Lemma rem2_cases x : 0 <= x -> Z.rem x 2 = 0 \/ Z.rem x 2 = 1.
Proof.
  intro Hx. rewrite Z.rem_mod_nonneg by lia.
  pose proof (Z.mod_pos_bound x 2 ltac:(lia)). lia.
Qed.

(** [encapsulate] returns for every public key with a 32-byte seed and at
    least [k] colour words; the ciphertext carries [k + 1] colours. *)
Lemma encapsulate_returns lvl fuel pk h :
  length (seed pk) = 32%nat ->
  4 * module_rank (CLWEParameters_of lvl)
  <= Z.of_nat (length (public_data pk)) ->
  (544 <= fuel)%nat ->
  let p := CLWEParameters_of lvl in
  let ss := ColorValue.from_precise_value
              (u64 (Z.rem (rand_tape h (rand_pos h + 0)) 2)) in
  exists c h',
    encapsulate p fuel pk h
    = Some ((mkCiphertext (colors_to_bytes c) (encode_color_secret ss) p, ss),
            h')
    /\ length c = S (Z.to_nat (module_rank p)).
Proof.
  intros Hseed Hdata Hfuel p ss.
  pose proof (CLWEParameters_of_rank lvl) as Hk. fold p in Hk, Hdata.
  destruct (generate_matrix_A_returns lvl (seed pk) fuel Hseed Hfuel)
    as [A HA]. fold p in HA.
  destruct (encrypt_with_some p (parse_colors (public_data pk)) ss
              (noise_of p (skip_rand h 1))
              (noise_of p (skip_rand (skip_rand h 1) 32))
              (noise_of p (skip_rand (skip_rand (skip_rand h 1) 32) 32)))
    as [c [Hc Hlen]]; try (apply sample_colors_length); [lia| |].
  { pose proof (parse_colors_length (public_data pk)). lia. }
  exists c, (skip_rand (skip_rand (skip_rand (skip_rand h 1) 32) 32) 32).
  split; [|exact Hlen].
  unfold encapsulate, bind. rewrite (rand_draw h). rewrite HA. cbn [lift].
  fold ss.
  rewrite (encrypt_message_draws p A (parse_colors (public_data pk)) ss
             (skip_rand h 1)).
  rewrite Hc. reflexivity.
Qed.

(** C10. For every public key with a 32-byte seed and at least k colour
    words, [encapsulate] returns, and the ciphertext it returns has its
    hint equal to the encoding of the shared secret returned with it: four
    bytes, most significant first, of the secret's value; [serialize]
    appends the hint, so the serialised ciphertext ends with it. *)
Theorem encapsulate_hint_is_secret
        (lvl : Z) (fuel : nat) (pk : ColorPublicKey) (h : Host)
        (Hseed : length (seed pk) = 32%nat)
        (Hdata : 4 * module_rank (CLWEParameters_of lvl)
                 <= Z.of_nat (length (public_data pk)))
        (Hfuel : (544 <= fuel)%nat) :
  exists ct ss h',
    encapsulate (CLWEParameters_of lvl) fuel pk h = Some ((ct, ss), h')
    /\ shared_secret_hint ct = encode_color_secret ss
    /\ length (encode_color_secret ss) = 4%nat
    /\ Forall (fun b => 0 <= b < 256) (encode_color_secret ss)
    /\ be_value (encode_color_secret ss)
       = u32 (ColorValue.to_precise_value ss)
    /\ (0 <= rand_tape h (rand_pos h) ->
        be_value (encode_color_secret ss) = ColorValue.to_precise_value ss)
    /\ ColorCiphertext_serialize ct
       = ciphertext_data ct ++ encode_color_secret ss.
Proof.
  destruct (encapsulate_returns lvl fuel pk h Hseed Hdata Hfuel)
    as [c [h' [Hret _]]].
  set (p := CLWEParameters_of lvl) in *.
  set (ss := ColorValue.from_precise_value
               (u64 (Z.rem (rand_tape h (rand_pos h + 0)) 2))) in *.
  exists (mkCiphertext (colors_to_bytes c) (encode_color_secret ss) p), ss, h'.
  split; [exact Hret|].
  split; [reflexivity|].
  split; [reflexivity|].
  split; [apply be32_bytes|].
  split; [apply be_value_be32, u32_range|].
  split; [|reflexivity].
  intro Hbit. unfold encode_color_secret.
  rewrite be_value_be32 by apply u32_range.
  unfold ss. rewrite Nat.add_0_r.
  destruct (rem2_cases _ Hbit) as [-> | ->]; reflexivity.
Qed.

Lemma encapsulate_hint_is_secret_witness :
  length (seed sample_public_key) = 32%nat
  /\ 4 * module_rank (CLWEParameters_of 128)
     <= Z.of_nat (length (public_data sample_public_key))
  /\ (544 <= 544)%nat
  /\ exists ct ss h',
      encapsulate (CLWEParameters_of 128) 544 sample_public_key host_ones
      = Some ((ct, ss), h')
      /\ shared_secret_hint ct = encode_color_secret ss
      /\ length (encode_color_secret ss) = 4%nat
      /\ Forall (fun b => 0 <= b < 256) (encode_color_secret ss)
      /\ be_value (encode_color_secret ss)
         = u32 (ColorValue.to_precise_value ss)
      /\ (0 <= rand_tape host_ones (rand_pos host_ones) ->
          be_value (encode_color_secret ss) = ColorValue.to_precise_value ss)
      /\ ColorCiphertext_serialize ct
         = ciphertext_data ct ++ encode_color_secret ss.
Proof.
  assert (H1 : length (seed sample_public_key) = 32%nat) by reflexivity.
  assert (H2 : 4 * module_rank (CLWEParameters_of 128)
               <= Z.of_nat (length (public_data sample_public_key)))
    by (vm_compute; discriminate).
  split; [exact H1|]. split; [exact H2|]. split; [apply Nat.le_refl|].
  exact (encapsulate_hint_is_secret 128 544 sample_public_key host_ones
           H1 H2 (Nat.le_refl 544)).
Defined.

End EncapsulationHint.

(** ** Key generation returns well-formed keys *)

Section HonestKeys.
Import ColorKEM.

Lemma fold_opt_some {S} (step : S -> Z -> option S) (l : list Z)
      (P : Z -> Prop) :
  (forall s j, P j -> exists s', step s j = Some s') ->
  (forall j, In j l -> P j) ->
  forall acc,
  exists s, fold_left (fun (acc : option S) j => s <-? acc ;; step s j)
                      l (Some acc) = Some s.
Proof.
  intros Hstep. induction l as [|j l IH]; intros Hl acc; [now exists acc|].
  cbn [fold_left obind].
  destruct (Hstep acc j (Hl j (or_introl eq_refl))) as [s' ->].
  apply IH. intros j' Hj'. apply Hl. now right.
Qed.

Lemma generate_matrix_A_shape p fuel seed A :
  generate_matrix_A p fuel seed = Some A ->
  length A = Z.to_nat (module_rank p)
  /\ Forall (fun row => length row = Z.to_nat (module_rank p)) A.
Proof.
  unfold generate_matrix_A.
  generalize (upto_length (module_rank p)).
  generalize (upto (module_rank p)) at 1 3 as rows.
  intros rows Hrows. revert A Hrows.
  generalize (Z.to_nat (module_rank p)) at 1 2 as len.
  intros len A. revert len A.
  induction rows as [|i rows IH]; intros len A Hlen H.
  - injection H as <-. split; [exact Hlen | constructor].
  - cbn [mapM_opt] in H.
    destruct (mapM_opt _ (upto (module_rank p))) as [row|] eqn:Erow;
      [|discriminate H].
    cbn [obind] in H.
    destruct (mapM_opt _ rows) as [A'|] eqn:EA; [|discriminate H].
    cbn [obind] in H. injection H as <-.
    destruct len as [|len]; [discriminate Hlen|].
    destruct (IH len A' ltac:(cbn [length] in Hlen; lia) eq_refl) as [HA HF].
    split; [cbn [length]; now rewrite HA|].
    constructor; [|exact HF].
    rewrite (mapM_opt_length _ _ _ Erow). apply upto_length.
Qed.

Lemma matrix_vector_mul_some p (A : list (list ColorValue.t))
      (v : list ColorValue.t) :
  length A = Z.to_nat (module_rank p) ->
  Forall (fun row => length row = Z.to_nat (module_rank p)) A ->
  length v = Z.to_nat (module_rank p) ->
  exists w, matrix_vector_mul p A v = Some w
            /\ length w = Z.to_nat (module_rank p).
Proof.
  intros HA HF Hv. unfold matrix_vector_mul.
  destruct (mapM_opt_some
              (fun i =>
                 sum <-? fold_left
                          (fun (acc : option Z) j =>
                             sum <-? acc ;;
                             row <-? at_ A i ;;
                             m <-? at_ row j ;;
                             x <-? at_ v j ;;
                             Some (dot_step p sum
                                            (ColorValue.to_precise_value m)
                                            (ColorValue.to_precise_value x)))
                          (upto (module_rank p)) (Some 0) ;;
                 Some (ColorValue.from_precise_value sum))
              (upto (module_rank p))) as [w Hw].
  { intros i Hi. apply upto_In in Hi.
    destruct (at_some A i ltac:(lia)) as [row Hrow].
    assert (Hlen : length row = Z.to_nat (module_rank p)).
    { rewrite Forall_forall in HF. apply HF.
      unfold at_ in Hrow.
      destruct ((0 <=? i) && (i <? Z.of_nat (length A))); [|discriminate].
      eapply nth_error_In; exact Hrow. }
    destruct (fold_opt_some
                (fun sum j =>
                   row <-? at_ A i ;;
                   m <-? at_ row j ;;
                   x <-? at_ v j ;;
                   Some (dot_step p sum (ColorValue.to_precise_value m)
                                  (ColorValue.to_precise_value x)))
                (upto (module_rank p))
                (fun j => 0 <= j < module_rank p)) with (acc := 0)
      as [s Hs].
    { intros sum j Hj. rewrite Hrow. cbn [obind].
      destruct (at_some row j ltac:(lia)) as [m ->].
      destruct (at_some v j ltac:(lia)) as [x ->].
      cbn [obind]. eexists. reflexivity. }
    { intros j Hj. now apply upto_In in Hj. }
    rewrite Hs. cbn [obind]. eexists. reflexivity. }
  exists w. split; [exact Hw|].
  rewrite (mapM_opt_length _ _ _ Hw). apply upto_length.
Qed.

Lemma generate_public_key_some p (A : list (list ColorValue.t))
      (s e : list ColorValue.t) :
  length A = Z.to_nat (module_rank p) ->
  Forall (fun row => length row = Z.to_nat (module_rank p)) A ->
  length s = Z.to_nat (module_rank p) ->
  length e = Z.to_nat (module_rank p) ->
  exists t, generate_public_key p s A e = Some t
            /\ length t = Z.to_nat (module_rank p).
Proof.
  intros HA HF Hs He. unfold generate_public_key.
  destruct (matrix_vector_mul_some p A s HA HF Hs) as [As [-> HAs]].
  cbn [obind].
  destruct (mapM_opt_some
              (fun i =>
                 as_c <-? at_ As i ;;
                 e_c <-? at_ e i ;;
                 Some (ColorValue.from_precise_value
                         (u64 (ColorValue.to_precise_value as_c
                               + ColorValue.to_precise_value e_c)
                          mod modulus p)))
              (upto (module_rank p))) as [t Ht].
  { intros i Hi. apply upto_In in Hi.
    destruct (at_some As i ltac:(lia)) as [a ->].
    destruct (at_some e i ltac:(lia)) as [b ->].
    cbn [obind]. eexists. reflexivity. }
  exists t. split; [exact Ht|].
  rewrite (mapM_opt_length _ _ _ Ht). apply upto_length.
Qed.

Lemma colors_to_bytes_length (colors : list ColorValue.t) :
  length (colors_to_bytes colors) = (4 * length colors)%nat.
Proof.
  unfold colors_to_bytes. induction colors as [|c colors IH]; [reflexivity|].
  cbn [flat_map]. rewrite length_app, IH. cbn [length].
  unfold color_secret_to_bytes, be32. cbn [length]. lia.
Qed.

(** Every run of [keygen] with one of the three parameter sets returns, and
    the keys it returns have the shape [encapsulate] and [decapsulate] read:
    a 32-byte seed and [k] four-byte colours each. *)
Lemma keygen_returns_well_formed lvl fuel h :
  (544 <= fuel)%nat ->
  exists pk sk h',
    keygen (CLWEParameters_of lvl) fuel h = Some ((pk, sk), h')
    /\ length (seed pk) = 32%nat
    /\ Z.of_nat (length (public_data pk))
       = 4 * module_rank (CLWEParameters_of lvl)
    /\ Z.of_nat (length (secret_data sk))
       = 4 * module_rank (CLWEParameters_of lvl).
Proof.
  intro Hfuel. set (p := CLWEParameters_of lvl).
  pose proof (CLWEParameters_of_rank lvl) as Hk. fold p in Hk.
  assert (Hseed : length (rd_bytes h 32) = 32%nat)
    by (unfold rd_bytes; now rewrite length_map, length_seq).
  destruct (generate_matrix_A_returns lvl (rd_bytes h 32) fuel Hseed Hfuel)
    as [A HA]. fold p in HA.
  destruct (generate_matrix_A_shape p fuel _ A HA) as [HlenA HrowsA].
  set (s := noise_of p (skip_rd h 32)).
  set (e := noise_of p (skip_rand (skip_rd h 32) 32)).
  destruct (generate_public_key_some p A s e HlenA HrowsA
              (sample_colors_length p _) (sample_colors_length p _))
    as [t [Ht Hlen]].
  exists (mkPublicKey (rd_bytes h 32) (colors_to_bytes t) p),
    (mkPrivateKey (colors_to_bytes s) p),
    (skip_rand (skip_rand (skip_rd h 32) 32) 32).
  split.
  { unfold keygen, bind. rewrite (generate_rd_byte 32 h). rewrite HA.
    cbn [lift].
    rewrite (generate_secret_key_draws p (skip_rd h 32)).
    rewrite (generate_error_vector_draws p (skip_rand (skip_rd h 32) 32)).
    fold (noise_of p (skip_rd h 32)).
    fold (noise_of p (skip_rand (skip_rd h 32) 32)).
    fold s. fold e. rewrite Ht. reflexivity. }
  cbn [seed public_data secret_data].
  split; [exact Hseed|].
  rewrite !colors_to_bytes_length, Hlen.
  unfold s, noise_of. rewrite sample_colors_length. split; lia.
Qed.

End HonestKeys.

(** ** Decapsulation *)

Section Decapsulation.
Import ColorKEM.

Lemma ct_select_length valid (a b : list Z) :
  length (ct_select valid a b) = Nat.min (length a) (length b).
Proof. unfold ct_select. now rewrite length_map, length_combine. Qed.

(** With a KDF of 32 bytes, decapsulation as specified returns 32 bytes. *)
Lemma fo_decaps_length G H KDF Enc_PKE Dec_PKE sk_pke pk hpk z c :
  (forall x, length (KDF x) = 32%nat) ->
  length (fo_decaps G H KDF Enc_PKE Dec_PKE sk_pke pk hpk z c) = 32%nat.
Proof.
  intro HK. unfold fo_decaps.
  destruct (G (Dec_PKE sk_pke c ++ hpk)) as [Kbar r].
  rewrite ct_select_length, !HK. reflexivity.
Qed.

(** C2, as the code has it.  [decapsulate] cuts the secret key and the
    ciphertext bytes into colours and returns [decrypt_message] of them:
    the public key and the hint are not read, nothing is re-encrypted or
    compared, and the value returned, when the vectors are long enough to be
    read, is the colour of 0 or of 1. *)
Theorem decapsulate_is_raw_decryption
        (p : CLWEParameters) (pk pk' : ColorPublicKey) (sk : ColorPrivateKey)
        (ct : ColorCiphertext) (hint' : list Z) (p' : CLWEParameters) :
  decapsulate p pk sk ct
  = decrypt_message p (parse_colors (secret_data sk))
                    (parse_colors (ciphertext_data ct))
  /\ decapsulate p pk' sk (mkCiphertext (ciphertext_data ct) hint' p')
     = decapsulate p pk sk ct
  /\ (decapsulate p pk sk ct = None
      \/ decapsulate p pk sk ct = Some (ColorValue.from_precise_value 0)
      \/ decapsulate p pk sk ct = Some (ColorValue.from_precise_value 1)).
Proof.
  split; [reflexivity|]. split; [reflexivity|].
  unfold decapsulate, decrypt_message.
  destruct (_ <? module_rank p); [now left|].
  destruct (at_ _ (module_rank p)) as [c2|]; [|now left].
  cbn [obind].
  destruct (inner_product p _ _) as [s|]; [|now left].
  cbn [obind].
  destruct (_ >? _); [right; right | right; left]; reflexivity.
Qed.

(** C2 as stated, refuted at a key pair and ciphertext of the L1 set.  The
    code returns the colour of 0, four bytes once encoded; decapsulation as
    specified returns the 32 bytes of a KDF, whatever the primitives and
    whatever the rejection seed [z]. *)
Lemma decapsulate_is_not_fo :
  decapsulate L1 sample_public_key sample_private_key sample_ciphertext
  = Some (ColorValue.from_precise_value 0)
  /\ color_secret_to_bytes (ColorValue.from_precise_value 0) = [0; 0; 0; 0]
  /\ forall G H KDF Enc_PKE Dec_PKE z,
      (forall x, length (KDF x) = 32%nat) ->
      fo_decaps G H KDF Enc_PKE Dec_PKE
                (secret_data sample_private_key)
                (ColorPublicKey_serialize sample_public_key)
                (H (ColorPublicKey_serialize sample_public_key))
                z
                (ColorCiphertext_serialize sample_ciphertext)
      <> color_secret_to_bytes (ColorValue.from_precise_value 0).
Proof.
  split; [vm_compute; reflexivity|].
  split; [vm_compute; reflexivity|].
  intros G H KDF Enc_PKE Dec_PKE z HK Heq.
  pose proof (fo_decaps_length G H KDF Enc_PKE Dec_PKE
                (secret_data sample_private_key)
                (ColorPublicKey_serialize sample_public_key)
                (H (ColorPublicKey_serialize sample_public_key))
                z (ColorCiphertext_serialize sample_ciphertext) HK) as Hlen.
  rewrite Heq in Hlen. vm_compute in Hlen. discriminate Hlen.
Qed.

End Decapsulation.

(** ** The parse routines *)

Section Deserialisation.
Import ColorKEM.

(** C8, as the code has it.  Both parse routines return an object for every
    input, whatever its length.  [ColorPublicKey::deserialize] takes the
    first 32 bytes as the seed and the rest as the key data when there are
    32 bytes, and otherwise leaves the key as constructed;
    [ColorCiphertext::deserialize] cuts the input in two halves.  In both
    cases serialising the object gives the input back, except for a public
    key shorter than 32 bytes. *)
Theorem deserialize_always_returns (indeterminate data : list Z) :
  (exists key,
      parse_public_key indeterminate data = Returned key
      /\ (if 32 <=? Z.of_nat (length data)
          then seed key = firstn 32 data
               /\ public_data key = skipn 32 data
               /\ ColorPublicKey_serialize key = data
          else seed key = indeterminate /\ public_data key = []))
  /\ (exists ct,
         parse_ciphertext data = Returned ct
         /\ length (ciphertext_data ct) = Nat.div (length data) 2
         /\ ColorCiphertext_serialize ct = data).
Proof.
  split.
  - eexists. split; [reflexivity|].
    unfold ColorPublicKey_deserialize.
    destruct (32 <=? Z.of_nat (length data)); cbn [seed public_data].
    + repeat split. unfold ColorPublicKey_serialize. cbn [seed public_data].
      apply firstn_skipn.
    + split; reflexivity.
  - eexists. split; [reflexivity|].
    unfold ColorCiphertext_deserialize, ColorCiphertext_serialize.
    cbn [ciphertext_data shared_secret_hint]. split; [|apply firstn_skipn].
    rewrite length_firstn.
    change 2 with (Z.of_nat 2). rewrite <- Nat2Z.inj_div, Nat2Z.id.
    apply Nat.min_l.
    apply Nat.Div0.div_le_upper_bound. lia.
Qed.

(** C8 as stated, refuted at the empty input, which has the length of no
    public key and of no ciphertext: both parse routines return an object,
    not a failure. *)
Lemma deserialize_empty_is_not_failure :
  Z.of_nat (length (@nil Z)) <> public_key_bytes L1
  /\ Z.of_nat (length (@nil Z)) <> ciphertext_bytes L1
  /\ parse_public_key zero_seed []
     = Returned (mkPublicKey zero_seed [] (CLWEParameters_of 128))
  /\ parse_ciphertext [] = Returned (mkCiphertext [] [] (CLWEParameters_of 128))
  /\ (forall e, parse_public_key zero_seed [] <> Failed e)
  /\ (forall e, parse_ciphertext [] <> Failed e).
Proof.
  split; [vm_compute; discriminate|].
  split; [vm_compute; discriminate|].
  split; [reflexivity|]. split; [reflexivity|].
  split; intros e He; discriminate He.
Qed.

End Deserialisation.

(** ** A whole session *)

Section Session.
Import ColorKEM.

Lemma decrypt_message_some p (sk ct : list ColorValue.t) :
  0 <= module_rank p ->
  module_rank p <= Z.of_nat (length sk) ->
  module_rank p + 1 <= Z.of_nat (length ct) ->
  exists v, decrypt_message p sk ct = Some v.
Proof.
  intros Hk Hsk Hct. unfold decrypt_message.
  destruct (Z.ltb_spec (Z.of_nat (length ct)) (module_rank p)); [lia|].
  destruct (at_some ct (module_rank p) ltac:(lia)) as [c2 ->]. cbn [obind].
  destruct (inner_product_some p sk (firstn (Z.to_nat (module_rank p)) ct)
              Hsk) as [s ->].
  { rewrite length_firstn. lia. }
  cbn [obind]. eexists. reflexivity.
Qed.

(** On every host a session of one of the three parameter sets runs to its
    end: no vector is read out of its bounds and the rejection loop of the
    matrix sampler returns. *)
Lemma kem_session_returns lvl fuel h :
  (544 <= fuel)%nat ->
  exists shared_secret recovered,
    kem_session (CLWEParameters_of lvl) fuel h
    = Some (shared_secret, recovered).
Proof.
  intro Hfuel.
  pose proof (CLWEParameters_of_rank lvl) as Hk.
  destruct (keygen_returns_well_formed lvl fuel h Hfuel)
    as [pk [sk [h1 [Hgen [Hseed [Hpd Hsd]]]]]].
  destruct (encapsulate_returns lvl fuel pk h1 Hseed ltac:(lia) Hfuel)
    as [c [h2 [Henc Hlen]]].
  unfold kem_session. rewrite Hgen, Henc.
  unfold decapsulate. cbn [secret_data ciphertext_data].
  destruct (decrypt_message_some (CLWEParameters_of lvl)
              (parse_colors (secret_data sk))
              (parse_colors (colors_to_bytes c))) as [v ->]; [lia| | |].
  - pose proof (parse_colors_length (secret_data sk)). lia.
  - pose proof (parse_colors_length (colors_to_bytes c)) as H.
    rewrite colors_to_bytes_length, Hlen in H. lia.
  - cbn [obind]. eexists. eexists. reflexivity.
Qed.

(** The session of C1 on a second host, whose [rand()] is the generator of
    the GNU C library seeded with 3: the sender holds 1, the receiver 0. *)
Lemma honest_session_mismatch_gnu :
  kem_session L1 544 host_gnu_3
  = Some (ColorValue.from_precise_value 1, ColorValue.from_precise_value 0).
Proof. vm_compute. reflexivity. Qed.

End Session.
(** ** Two runs on hosts that answer alike *)

Section SameDraws.
Import ColorKEM.

Lemma host_late_same_rand : same_rand host_ones host_late 97.
Proof.
  intros i Hi. unfold host_ones, host_late, host_of, cyclic.
  cbn [rand_tape rand_pos length]. rewrite Nat.mod_1_r.
  destruct (Nat.ltb_spec (5 + i) 205); [reflexivity | lia].
Defined.

Lemma host_short_same_rd : same_rd host_ones host_short 32.
Proof.
  intros i Hi. unfold host_ones, host_short, host_of, cyclic.
  cbn [rd_tape rd_pos length]. rewrite Nat.mod_1_r.
  destruct (Nat.ltb_spec (0 + i) 32); [reflexivity | lia].
Defined.

Lemma host_short_same_rand : same_rand host_ones host_short 64.
Proof.
  intros i Hi. unfold host_ones, host_short, host_of, cyclic.
  cbn [rand_tape rand_pos length]. rewrite Nat.mod_1_r.
  destruct (Nat.ltb_spec (0 + i) 64); [reflexivity | lia].
Defined.

Lemma Some_eq_inv {A} (x y : A) : Some x = Some y -> x = y.
Proof. intro H. now injection H. Qed.

(** C7, as the code has it.  [keygen] and [encapsulate] take no seed: they
    draw from [random_device] and [rand()].  For each parameter set, two
    calls of [keygen] both return, and return the same key pair, whenever
    the two hosts answer alike to the 32 draws of [random_device] and the
    64 draws of [rand()] that [keygen] makes; two calls of [encapsulate]
    with the same public key (a 32-byte seed and at least [4k] bytes of
    data) both return, and return the same ciphertext and shared secret,
    whenever the two hosts answer alike to the 97 draws of [rand()] that
    [encapsulate] makes.  Nothing is asked of [random_device] for
    [encapsulate], nor of later draws. *)
Theorem keygen_encapsulate_follow_draws
        (lvl : Z) (fuel : nat) (pk : ColorPublicKey)
        (h1 h2 g1 g2 : Host)
        (Hfuel : (544 <= fuel)%nat)
        (Hseed : length (seed pk) = 32%nat)
        (Hdata : 4 * module_rank (CLWEParameters_of lvl)
                 <= Z.of_nat (length (public_data pk))) :
  let p := CLWEParameters_of lvl in
  (same_rd h1 h2 32 -> same_rand h1 h2 64 ->
   exists keys h1' h2',
     keygen p fuel h1 = Some (keys, h1')
     /\ keygen p fuel h2 = Some (keys, h2'))
  /\ (same_rand g1 g2 97 ->
      exists out g1' g2',
        encapsulate p fuel pk g1 = Some (out, g1')
        /\ encapsulate p fuel pk g2 = Some (out, g2')).
Proof.
  intro p. split.
  - intros Hrd Hrand.
    pose proof (keygen_follows_draws p fuel h1 h2 Hrd Hrand) as E.
    destruct (keygen_returns_well_formed lvl fuel h1 Hfuel)
      as [pk1 [sk1 [h1' [K1 _]]]].
    destruct (keygen_returns_well_formed lvl fuel h2 Hfuel)
      as [pk2 [sk2 [h2' [K2 _]]]].
    fold p in K1, K2. rewrite K1, K2 in E. cbn [option_map fst] in E.
    apply Some_eq_inv in E.
    exists (pk1, sk1), h1', h2'. split; [exact K1|].
    rewrite K2, E. reflexivity.
  - intros Hrand.
    pose proof (encapsulate_follows_draws p fuel pk g1 g2 Hrand) as E.
    destruct (encapsulate_returns lvl fuel pk g1 Hseed Hdata Hfuel)
      as [c1 [g1' [R1 _]]].
    destruct (encapsulate_returns lvl fuel pk g2 Hseed Hdata Hfuel)
      as [c2 [g2' [R2 _]]].
    fold p in R1, R2. rewrite R1, R2 in E. cbn [option_map fst] in E.
    apply Some_eq_inv in E.
    eexists. exists g1', g2'. split; [exact R1|].
    rewrite R2, <- E. reflexivity.
Qed.

Lemma keygen_encapsulate_follow_draws_witness :
  (exists keys h1' h2',
      keygen L1 544 host_ones = Some (keys, h1')
      /\ keygen L1 544 host_short = Some (keys, h2'))
  /\ (exists out g1' g2',
         encapsulate L1 544 sample_public_key host_ones = Some (out, g1')
         /\ encapsulate L1 544 sample_public_key host_late
            = Some (out, g2')).
Proof.
  assert (Hdata : 4 * module_rank (CLWEParameters_of 128)
                  <= Z.of_nat (length (public_data sample_public_key)))
    by (vm_compute; discriminate).
  destruct (keygen_encapsulate_follow_draws
              128 544 sample_public_key
              host_ones host_short host_ones host_late
              (Nat.le_refl 544) eq_refl Hdata) as [Hk He].
  split.
  - exact (Hk host_short_same_rd host_short_same_rand).
  - exact (He host_late_same_rand).
Defined.

End SameDraws.

(** ** Byte codecs of colours *)

Section ColourBytes.
Import ColorKEM.

Lemma lor_shiftl_add hi lo k :
  0 <= k -> 0 <= lo < 2 ^ k -> Z.lor (Z.shiftl hi k) lo = hi * 2 ^ k + lo.
Proof.
  intros Hk Hlo.
  assert (Hland : Z.land (Z.shiftl hi k) lo = 0).
  { apply Z.bits_inj'. intros i Hi. rewrite Z.land_spec, Z.bits_0.
    destruct (Z_lt_le_dec i k) as [Hlt|Hge].
    - rewrite Z.shiftl_spec_low by lia. reflexivity.
    - rewrite <- (Z.mod_small lo (2 ^ k)) by lia.
      rewrite Z.mod_pow2_bits_high by lia. apply andb_false_r. }
  rewrite <- Z.lxor_lor by exact Hland.
  rewrite <- Z.add_nocarry_lxor by exact Hland.
  now rewrite Z.shiftl_mul_pow2.
Qed.

Lemma land_255_mod x : Z.land x 255 = x mod 256.
Proof. change 255 with (Z.ones 8). now rewrite Z.land_ones. Qed.

Lemma shiftr_land_255 x s :
  0 <= s -> Z.land (Z.shiftr x s) 255 = (x / 2 ^ s) mod 256.
Proof. intro Hs. now rewrite land_255_mod, Z.shiftr_div_pow2. Qed.

Lemma lor_add_aligned x lo k :
  0 <= k -> 0 <= lo < 2 ^ k -> x mod 2 ^ k = 0 -> Z.lor x lo = x + lo.
Proof.
  intros Hk Hlo Hx.
  assert (E : x = Z.shiftl (x / 2 ^ k) k).
  { rewrite Z.shiftl_mul_pow2 by lia.
    pose proof (Z.div_mod x (2 ^ k) ltac:(lia)). lia. }
  rewrite E at 1. rewrite lor_shiftl_add by lia.
  pose proof (Z.div_mod x (2 ^ k) ltac:(lia)). lia.
Qed.

Lemma to_math_value_sum c :
  byte_color c ->
  ColorValue.to_math_value c
  = ColorValue.r c * 2 ^ 24 + ColorValue.g c * 2 ^ 16
    + ColorValue.b c * 2 ^ 8 + ColorValue.a c.
Proof.
  intros (Hr & Hg & Hb & Ha). unfold ColorValue.to_math_value, u32.
  rewrite !Z.shiftl_mul_pow2 by lia. pow2s.
  rewrite !Z.mod_small by lia.
  rewrite (lor_add_aligned _ (ColorValue.g c * 65536) 24); pow2s;
    [|lia|lia|Z.div_mod_to_equations; lia].
  rewrite (lor_add_aligned _ (ColorValue.b c * 256) 16); pow2s;
    [|lia|lia|Z.div_mod_to_equations; lia].
  rewrite (lor_add_aligned _ (ColorValue.a c) 8); pow2s;
    [|lia|lia|Z.div_mod_to_equations; lia].
  reflexivity.
Qed.

Lemma from_math_value_sum r g b a :
  0 <= r < 256 -> 0 <= g < 256 -> 0 <= b < 256 -> 0 <= a < 256 ->
  ColorValue.from_math_value (r * 2 ^ 24 + g * 2 ^ 16 + b * 2 ^ 8 + a)
  = ColorValue.mk r g b a.
Proof.
  intros Hr Hg Hb Ha. unfold ColorValue.from_math_value.
  rewrite !shiftr_land_255 by lia. rewrite land_255_mod. pow2s.
  f_equal; Z.div_mod_to_equations; lia.
Qed.

Lemma to_precise_value_sum c :
  byte_color c ->
  ColorValue.to_precise_value c
  = ColorValue.r c * 2 ^ 32 + ColorValue.g c * 2 ^ 16 + ColorValue.b c.
Proof.
  intros (Hr & Hg & Hb & Ha). unfold ColorValue.to_precise_value, u64.
  rewrite !Z.shiftl_mul_pow2 by lia. pow2s.
  rewrite !Z.mod_small by lia.
  rewrite (lor_add_aligned _ (ColorValue.g c * 65536) 32); pow2s;
    [|lia|lia|Z.div_mod_to_equations; lia].
  rewrite (lor_add_aligned _ (ColorValue.b c) 16); pow2s;
    [|lia|lia|Z.div_mod_to_equations; lia].
  reflexivity.
Qed.

Lemma from_precise_value_byte_color v :
  byte_color (ColorValue.from_precise_value v).
Proof.
  unfold byte_color, ColorValue.from_precise_value.
  cbn [ColorValue.r ColorValue.g ColorValue.b ColorValue.a].
  rewrite !land_255_mod.
  repeat split; try apply Z.mod_pos_bound; lia.
Qed.

Lemma color_secret_to_bytes_form c :
  byte_color c ->
  color_secret_to_bytes c = [0; ColorValue.g c; 0; ColorValue.b c].
Proof.
  intros Hc. pose proof Hc as (Hr & Hg & Hb & Ha).
  unfold color_secret_to_bytes, be32. rewrite to_precise_value_sum by exact Hc.
  rewrite !shiftr_land_255 by lia. rewrite land_255_mod.
  unfold u32, u8. pow2s. rewrite !Z.mod_mod by lia.
  repeat f_equal; Z.div_mod_to_equations; lia.
Qed.

Lemma bytes_to_color_secret_form b0 b1 b2 b3 rest :
  0 <= b0 < 256 -> 0 <= b1 < 256 -> 0 <= b2 < 256 -> 0 <= b3 < 256 ->
  bytes_to_color_secret (b0 :: b1 :: b2 :: b3 :: rest)
  = ColorValue.mk 0 b1 b3 255.
Proof.
  intros H0 H1 H2 H3. unfold bytes_to_color_secret.
  change (Z.lor (Z.lor (Z.lor (u32 (Z.shiftl b0 24)) (u32 (Z.shiftl b1 16)))
                       (u32 (Z.shiftl b2 8))) b3)
    with (ColorValue.to_math_value (ColorValue.mk b0 b1 b2 b3)).
  rewrite to_math_value_sum by (repeat split; cbn; lia).
  cbn [ColorValue.r ColorValue.g ColorValue.b ColorValue.a].
  unfold ColorValue.from_precise_value.
  rewrite !shiftr_land_255 by lia. rewrite land_255_mod. pow2s.
  f_equal; Z.div_mod_to_equations; lia.
Qed.

Lemma chunks_cons4 fuel b0 b1 b2 b3 rest :
  chunks (S fuel) (b0 :: b1 :: b2 :: b3 :: rest)
  = [b0; b1; b2; b3] :: chunks fuel rest.
Proof. reflexivity. Qed.

Lemma chunks_more fuel :
  forall data fuel', (length data <= fuel)%nat -> (fuel <= fuel')%nat ->
                     chunks fuel' data = chunks fuel data.
Proof.
  induction fuel as [|fuel IH]; intros data fuel' Hd Hf.
  - destruct data; [|cbn in Hd; lia]. destruct fuel'; reflexivity.
  - destruct fuel' as [|fuel']; [lia|].
    destruct data as [|b data]; [reflexivity|].
    cbn [chunks]. f_equal. apply IH; [|lia].
    rewrite length_skipn. cbn [length] in *. lia.
Qed.

Lemma parse_colors_app4 b0 b1 b2 b3 rest :
  parse_colors (b0 :: b1 :: b2 :: b3 :: rest)
  = bytes_to_color_secret [b0; b1; b2; b3] :: parse_colors rest.
Proof.
  unfold parse_colors. cbn [length]. rewrite chunks_cons4. cbn [map].
  f_equal. f_equal. apply (chunks_more (length rest)); lia.
Qed.

Lemma parse_colors_colors_to_bytes cs :
  Forall byte_color cs ->
  parse_colors (colors_to_bytes cs) = map codec_image cs.
Proof.
  induction 1 as [|c cs Hc Hcs IH]; [reflexivity|].
  unfold colors_to_bytes in *. cbn [flat_map map].
  rewrite color_secret_to_bytes_form by exact Hc.
  cbn [app]. rewrite parse_colors_app4, IH. f_equal.
  destruct Hc as (Hr & Hg & Hb & Ha).
  rewrite bytes_to_color_secret_form by lia. reflexivity.
Qed.


Lemma precise32_codec_image c : precise32 c -> codec_image c = c.
Proof.
  intros [v [Hv ->]]. unfold codec_image, ColorValue.from_precise_value.
  cbn [ColorValue.g ColorValue.b]. f_equal.
  rewrite shiftr_land_255 by lia. pow2s.
  symmetry. Z.div_mod_to_equations. lia.
Qed.

Lemma precise32_byte_color c : precise32 c -> byte_color c.
Proof. intros [v [_ ->]]. apply from_precise_value_byte_color. Qed.

Lemma to_math_value_range c :
  byte_color c -> 0 <= ColorValue.to_math_value c < 2 ^ 32.
Proof.
  intro Hc. pose proof Hc as (Hr & Hg & Hb & Ha).
  rewrite to_math_value_sum by exact Hc. pow2s. lia.
Qed.

Lemma from_to_math_value c :
  byte_color c ->
  ColorValue.from_math_value (ColorValue.to_math_value c) = c.
Proof.
  intro Hc. pose proof Hc as (Hr & Hg & Hb & Ha).
  rewrite to_math_value_sum by exact Hc.
  rewrite from_math_value_sum by lia. destruct c; reflexivity.
Qed.

Lemma from_math_value_byte_color v :
  byte_color (ColorValue.from_math_value v).
Proof.
  unfold byte_color, ColorValue.from_math_value.
  cbn [ColorValue.r ColorValue.g ColorValue.b ColorValue.a].
  rewrite !land_255_mod. repeat split; try apply Z.mod_pos_bound; lia.
Qed.

Lemma to_from_math_value v :
  0 <= v < 2 ^ 32 ->
  ColorValue.to_math_value (ColorValue.from_math_value v) = v.
Proof.
  intro Hv. rewrite to_math_value_sum by apply from_math_value_byte_color.
  unfold ColorValue.from_math_value.
  cbn [ColorValue.r ColorValue.g ColorValue.b ColorValue.a].
  rewrite !shiftr_land_255 by lia. rewrite land_255_mod. pow2s.
  Z.div_mod_to_equations. lia.
Qed.

(** X1. The math-value codec of a colour loses nothing: reading a colour
    from its 32-bit math value gives the colour back, and the math value of
    the colour read from a 32-bit value is that value. *)
Theorem math_value_roundtrip (c : ColorValue.t) (v : Z)
        (Hc : byte_color c) (Hv : 0 <= v < 2 ^ 32) :
  ColorValue.from_math_value (ColorValue.to_math_value c) = c
  /\ 0 <= ColorValue.to_math_value c < 2 ^ 32
  /\ ColorValue.to_math_value (ColorValue.from_math_value v) = v.
Proof.
  split; [|split].
  - now apply from_to_math_value.
  - now apply to_math_value_range.
  - now apply to_from_math_value.
Qed.

Lemma math_value_roundtrip_witness :
  byte_color (ColorValue.mk 1 2 3 4)
  /\ 0 <= 3329 < 2 ^ 32
  /\ ColorValue.from_math_value
       (ColorValue.to_math_value (ColorValue.mk 1 2 3 4))
     = ColorValue.mk 1 2 3 4
  /\ 0 <= ColorValue.to_math_value (ColorValue.mk 1 2 3 4) < 2 ^ 32
  /\ ColorValue.to_math_value (ColorValue.from_math_value 3329) = 3329.
Proof.
  assert (Hc : byte_color (ColorValue.mk 1 2 3 4))
    by (unfold byte_color; cbn; lia).
  assert (Hv : 0 <= 3329 < 2 ^ 32) by (split; [lia | reflexivity]).
  split; [exact Hc|]. split; [exact Hv|].
  exact (math_value_roundtrip (ColorValue.mk 1 2 3 4) 3329 Hc Hv).
Defined.

(** X2. The four-byte word of a colour carries its green and blue channels
    only: [color_secret_to_bytes] writes 0, g, 0, b, and
    [bytes_to_color_secret] reads the second and fourth byte and ignores the
    other two.  Reading back what was written gives the colour with r = 0
    and a = 255. *)
Theorem color_word_codec (c : ColorValue.t) (b0 b1 b2 b3 : Z)
        (Hc : byte_color c)
        (H0 : 0 <= b0 < 256) (H1 : 0 <= b1 < 256)
        (H2 : 0 <= b2 < 256) (H3 : 0 <= b3 < 256) :
  color_secret_to_bytes c = [0; ColorValue.g c; 0; ColorValue.b c]
  /\ bytes_to_color_secret [b0; b1; b2; b3] = ColorValue.mk 0 b1 b3 255
  /\ bytes_to_color_secret (color_secret_to_bytes c) = codec_image c.
Proof.
  split; [exact (color_secret_to_bytes_form c Hc)|].
  split; [exact (bytes_to_color_secret_form b0 b1 b2 b3 [] H0 H1 H2 H3)|].
  rewrite color_secret_to_bytes_form by exact Hc.
  destruct Hc as (Hr & Hg & Hb & Ha).
  rewrite bytes_to_color_secret_form by lia. reflexivity.
Qed.

Lemma color_word_codec_witness :
  byte_color (ColorValue.mk 9 8 7 6)
  /\ 0 <= 1 < 256 /\ 0 <= 2 < 256 /\ 0 <= 3 < 256 /\ 0 <= 4 < 256
  /\ color_secret_to_bytes (ColorValue.mk 9 8 7 6) = [0; 8; 0; 7]
  /\ bytes_to_color_secret [1; 2; 3; 4] = ColorValue.mk 0 2 4 255
  /\ bytes_to_color_secret (color_secret_to_bytes (ColorValue.mk 9 8 7 6))
     = codec_image (ColorValue.mk 9 8 7 6).
Proof.
  assert (Hc : byte_color (ColorValue.mk 9 8 7 6))
    by (unfold byte_color; cbn; lia).
  split; [exact Hc|].
  split; [lia|]. split; [lia|]. split; [lia|]. split; [lia|].
  exact (color_word_codec (ColorValue.mk 9 8 7 6) 1 2 3 4 Hc
           ltac:(lia) ltac:(lia) ltac:(lia) ltac:(lia)).
Defined.

(** X3. Cutting key or ciphertext bytes back into colours undoes
    [color_secret_to_bytes] on every colour up to the channels the word does
    not carry; on colours written by [from_precise_value] from 32-bit
    values, as all colours of keys and ciphertexts are, it is exact. *)
Theorem parse_colors_roundtrip (cs : list ColorValue.t)
        (Hcs : Forall byte_color cs) :
  parse_colors (colors_to_bytes cs) = map codec_image cs
  /\ (Forall precise32 cs -> parse_colors (colors_to_bytes cs) = cs).
Proof.
  split; [exact (parse_colors_colors_to_bytes cs Hcs)|].
  intro Hp. rewrite parse_colors_colors_to_bytes by exact Hcs.
  clear Hcs. induction Hp as [|c cs Hc _ IH]; [reflexivity|].
  cbn [map]. now rewrite IH, precise32_codec_image.
Qed.

Lemma parse_colors_roundtrip_witness :
  Forall byte_color [ColorValue.mk 9 8 7 6; ColorValue.from_precise_value 3]
  /\ parse_colors
       (colors_to_bytes
          [ColorValue.mk 9 8 7 6; ColorValue.from_precise_value 3])
     = map codec_image
           [ColorValue.mk 9 8 7 6; ColorValue.from_precise_value 3]
  /\ (Forall precise32
             [ColorValue.mk 9 8 7 6; ColorValue.from_precise_value 3] ->
      parse_colors
        (colors_to_bytes
           [ColorValue.mk 9 8 7 6; ColorValue.from_precise_value 3])
      = [ColorValue.mk 9 8 7 6; ColorValue.from_precise_value 3]).
Proof.
  assert (H : Forall byte_color
                [ColorValue.mk 9 8 7 6; ColorValue.from_precise_value 3]).
  { repeat constructor; cbn; lia. }
  split; [exact H|].
  exact (parse_colors_roundtrip _ H).
Defined.

End ColourBytes.

(** ** Keys and ciphertexts on the wire *)

Section Wire.
Import ColorKEM.

Lemma chunks_length_exact fuel :
  forall data, (length data <= fuel)%nat ->
               length (chunks fuel data) = ((length data + 3) / 4)%nat.
Proof.
  induction fuel as [|fuel IH]; intros data Hlen.
  - destruct data; [reflexivity | cbn in Hlen; lia].
  - destruct data as [|b0 data]; [reflexivity|].
    cbn [chunks]. cbn [length]. rewrite IH.
    2:{ rewrite length_skipn. cbn [length] in *. lia. }
    rewrite length_skipn. cbn [length].
    destruct data as [|b1 [|b2 [|b3 rest]]]; try reflexivity.
    cbn [length].
    replace (S (S (S (S (length rest)))) + 3)%nat
      with (length rest + 3 + 1 * 4)%nat by lia.
    rewrite Nat.div_add by lia.
    replace (S (S (S (S (length rest)))) - 4)%nat with (length rest) by lia.
    lia.
Qed.

Lemma parse_colors_length_exact data :
  length (parse_colors data) = ((length data + 3) / 4)%nat.
Proof.
  unfold parse_colors. rewrite length_map. now apply chunks_length_exact.
Qed.

Lemma decrypt_message_short p sk ct :
  Z.of_nat (length ct) <= module_rank p ->
  decrypt_message p sk ct = None.
Proof.
  intro H. unfold decrypt_message.
  destruct (Z.ltb_spec (Z.of_nat (length ct)) (module_rank p)); [reflexivity|].
  unfold at_.
  replace (module_rank p <? Z.of_nat (length ct)) with false
    by (symmetry; apply Z.ltb_ge; lia).
  rewrite andb_false_r. reflexivity.
Qed.

(** X4. The public-key parse routine undoes [serialize] on the seed and the
    key data of every key with a 32-byte seed, but not on the parameters:
    the key it returns always carries [CLWEParameters(128)]. *)
Theorem public_key_serialize_roundtrip
        (key : ColorPublicKey) (indeterminate : list Z)
        (Hseed : length (seed key) = 32%nat) :
  ColorPublicKey_deserialize indeterminate (ColorPublicKey_serialize key)
  = mkPublicKey (seed key) (public_data key) (CLWEParameters_of 128).
Proof.
  unfold ColorPublicKey_deserialize, ColorPublicKey_serialize.
  rewrite length_app, Hseed.
  destruct (Z.leb_spec 32 (Z.of_nat (32 + length (public_data key))));
    [|lia].
  rewrite <- Hseed.
  rewrite firstn_app, skipn_app, Nat.sub_diag, firstn_all, skipn_all.
  cbn [firstn skipn app]. rewrite app_nil_r. reflexivity.
Qed.

Lemma public_key_serialize_roundtrip_witness :
  length (seed (mkPublicKey zero_seed [1; 2; 3] (CLWEParameters_of 256)))
  = 32%nat
  /\ ColorPublicKey_deserialize []
       (ColorPublicKey_serialize
          (mkPublicKey zero_seed [1; 2; 3] (CLWEParameters_of 256)))
     = mkPublicKey zero_seed [1; 2; 3] (CLWEParameters_of 128).
Proof.
  split; [reflexivity|].
  exact (public_key_serialize_roundtrip
           (mkPublicKey zero_seed [1; 2; 3] (CLWEParameters_of 256)) []
           eq_refl).
Defined.

(** X5. The ciphertext parse routine cuts its input in the middle, so it
    gives back the two fields of a serialised ciphertext exactly when the
    hint is as long as the ciphertext data or one byte longer. *)
Theorem ciphertext_serialize_roundtrip (ct : ColorCiphertext) :
  let ct' := ColorCiphertext_deserialize (ColorCiphertext_serialize ct) in
  let d := length (ciphertext_data ct) in
  let h := length (shared_secret_hint ct) in
  length (ciphertext_data ct') = Nat.div (d + h) 2
  /\ ((ciphertext_data ct' = ciphertext_data ct
       /\ shared_secret_hint ct' = shared_secret_hint ct)
      <-> (d <= h <= d + 1)%nat).
Proof.
  cbv zeta. unfold ColorCiphertext_deserialize, ColorCiphertext_serialize.
  cbn [ciphertext_data shared_secret_hint].
  set (d := ciphertext_data ct). set (h := shared_secret_hint ct).
  rewrite length_app.
  change 2 with (Z.of_nat 2). rewrite <- Nat2Z.inj_div, Nat2Z.id.
  set (s := ((length d + length h) / 2)%nat).
  assert (Hs : (2 * s <= length d + length h < 2 * s + 2)%nat).
  { unfold s. pose proof (Nat.div_mod_eq (length d + length h) 2).
    pose proof (Nat.mod_upper_bound (length d + length h) 2). lia. }
  assert (Hlen : length (firstn s (d ++ h)) = s).
  { rewrite length_firstn, length_app. lia. }
  split; [exact Hlen|]. split.
  - intros [Hd _]. rewrite Hd in Hlen. lia.
  - intro Hr. assert (E : s = length d) by lia. rewrite E.
    rewrite firstn_app, Nat.sub_diag, firstn_all. cbn [firstn].
    rewrite app_nil_r. split; [reflexivity|].
    rewrite skipn_app, Nat.sub_diag, skipn_all. reflexivity.
Qed.

Lemma rem2_value x :
  0 <= x -> u64 (Z.rem x 2) = 0 \/ u64 (Z.rem x 2) = 1.
Proof. intro Hx. destruct (rem2_cases x Hx) as [-> | ->]; auto. Qed.

(** X6. The hint gives the shared secret away: for every public key that
    [encapsulate] can read, decoding the hint of the returned ciphertext, or
    the last four bytes of its serialisation, gives the shared secret
    returned alongside it.  No private key is involved. *)
Theorem hint_decodes_to_secret
        (lvl : Z) (fuel : nat) (pk : ColorPublicKey) (h : Host)
        (Hseed : length (seed pk) = 32%nat)
        (Hdata : 4 * module_rank (CLWEParameters_of lvl)
                 <= Z.of_nat (length (public_data pk)))
        (Hfuel : (544 <= fuel)%nat)
        (Hrand : 0 <= rand_tape h (rand_pos h)) :
  exists ct ss h',
    encapsulate (CLWEParameters_of lvl) fuel pk h = Some ((ct, ss), h')
    /\ decode_color_secret (shared_secret_hint ct) = ss
    /\ decode_color_secret
         (skipn (length (ColorCiphertext_serialize ct) - 4)
                (ColorCiphertext_serialize ct))
       = ss.
Proof.
  destruct (encapsulate_returns lvl fuel pk h Hseed Hdata Hfuel)
    as [c [h' [Hret _]]].
  rewrite Nat.add_0_r in Hret.
  eexists. eexists. exists h'. split; [exact Hret|].
  cbn [shared_secret_hint]. unfold ColorCiphertext_serialize.
  cbn [shared_secret_hint ciphertext_data].
  rewrite length_app.
  replace (length (colors_to_bytes c)
           + length (encode_color_secret
                       (ColorValue.from_precise_value
                          (u64 (Z.rem (rand_tape h (rand_pos h)) 2)))) - 4)%nat
    with (length (colors_to_bytes c))
    by (unfold encode_color_secret, be32; cbn [length]; lia).
  rewrite skipn_app, Nat.sub_diag, skipn_all. cbn [skipn app].
  destruct (rem2_value _ Hrand) as [-> | ->]; split; reflexivity.
Qed.

Lemma hint_decodes_to_secret_witness :
  length (seed sample_public_key) = 32%nat
  /\ 4 * module_rank (CLWEParameters_of 128)
     <= Z.of_nat (length (public_data sample_public_key))
  /\ (544 <= 544)%nat
  /\ 0 <= rand_tape host_ones (rand_pos host_ones)
  /\ exists ct ss h',
      encapsulate (CLWEParameters_of 128) 544 sample_public_key host_ones
      = Some ((ct, ss), h')
      /\ decode_color_secret (shared_secret_hint ct) = ss
      /\ decode_color_secret
           (skipn (length (ColorCiphertext_serialize ct) - 4)
                  (ColorCiphertext_serialize ct))
         = ss.
Proof.
  assert (H1 : length (seed sample_public_key) = 32%nat) by reflexivity.
  assert (H2 : 4 * module_rank (CLWEParameters_of 128)
               <= Z.of_nat (length (public_data sample_public_key)))
    by (vm_compute; discriminate).
  assert (H3 : 0 <= rand_tape host_ones (rand_pos host_ones))
    by (vm_compute; discriminate).
  split; [exact H1|]. split; [exact H2|]. split; [apply Nat.le_refl|].
  split; [exact H3|].
  exact (hint_decodes_to_secret 128 544 sample_public_key host_ones
           H1 H2 (Nat.le_refl 544) H3).
Defined.

(** X7. A ciphertext does not survive the wire.  For every ciphertext
    returned by [encapsulate], serialising and parsing it leaves 2k + 4
    bytes of ciphertext data where there were 4k + 4, and decapsulating
    the parsed ciphertext reads past the end of the colour vector, whatever
    the private key. *)
Theorem wire_ciphertext_is_short
        (lvl : Z) (fuel : nat) (pk : ColorPublicKey) (sk : ColorPrivateKey)
        (h : Host)
        (Hseed : length (seed pk) = 32%nat)
        (Hdata : 4 * module_rank (CLWEParameters_of lvl)
                 <= Z.of_nat (length (public_data pk)))
        (Hfuel : (544 <= fuel)%nat) :
  let p := CLWEParameters_of lvl in
  exists ct ss h',
    encapsulate p fuel pk h = Some ((ct, ss), h')
    /\ Z.of_nat (length (ciphertext_data ct)) = 4 * module_rank p + 4
    /\ Z.of_nat (length (ciphertext_data
                           (ColorCiphertext_deserialize
                              (ColorCiphertext_serialize ct))))
       = 2 * module_rank p + 4
    /\ decapsulate p pk sk
         (ColorCiphertext_deserialize (ColorCiphertext_serialize ct))
       = None.
Proof.
  intro p.
  pose proof (CLWEParameters_of_rank lvl) as Hk. fold p in Hk.
  destruct (encapsulate_returns lvl fuel pk h Hseed Hdata Hfuel)
    as [c [h' [Hret Hlen]]]. fold p in Hret, Hlen.
  eexists. eexists. exists h'. split; [exact Hret|].
  cbn [ciphertext_data].
  assert (Hd : length (colors_to_bytes c)
               = (4 * S (Z.to_nat (module_rank p)))%nat)
    by (rewrite colors_to_bytes_length, Hlen; reflexivity).
  split; [rewrite Hd; lia|].
  unfold ColorCiphertext_deserialize, ColorCiphertext_serialize, decapsulate.
  cbn [ciphertext_data shared_secret_hint].
  rewrite length_app, Hd.
  replace (length (encode_color_secret
                     (ColorValue.from_precise_value
                        (u64 (Z.rem (rand_tape h (rand_pos h + 0)) 2)))))
    with 4%nat by reflexivity.
  assert (Hsplit : Z.to_nat
                     (Z.of_nat (4 * S (Z.to_nat (module_rank p)) + 4) / 2)
                   = (2 * Z.to_nat (module_rank p) + 4)%nat).
  { replace (Z.of_nat (4 * S (Z.to_nat (module_rank p)) + 4))
      with ((2 * module_rank p + 4) * 2) by lia.
    rewrite Z.div_mul by lia. lia. }
  rewrite Hsplit.
  assert (Hf : length (firstn (2 * Z.to_nat (module_rank p) + 4)
                         (colors_to_bytes c
                          ++ encode_color_secret
                               (ColorValue.from_precise_value
                                  (u64 (Z.rem (rand_tape h (rand_pos h + 0))
                                              2)))))
               = (2 * Z.to_nat (module_rank p) + 4)%nat).
  { rewrite length_firstn, length_app, Hd. lia. }
  split; [rewrite Hf; lia|].
  apply decrypt_message_short.
  rewrite parse_colors_length_exact, Hf.
  assert ((2 * Z.to_nat (module_rank p) + 4 + 3) / 4
          < S (Z.to_nat (module_rank p)))%nat.
  { apply Nat.Div0.div_lt_upper_bound. lia. }
  lia.
Qed.

Lemma wire_ciphertext_is_short_witness :
  length (seed sample_public_key) = 32%nat
  /\ 4 * module_rank (CLWEParameters_of 128)
     <= Z.of_nat (length (public_data sample_public_key))
  /\ (544 <= 544)%nat
  /\ (let p := CLWEParameters_of 128 in
      exists ct ss h',
        encapsulate p 544 sample_public_key host_ones = Some ((ct, ss), h')
        /\ Z.of_nat (length (ciphertext_data ct)) = 4 * module_rank p + 4
        /\ Z.of_nat (length (ciphertext_data
                               (ColorCiphertext_deserialize
                                  (ColorCiphertext_serialize ct))))
           = 2 * module_rank p + 4
        /\ decapsulate p sample_public_key sample_private_key
             (ColorCiphertext_deserialize (ColorCiphertext_serialize ct))
           = None).
Proof.
  assert (H1 : length (seed sample_public_key) = 32%nat) by reflexivity.
  assert (H2 : 4 * module_rank (CLWEParameters_of 128)
               <= Z.of_nat (length (public_data sample_public_key)))
    by (vm_compute; discriminate).
  split; [exact H1|]. split; [exact H2|]. split; [apply Nat.le_refl|].
  exact (wire_ciphertext_is_short 128 544 sample_public_key
           sample_private_key host_ones H1 H2 (Nat.le_refl 544)).
Defined.

End Wire.

(** ** Number-theoretic helpers of utils.cpp *)

Section UtilsArithmetic.
Import Utils.

Lemma mod_pow_loop_spec fuel :
  forall result base exp md,
    1 < md -> 0 <= exp < 2 ^ Z.of_nat fuel -> 0 <= result < md ->
    mod_pow_loop fuel result base exp md = (result * base ^ exp) mod md.
Proof.
  induction fuel as [|fuel IH]; intros result base exp md Hmd Hexp Hres.
  - cbn [mod_pow_loop]. change (2 ^ Z.of_nat 0) with 1 in Hexp.
    replace exp with 0 by lia. rewrite Z.pow_0_r, Z.mul_1_r.
    symmetry. now apply Z.mod_small.
  - cbn [mod_pow_loop].
    destruct (Z.gtb_spec exp 0) as [Hpos|Hzero].
    2:{ replace exp with 0 by lia. rewrite Z.pow_0_r, Z.mul_1_r.
        symmetry. now apply Z.mod_small. }
    rewrite Z.shiftr_div_pow2 by lia. change (2 ^ 1) with 2.
    assert (Hhalf : 0 <= exp / 2 < 2 ^ Z.of_nat fuel).
    { rewrite Nat2Z.inj_succ, Z.pow_succ_r in Hexp by lia.
      split; [apply Z.div_pos; lia|].
      apply Z.div_lt_upper_bound; lia. }
    assert (Hbit : Z.land exp 1 = exp mod 2).
    { change 1 with (Z.ones 1). rewrite Z.land_ones by lia. reflexivity. }
    rewrite Hbit.
    pose proof (Z.div_mod exp 2 ltac:(lia)) as Hdm.
    pose proof (Z.mod_pos_bound exp 2 ltac:(lia)) as Hm.
    assert (Hsq : forall r, (r * ((base * base) mod md) ^ (exp / 2)) mod md
                            = (r * (base * base) ^ (exp / 2)) mod md).
    { intro r. rewrite <- Z.mul_mod_idemp_r by lia.
      rewrite Z.mod_pow_l.
      rewrite Z.mul_mod_idemp_r by lia. reflexivity. }
    assert (Hpow2 : (base * base) ^ (exp / 2) = base ^ (2 * (exp / 2))).
    { rewrite Z.pow_mul_r by lia. rewrite Z.pow_2_r. reflexivity. }
    destruct (Z.eqb_spec (exp mod 2) 0) as [Heven|Hodd].
    + rewrite IH by (try lia; assumption).
      rewrite Hsq, Hpow2.
      replace (2 * (exp / 2)) with exp by lia. reflexivity.
    + rewrite IH; [|lia|lia|apply Z.mod_pos_bound; lia].
      rewrite Hsq, Hpow2.
      rewrite Z.mul_mod_idemp_l by lia.
      assert (Hsplit : base ^ exp = base * base ^ (2 * (exp / 2))).
      { rewrite <- Z.pow_succ_r by lia. f_equal. lia. }
      rewrite Hsplit. f_equal. ring.
Qed.

Lemma mod_pow_spec (base exp md : Z) :
  0 <= exp < 2 ^ 32 -> 1 < md -> mod_pow base exp md = base ^ exp mod md.
Proof.
  intros Hexp Hmd. unfold mod_pow.
  rewrite mod_pow_loop_spec; [|lia|exact Hexp|lia].
  rewrite Z.mul_1_l. apply Z.mod_pow_l.
Qed.

(** X8. [mod_pow] is modular exponentiation: for 32-bit arguments and a
    modulus of at least 2 it returns [base ^ exp mod md].  With modulus 1
    and exponent 0 it returns 1, which is not a residue modulo 1. *)
Theorem mod_pow_correct (base exp md : Z)
        (Hbase : 0 <= base < 2 ^ 32) (Hexp : 0 <= exp < 2 ^ 32)
        (Hmd : 1 < md < 2 ^ 32) :
  mod_pow base exp md = base ^ exp mod md
  /\ 0 <= mod_pow base exp md < md
  /\ mod_pow base 0 1 = 1.
Proof.
  assert (E : mod_pow base exp md = base ^ exp mod md)
    by (apply mod_pow_spec; lia).
  split; [exact E|]. split; [|reflexivity].
  rewrite E. apply Z.mod_pos_bound. lia.
Qed.

Lemma mod_pow_correct_witness :
  mod_pow 17 13 3329 = 17 ^ 13 mod 3329
  /\ 0 <= mod_pow 17 13 3329 < 3329
  /\ mod_pow 17 0 1 = 1.
Proof.
  apply (mod_pow_correct 17 13 3329); vm_compute; split; congruence.
Defined.


Lemma mod_inverse_loop_spec (m0 a0 : Z) (Hm0 : 1 < m0) fuel :
  forall a m x0 x1,
    1 <= a < 2 ^ 32 -> 0 <= m < 2 ^ 32 -> Z.gcd a m = 1 ->
    (Z.to_nat m < fuel)%nat ->
    (x0 <= 0 <= x1 \/ x1 <= 0 <= x0) ->
    Z.abs x0 * a + Z.abs x1 * m = m0 ->
    Z.abs x1 < m0 ->
    (m0 | x1 * a0 - a) -> (m0 | x0 * a0 - m) ->
    exists x, mod_inverse_loop fuel a m x0 x1 = Some x
              /\ Z.abs x < m0 /\ (m0 | x * a0 - 1).
Proof.
  induction fuel as [|fuel IH];
    intros a m x0 x1 Ha Hm Hg Hfuel Hsign Hsum Hx1 Hd1 Hd0; [lia|].
  cbn [mod_inverse_loop].
  destruct (Z.gtb_spec a 1) as [Hgt|Hle].
  2:{ exists x1. replace a with 1 in Hd1 by lia. auto. }
  destruct (Z.eqb_spec m 0) as [Hz|Hnz].
  { subst m. rewrite Z.gcd_0_r, Z.abs_eq in Hg by lia. lia. }
  assert (Hu : u32 m = m) by (apply Z.mod_small; lia).
  rewrite Hu.
  pose proof (Z.mod_pos_bound a m ltac:(lia)) as Hmod.
  pose proof (Z.div_mod a m Hnz) as Hdm.
  assert (Hq : 0 <= a / m) by (apply Z.div_pos; lia).
  apply IH.
  - lia.
  - lia.
  - rewrite Z.gcd_mod_r, Z.gcd_comm. exact Hg.
  - lia.
  - destruct Hsign as [[? ?]|[? ?]]; [right|left]; nia.
  - replace (a mod m) with (a - m * (a / m)) by lia.
    destruct Hsign as [[? ?]|[? ?]].
    + rewrite (Z.abs_eq (x1 - a / m * x0)) by nia.
      rewrite (Z.abs_neq x0) in * by lia.
      rewrite (Z.abs_eq x1) in * by lia. nia.
    + rewrite (Z.abs_neq (x1 - a / m * x0)) by nia.
      rewrite (Z.abs_eq x0) in * by lia.
      rewrite (Z.abs_neq x1) in * by lia. nia.
  - assert (0 <= Z.abs x0) by apply Z.abs_nonneg.
    assert (0 <= Z.abs x1) by apply Z.abs_nonneg. nia.
  - exact Hd0.
  - replace ((x1 - a / m * x0) * a0 - a mod m)
      with ((x1 * a0 - a) - (a / m) * (x0 * a0 - m)) by lia.
    apply Z.divide_sub_r; [exact Hd1|].
    apply Z.divide_mul_r. exact Hd0.
Qed.

Lemma mod_inverse_loop_stuck fuel :
  forall a m x0 x1,
    1 < a < 2 ^ 32 -> 0 <= m < 2 ^ 32 -> Z.gcd a m <> 1 ->
    mod_inverse_loop fuel a m x0 x1 = None.
Proof.
  induction fuel as [|fuel IH]; intros a m x0 x1 Ha Hm Hg.
  - cbn [mod_inverse_loop].
    destruct (Z.gtb_spec a 1); [reflexivity | lia].
  - cbn [mod_inverse_loop].
    destruct (Z.gtb_spec a 1); [|lia].
    destruct (Z.eqb_spec m 0) as [Hz|Hnz]; [reflexivity|].
    assert (Hu : u32 m = m) by (apply Z.mod_small; lia).
    rewrite Hu.
    pose proof (Z.mod_pos_bound a m ltac:(lia)) as Hmod.
    apply IH.
    + destruct (Z.eq_dec m 1) as [->|]; [|lia].
      rewrite Z.gcd_1_r in Hg. congruence.
    + lia.
    + rewrite Z.gcd_mod_r, Z.gcd_comm. exact Hg.
Qed.

Lemma mod_inverse_spec (a m : Z) :
  0 < a < 2 ^ 32 -> 1 < m < 2 ^ 32 -> Z.gcd a m = 1 ->
  exists x, mod_inverse a m = Some x /\ 0 <= x < m /\ (a * x) mod m = 1.
Proof.
  intros Ha Hm Hgcd.
  unfold mod_inverse.
  destruct (Z.eqb_spec m 1); [lia|].
  destruct (mod_inverse_loop_spec m a ltac:(lia) (S (Z.to_nat m)) a m 0 1)
    as [x [Hloop [Habs Hdiv]]];
    try lia; try exact Hgcd.
  - rewrite Z.mul_1_l, Z.sub_diag. apply Z.divide_0_r.
  - rewrite Z.mul_0_l. exists (-1). lia.
  - rewrite Hloop. cbn [obind].
    set (v := if x <? 0 then x + m else x).
    assert (Hv : 0 <= v < m)
      by (unfold v; destruct (Z.ltb_spec x 0); lia).
    assert (Hdv : (m | v * a - 1)).
    { unfold v. destruct (Z.ltb_spec x 0); [|exact Hdiv].
      replace ((x + m) * a - 1) with ((x * a - 1) + a * m) by lia.
      apply Z.divide_add_r; [exact Hdiv|]. apply Z.divide_factor_r. }
    exists v. split; [|split; [exact Hv|]].
    + f_equal. apply Z.mod_small. lia.
    + destruct Hdv as [k Hk].
      replace (a * v) with (1 + k * m) by lia.
      rewrite Z.mod_add by lia. apply Z.mod_small. lia.
Qed.

(** X9. [mod_inverse] returns the modular inverse whenever there is one:
    for 32-bit [a >= 1] and [m >= 2] that are coprime, the loop ends within
    the [m + 1] turns allowed and the value returned lies in [0, m) and
    satisfies [a * x = 1 (mod m)]. *)
Theorem mod_inverse_correct (a m : Z)
        (Ha : 0 < a < 2 ^ 32) (Hm : 1 < m < 2 ^ 32)
        (Hgcd : Z.gcd a m = 1) :
  exists x, mod_inverse a m = Some x /\ 0 <= x < m /\ (a * x) mod m = 1.
Proof. exact (mod_inverse_spec a m Ha Hm Hgcd). Qed.

Lemma mod_inverse_correct_witness :
  exists x, mod_inverse 1729 3329 = Some x
            /\ 0 <= x < 3329 /\ (1729 * x) mod 3329 = 1.
Proof.
  apply (mod_inverse_correct 1729 3329);
    [vm_compute; split; congruence | vm_compute; split; congruence
    | reflexivity].
Defined.

(** X10. [mod_inverse] has no way to say that there is no inverse.  For
    32-bit arguments with a common factor and [m <> 1] it returns 1 when
    [a = 0], and otherwise never returns: the loop keeps [a > 1] until it
    divides by [m = 0], whatever the number of turns allowed. *)
Theorem mod_inverse_without_inverse (a m : Z)
        (Ha : 0 <= a < 2 ^ 32) (Hm : 0 <= m < 2 ^ 32)
        (Hm1 : m <> 1) (Hgcd : Z.gcd a m <> 1) :
  mod_inverse a m = (if a =? 0 then Some 1 else None)
  /\ (a <> 0 ->
      forall fuel x0 x1, mod_inverse_loop fuel a m x0 x1 = None).
Proof.
  assert (Hone : a <> 1).
  { intros ->. rewrite Z.gcd_1_l in Hgcd. congruence. }
  split.
  - unfold mod_inverse. destruct (Z.eqb_spec m 1); [contradiction|].
    destruct (Z.eqb_spec a 0) as [->|Hnz].
    + reflexivity.
    + rewrite mod_inverse_loop_stuck by (try lia; exact Hgcd). reflexivity.
  - intros Hnz fuel x0 x1.
    apply mod_inverse_loop_stuck; [lia | lia | exact Hgcd].
Qed.

Lemma mod_inverse_without_inverse_witness :
  mod_inverse 6 3330 = (if 6 =? 0 then Some 1 else None)
  /\ (6 <> 0 ->
      forall fuel x0 x1, mod_inverse_loop fuel 6 3330 x0 x1 = None).
Proof.
  apply (mod_inverse_without_inverse 6 3330);
    [vm_compute; split; congruence | vm_compute; split; congruence
    | discriminate | vm_compute; discriminate].
Defined.

(** X11. [barrett_reduce] with the constant [mu = floor(2^32 / q)] reduces
    every 32-bit value: the quotient estimate is at most one too small, so
    the single conditional subtraction is enough. *)
Theorem barrett_reduce_correct (a q : Z)
        (Ha : 0 <= a < 2 ^ 32) (Hq : 0 < q < 2 ^ 32) :
  barrett_reduce a q (2 ^ 32 / q) = a mod q.
Proof.
  unfold barrett_reduce.
  set (mu := 2 ^ 32 / q).
  pose proof (Z.div_mod (2 ^ 32) q ltac:(lia)) as Hmu.
  pose proof (Z.mod_pos_bound (2 ^ 32) q ltac:(lia)) as Hmu'.
  fold mu in Hmu.
  assert (Hmu0 : 0 < mu <= 2 ^ 32).
  { unfold mu. split.
    - apply Z.div_str_pos. lia.
    - apply Z.div_le_upper_bound; nia. }
  assert (Hprod : 0 <= a * mu < 2 ^ 64).
  { change (2 ^ 64) with (2 ^ 32 * 2 ^ 32). nia. }
  assert (E1 : u64 (a * mu) = a * mu)
    by (unfold u64; apply Z.mod_small; exact Hprod).
  rewrite E1.
  rewrite Z.shiftr_div_pow2 by lia.
  set (t := a * mu / 2 ^ 32).
  pose proof (Z.div_mod (a * mu) (2 ^ 32) ltac:(lia)) as Ht.
  pose proof (Z.mod_pos_bound (a * mu) (2 ^ 32) ltac:(lia)) as Ht'.
  fold t in Ht.
  assert (Ht0 : 0 <= t) by (apply Z.div_pos; lia).
  assert (Hlow : t * q <= a).
  { assert (t * q * 2 ^ 32 <= a * 2 ^ 32); [|lia].
    assert (t * 2 ^ 32 <= a * mu) by lia.
    assert (t * 2 ^ 32 * q <= a * mu * q) by nia.
    assert (a * (mu * q) <= a * 2 ^ 32) by nia.
    lia. }
  assert (Hhigh : a < (t + 2) * q).
  { assert (a * 2 ^ 32 < (t + 2) * q * 2 ^ 32); [|lia].
    assert (a * 2 ^ 32 < a * (mu * q) + a * q + 1) by nia.
    assert (a * mu < (t + 1) * 2 ^ 32) by lia.
    assert (a * mu * q < (t + 1) * 2 ^ 32 * q) by nia.
    assert (a * q < 2 ^ 32 * q) by nia.
    lia. }
  unfold u64, u32.
  rewrite (Z.mod_small (t * q)) by (pow2s; lia).
  rewrite (Z.mod_small (a - t * q)) by (pow2s; lia).
  destruct (Z.geb_spec (a - t * q) q) as [Hge|Hlt].
  - rewrite (Z.mod_small (a - t * q - q)) by (pow2s; lia).
    rewrite Z.mod_small by (pow2s; lia).
    apply Z.mod_unique_pos with (q := t + 1); lia.
  - rewrite Z.mod_small by (pow2s; lia).
    apply Z.mod_unique_pos with (q := t); lia.
Qed.

Lemma barrett_reduce_correct_witness :
  barrett_reduce 4000000000 3329 (2 ^ 32 / 3329) = 4000000000 mod 3329.
Proof.
  apply (barrett_reduce_correct 4000000000 3329);
    vm_compute; split; congruence.
Defined.

Lemma is_power_of_two_spec (x : Z) :
  0 <= x < 2 ^ 32 ->
  is_power_of_two x = true <-> exists k, 0 <= k < 32 /\ x = 2 ^ k.
Proof.
  intro Hx. unfold is_power_of_two. split.
  - intro H. apply andb_true_iff in H. destruct H as [Hland Hnz].
    apply Z.eqb_eq in Hland. apply negb_true_iff, Z.eqb_neq in Hnz.
    assert (Hpos : 0 < x) by lia.
    unfold u32 in Hland. rewrite Z.mod_small in Hland by lia.
    pose proof (Z.log2_spec x Hpos) as Hlog.
    pose proof (Z.log2_nonneg x) as Hk.
    exists (Z.log2 x). split.
    + split; [exact Hk|]. apply Z.log2_lt_pow2; lia.
    + destruct (Z.eq_dec x (2 ^ Z.log2 x)) as [E|NE]; [exact E|exfalso].
      assert (Hl : Z.log2 (x - 1) = Z.log2 x)
        by (apply Z.log2_unique; lia).
      assert (Hb : Z.testbit (Z.land x (x - 1)) (Z.log2 x) = true).
      { rewrite Z.land_spec, (Z.bit_log2 x Hpos).
        rewrite <- Hl. rewrite Z.bit_log2; [reflexivity|].
        pose proof (Z.pow_pos_nonneg 2 (Z.log2 x) ltac:(lia) Hk). lia. }
      rewrite Hland, Z.bits_0 in Hb. discriminate.
  - intros [k [Hk ->]].
    pose proof (Z.pow_pos_nonneg 2 k ltac:(lia) ltac:(lia)) as Hp.
    apply andb_true_iff. split.
    + apply Z.eqb_eq. unfold u32. rewrite Z.mod_small by lia.
      replace (2 ^ k - 1) with (Z.ones k)
        by (rewrite Z.ones_equiv; lia).
      rewrite Z.land_ones by lia. apply Z.mod_same. lia.
    + apply negb_true_iff, Z.eqb_neq. lia.
Qed.

(** X12. [is_power_of_two] decides what its name says on every 32-bit
    value: it answers true exactly for 1, 2, 4, ..., 2^31. *)
Theorem is_power_of_two_correct (x : Z) (Hx : 0 <= x < 2 ^ 32) :
  is_power_of_two x = true <-> exists k, 0 <= k < 32 /\ x = 2 ^ k.
Proof. exact (is_power_of_two_spec x Hx). Qed.

Lemma is_power_of_two_correct_witness :
  is_power_of_two 256 = true <-> exists k, 0 <= k < 32 /\ 256 = 2 ^ k.
Proof.
  apply (is_power_of_two_correct 256). vm_compute; split; congruence.
Defined.

End UtilsArithmetic.

(** ** The constructors of the NTT engines *)

Section EngineTables.
Import Utils.

Lemma coprime_mul (a b q : Z) :
  Z.gcd a q = 1 -> Z.gcd b q = 1 -> Z.gcd (a * b) q = 1.
Proof.
  intros Ha Hb.
  pose proof (Z.gcd_nonneg (a * b) q) as Hnn.
  pose proof (Z.gcd_divide_l (a * b) q) as Hl.
  pose proof (Z.gcd_divide_r (a * b) q) as Hr.
  set (g := Z.gcd (a * b) q) in *.
  assert (Hga : Z.gcd g a = 1).
  { apply Z.gcd_unique; [lia | apply Z.divide_1_l | apply Z.divide_1_l |].
    intros d Hdg Hda. rewrite <- Ha. apply Z.gcd_greatest; [exact Hda|].
    now apply Z.divide_trans with g. }
  assert (Hgb : (g | b)) by (apply Z.gauss with a; assumption).
  assert (Hg1 : (g | 1)).
  { rewrite <- Hb. now apply Z.gcd_greatest. }
  apply Z.divide_1_r_nonneg in Hg1; assumption.
Qed.

Lemma coprime_pow (a q : Z) (e : nat) :
  Z.gcd a q = 1 -> Z.gcd (a ^ Z.of_nat e) q = 1.
Proof.
  intro Ha. induction e as [|e IH].
  - cbn [Z.of_nat]. rewrite Z.pow_0_r. apply Z.gcd_1_l.
  - rewrite Nat2Z.inj_succ, Z.pow_succ_r by lia. now apply coprime_mul.
Qed.

Lemma coprime_residue (a q : Z) :
  1 < q -> Z.gcd a q = 1 -> 0 < a mod q < q /\ Z.gcd (a mod q) q = 1.
Proof.
  intros Hq Ha.
  assert (Hg : Z.gcd (a mod q) q = 1) by (rewrite Z.gcd_mod_l; exact Ha).
  split; [|exact Hg].
  pose proof (Z.mod_pos_bound a q ltac:(lia)) as Hb.
  destruct (Z.eq_dec (a mod q) 0) as [E|NE]; [|lia].
  rewrite E, Z.gcd_0_l, Z.abs_eq in Hg by lia. lia.
Qed.

Lemma odd_coprime_2 (q : Z) : Z.odd q = true -> Z.gcd 2 q = 1.
Proof.
  intro Hodd.
  pose proof (Z.gcd_nonneg 2 q) as Hnn.
  pose proof (Z.gcd_divide_l 2 q) as Hl.
  pose proof (Z.gcd_divide_r 2 q) as Hr.
  set (g := Z.gcd 2 q) in *.
  assert (Hle : g <= 2) by (apply Z.divide_pos_le; [lia | exact Hl]).
  assert (Hnz : g <> 0).
  { intros E. rewrite E in Hl. destruct Hl as [k Hk]. lia. }
  destruct (Z.eq_dec g 2) as [E|NE]; [|lia].
  rewrite E in Hr. destruct Hr as [k Hk].
  rewrite Hk, Z.mul_comm, Z.odd_mul, Bool.andb_false_l in Hodd.
  discriminate.
Qed.

Lemma powers_length len : forall cur zeta q,
    length (ScalarNTTEngine.powers len cur zeta q) = len.
Proof.
  induction len as [|len IH]; intros cur zeta q; cbn; [reflexivity|].
  now rewrite IH.
Qed.

Lemma powers_nth (zeta q : Z) (Hq : 1 < q) len :
  forall cur i,
    (i < len)%nat -> 0 <= cur < q ->
    nth i (ScalarNTTEngine.powers len cur zeta q) 0
    = (cur * zeta ^ Z.of_nat i) mod q.
Proof.
  induction len as [|len IH]; intros cur i Hi Hcur; [lia|].
  cbn [ScalarNTTEngine.powers].
  destruct i as [|i].
  - cbn [nth Z.of_nat]. rewrite Z.pow_0_r, Z.mul_1_r.
    symmetry. now apply Z.mod_small.
  - cbn [nth]. rewrite IH; [|lia|apply Z.mod_pos_bound; lia].
    rewrite Z.mul_mod_idemp_l by lia.
    rewrite Nat2Z.inj_succ, Z.pow_succ_r by lia. f_equal. ring.
Qed.

Lemma log_n_loop_spec fuel :
  forall temp log_n,
    0 <= temp < 2 ^ Z.of_nat fuel ->
    0 <= log_n -> log_n + Z.of_nat fuel < 2 ^ 32 ->
    NTTEngine.log_n_loop fuel temp log_n = log_n + Z.log2 temp.
Proof.
  induction fuel as [|fuel IH]; intros temp log_n Ht Hl Hb.
  - cbn [NTTEngine.log_n_loop]. change (2 ^ Z.of_nat 0) with 1 in Ht.
    replace temp with 0 by lia. cbn. lia.
  - cbn [NTTEngine.log_n_loop].
    destruct (Z.gtb_spec temp 1) as [Hgt|Hle].
    + assert (Hu : u32 (log_n + 1) = log_n + 1)
        by (apply Z.mod_small; lia).
      rewrite Hu, IH.
      * rewrite Z.log2_shiftr by lia.
        assert (1 <= Z.log2 temp).
        { change 1 with (Z.log2 2) at 1. apply Z.log2_le_mono. lia. }
        lia.
      * rewrite Z.shiftr_div_pow2 by lia. change (2 ^ 1) with 2.
        rewrite Nat2Z.inj_succ, Z.pow_succ_r in Ht by lia.
        split; [apply Z.div_pos; lia|].
        apply Z.div_lt_upper_bound; lia.
      * lia.
      * lia.
    + assert (Hc : temp = 0 \/ temp = 1) by lia.
      destruct Hc as [-> | ->]; cbn; lia.
Qed.

(** X13. The counting loop of the [NTTEngine] constructor computes
    [floor(log2 n)] for every 32-bit [n], so [2 ^ log_n_ = n] when [n]
    passed the power-of-two test before. *)
Theorem log_n_of_correct (n : Z) (Hn : 0 <= n < 2 ^ 32) :
  NTTEngine.log_n_of n = Z.log2 n
  /\ (is_power_of_two n = true -> 2 ^ NTTEngine.log_n_of n = n).
Proof.
  assert (E : NTTEngine.log_n_of n = Z.log2 n).
  { unfold NTTEngine.log_n_of. rewrite log_n_loop_spec.
    - lia.
    - exact Hn.
    - lia.
    - cbn. lia. }
  split; [exact E|]. intro Hp. rewrite E.
  apply (is_power_of_two_spec n Hn) in Hp. destruct Hp as [k [Hk ->]].
  rewrite Z.log2_pow2 by lia. reflexivity.
Qed.

Lemma log_n_of_correct_witness :
  NTTEngine.log_n_of 256 = Z.log2 256
  /\ (is_power_of_two 256 = true -> 2 ^ NTTEngine.log_n_of 256 = 256).
Proof.
  apply (log_n_of_correct 256). vm_compute; split; congruence.
Defined.

(** X14. The constructor of [ScalarNTTEngine] succeeds and fills its tables
    as intended for every odd 32-bit modulus [q > 1] coprime to 17 and
    every power of two [n]: [zetas_[i]] is the [i]-th power of
    [zeta = 17 ^ ((q - 1) / n)] modulo [q], [zetas_inv_[i]] is its inverse
    modulo [q], and [montgomery_r_inv_] is the inverse of
    [montgomery_r_ = 2^32 mod q]. *)
Theorem create_fills_tables (q n : Z)
        (Hq : 1 < q < 2 ^ 32) (Hodd : Z.odd q = true)
        (H17 : Z.gcd 17 q = 1)
        (Hn : 0 <= n < 2 ^ 32) (Hpow : is_power_of_two n = true) :
  exists e,
    ScalarNTTEngine.create q n = Some e
    /\ ScalarNTTEngine.q_ e = q /\ ScalarNTTEngine.n_ e = n
    /\ 2 ^ ScalarNTTEngine.log_n_ e = n
    /\ length (ScalarNTTEngine.zetas_ e) = Z.to_nat n
    /\ length (ScalarNTTEngine.zetas_inv_ e) = Z.to_nat n
    /\ ScalarNTTEngine.montgomery_r_ e = 2 ^ 32 mod q
    /\ (ScalarNTTEngine.montgomery_r_ e
        * ScalarNTTEngine.montgomery_r_inv_ e) mod q = 1
    /\ forall i, 0 <= i < n ->
         nth (Z.to_nat i) (ScalarNTTEngine.zetas_ e) 0
         = (17 ^ ((q - 1) / n)) ^ i mod q
         /\ (nth (Z.to_nat i) (ScalarNTTEngine.zetas_ e) 0
             * nth (Z.to_nat i) (ScalarNTTEngine.zetas_inv_ e) 0) mod q = 1.
Proof.
  pose proof (proj1 (is_power_of_two_spec n Hn) Hpow) as [k [Hk Hnk]].
  assert (Hnpos : 0 < n) by (rewrite Hnk; apply Z.pow_pos_nonneg; lia).
  set (ex := (q - 1) / n).
  assert (Hex : 0 <= ex < 2 ^ 32).
  { unfold ex. split; [apply Z.div_pos; lia|].
    apply Z.div_lt_upper_bound; nia. }
  assert (Hzeta : mod_pow 17 ex q = 17 ^ ex mod q)
    by (apply mod_pow_spec; lia).
  assert (Hcz : Z.gcd (17 ^ ex) q = 1).
  { rewrite <- (Z2Nat.id ex) by lia. now apply coprime_pow. }
  destruct (coprime_residue (17 ^ ex) q ltac:(lia) Hcz) as [Hzr Hzg].
  assert (Hcr : Z.gcd (2 ^ 32) q = 1).
  { change 32 with (Z.of_nat 32). apply coprime_pow.
    now apply odd_coprime_2. }
  destruct (coprime_residue (2 ^ 32) q ltac:(lia) Hcr) as [Hrr Hrg].
  destruct (mod_inverse_spec (2 ^ 32 mod q) q ltac:(lia) Hq Hrg)
    as [rinv [Hrinv [Hrb Hrm]]].
  destruct (mod_inverse_spec (17 ^ ex mod q) q ltac:(lia) Hq Hzg)
    as [zinv [Hzinv [Hzb Hzm]]].
  unfold ScalarNTTEngine.create. rewrite Hpow. cbn [negb].
  rewrite Hrinv. cbn [obind]. fold ex. rewrite Hzeta, Hzinv. cbn [obind].
  eexists. split; [reflexivity|].
  cbn [ScalarNTTEngine.q_ ScalarNTTEngine.n_ ScalarNTTEngine.log_n_
       ScalarNTTEngine.zetas_ ScalarNTTEngine.zetas_inv_
       ScalarNTTEngine.montgomery_r_ ScalarNTTEngine.montgomery_r_inv_].
  rewrite !powers_length.
  repeat split; try reflexivity.
  - rewrite Hnk at 1. rewrite Z.log2_pow2 by lia. symmetry. exact Hnk.
  - exact Hrm.
  - rewrite powers_nth by lia. rewrite Z2Nat.id by lia.
    rewrite Z.mul_1_l. apply Z.mod_pow_l.
  - rewrite !powers_nth by lia. rewrite Z2Nat.id by lia.
    rewrite !Z.mul_1_l. rewrite <- Z.mul_mod by lia.
    rewrite <- Z.pow_mul_l.
    rewrite <- Z.mod_pow_l. rewrite Hzm.
    rewrite Z.pow_1_l by lia. apply Z.mod_small. lia.
Qed.

Lemma create_fills_tables_witness :
  exists e,
    ScalarNTTEngine.create 3329 256 = Some e
    /\ ScalarNTTEngine.q_ e = 3329 /\ ScalarNTTEngine.n_ e = 256
    /\ 2 ^ ScalarNTTEngine.log_n_ e = 256
    /\ length (ScalarNTTEngine.zetas_ e) = Z.to_nat 256
    /\ length (ScalarNTTEngine.zetas_inv_ e) = Z.to_nat 256
    /\ ScalarNTTEngine.montgomery_r_ e = 2 ^ 32 mod 3329
    /\ (ScalarNTTEngine.montgomery_r_ e
        * ScalarNTTEngine.montgomery_r_inv_ e) mod 3329 = 1
    /\ forall i, 0 <= i < 256 ->
         nth (Z.to_nat i) (ScalarNTTEngine.zetas_ e) 0
         = (17 ^ ((3329 - 1) / 256)) ^ i mod 3329
         /\ (nth (Z.to_nat i) (ScalarNTTEngine.zetas_ e) 0
             * nth (Z.to_nat i) (ScalarNTTEngine.zetas_inv_ e) 0)
            mod 3329 = 1.
Proof.
  apply (create_fills_tables 3329 256);
    [vm_compute; split; congruence | reflexivity | reflexivity
    | vm_compute; split; congruence | reflexivity].
Defined.

End EngineTables.

(** ** The bit-reversal table of [NTTEngine] *)

Section BitReversal.
Import NTTEngine.

Lemma bitrev_term_testbit (L i j b : Z) :
  0 <= j < L -> L <= 32 -> 0 <= b ->
  Z.testbit (u32 (Z.shiftl (Z.land (Z.shiftr i j) 1) (L - 1 - j))) b
  = (b =? L - 1 - j) && Z.testbit i j.
Proof.
  intros Hj HL Hb. unfold u32.
  rewrite Z.testbit_mod_pow2 by lia.
  rewrite Z.shiftl_spec by lia. rewrite Z.land_spec.
  assert (H1 : forall c, Z.testbit 1 c = (0 =? c))
    by (intro c; apply (Z.pow2_bits_eqb 0); lia).
  rewrite H1.
  destruct (Z.eqb_spec b (L - 1 - j)) as [E|NE].
  - replace (b - (L - 1 - j)) with 0 by lia.
    rewrite Z.shiftr_spec by lia. cbn [Z.eqb Z.add].
    destruct (Z.ltb_spec b 32); [|lia].
    now rewrite andb_true_r.
  - destruct (Z.eqb_spec 0 (b - (L - 1 - j))); [lia|].
    now rewrite andb_false_r, andb_false_r.
Qed.

Lemma bitrev_fold_testbit (L i b : Z) (HL : L <= 32) (Hb : 0 <= b) js :
  forall acc,
    (forall j, In j js -> 0 <= j < L) ->
    Z.testbit
      (fold_left
         (fun rev j =>
            Z.lor rev
                  (u32 (Z.shiftl (Z.land (Z.shiftr i j) 1) (L - 1 - j))))
         js acc) b
    = Z.testbit acc b
      || existsb (fun j => (b =? L - 1 - j) && Z.testbit i j) js.
Proof.
  induction js as [|j js IH]; intros acc Hjs.
  - cbn. now rewrite orb_false_r.
  - cbn [fold_left existsb]. rewrite IH by (intros; apply Hjs; now right).
    rewrite Z.lor_spec, bitrev_term_testbit by (try lia; apply Hjs; now left).
    now rewrite orb_assoc.
Qed.

Lemma bitrev_of_testbit (L i b : Z) :
  0 <= L <= 32 -> 0 <= b ->
  Z.testbit (bitrev_of L i) b = (b <? L) && Z.testbit i (L - 1 - b).
Proof.
  intros HL Hb. unfold bitrev_of.
  rewrite bitrev_fold_testbit by (try lia; intros j Hj; now apply upto_In).
  rewrite Z.bits_0, orb_false_l.
  apply eq_true_iff_eq. rewrite existsb_exists, andb_true_iff, Z.ltb_lt.
  split.
  - intros [j [Hin Hj]]. apply upto_In in Hin.
    apply andb_true_iff in Hj. destruct Hj as [Hbj Hbit].
    apply Z.eqb_eq in Hbj. split; [lia|].
    now replace (L - 1 - b) with j by lia.
  - intros [Hlt Hbit]. exists (L - 1 - b). split.
    + apply upto_In. lia.
    + apply andb_true_iff. split; [apply Z.eqb_eq; lia | exact Hbit].
Qed.

Lemma bitrev_of_range (L i : Z) :
  0 <= L <= 32 -> 0 <= bitrev_of L i < 2 ^ L.
Proof.
  intro HL.
  assert (E : bitrev_of L i = bitrev_of L i mod 2 ^ L).
  { apply Z.bits_inj'. intros b Hb.
    rewrite Z.testbit_mod_pow2, bitrev_of_testbit by lia.
    now destruct (b <? L). }
  rewrite E. apply Z.mod_pos_bound. apply Z.pow_pos_nonneg; lia.
Qed.

Lemma bitrev_of_involutive (L i : Z) :
  0 <= L <= 32 -> 0 <= i < 2 ^ L -> bitrev_of L (bitrev_of L i) = i.
Proof.
  intros HL Hi.
  rewrite <- (Z.mod_small i (2 ^ L)) at 2 by exact Hi.
  apply Z.bits_inj'. intros b Hb.
  rewrite Z.testbit_mod_pow2, bitrev_of_testbit by lia.
  destruct (Z.ltb_spec b L) as [Hlt|Hge]; [|reflexivity].
  cbn [andb]. rewrite bitrev_of_testbit by lia.
  destruct (Z.ltb_spec (L - 1 - b) L); [|lia].
  cbn [andb]. f_equal. lia.
Qed.

(** X15. The table built by [precompute_bitrev] reverses the [log_n_] low
    bits: bit [b] of [bitrev_[i]] is bit [log_n_ - 1 - b] of [i].  Hence
    every entry lies below [2 ^ log_n_], and reversing twice gives the
    index back. *)
Theorem bitrev_reverses_bits (L i : Z)
        (HL : 0 <= L <= 32) (Hi : 0 <= i < 2 ^ L) :
  (forall b, 0 <= b ->
             Z.testbit (bitrev_of L i) b
             = (b <? L) && Z.testbit i (L - 1 - b))
  /\ 0 <= bitrev_of L i < 2 ^ L
  /\ bitrev_of L (bitrev_of L i) = i
  /\ nth (Z.to_nat i) (precompute_bitrev (2 ^ L) L) 0 = bitrev_of L i.
Proof.
  split; [intros b Hb; now apply bitrev_of_testbit|].
  split; [now apply bitrev_of_range|].
  split; [now apply bitrev_of_involutive|].
  unfold precompute_bitrev, upto. rewrite map_map.
  rewrite nth_indep with (d' := bitrev_of L (Z.of_nat 0)).
  2:{ rewrite length_map, length_seq. lia. }
  rewrite (map_nth (fun x => bitrev_of L (Z.of_nat x))).
  rewrite seq_nth by lia. f_equal. lia.
Qed.

Lemma bitrev_reverses_bits_witness :
  (forall b, 0 <= b ->
             Z.testbit (bitrev_of 8 6) b
             = (b <? 8) && Z.testbit 6 (8 - 1 - b))
  /\ 0 <= bitrev_of 8 6 < 2 ^ 8
  /\ bitrev_of 8 (bitrev_of 8 6) = 6
  /\ nth (Z.to_nat 6) (precompute_bitrev (2 ^ 8) 8) 0 = bitrev_of 8 6.
Proof.
  apply (bitrev_reverses_bits 8 6); vm_compute; split; congruence.
Defined.

Lemma set_nth_length {A} (v : list A) : forall i x,
    length (set_nth v i x) = length v.
Proof.
  induction v as [|hd tl IH]; intros [|i] x; cbn; auto.
Qed.

Lemma nth_set_nth_eq {A} (v : list A) : forall i x d,
    (i < length v)%nat -> nth i (set_nth v i x) d = x.
Proof.
  induction v as [|hd tl IH]; intros [|i] x d Hi; cbn in *; try lia; auto.
  apply IH. lia.
Qed.

Lemma nth_set_nth_neq {A} (v : list A) : forall i j x d,
    i <> j -> nth j (set_nth v i x) d = nth j v d.
Proof.
  induction v as [|hd tl IH]; intros [|i] [|j] x d Hij; cbn;
    try reflexivity; try lia.
  apply IH. lia.
Qed.

Section Scatter.
Variable sigma : Z -> nat.
Variable p : Z -> Z.

Lemma scatter_length l : forall init,
    length (fold_left (fun temp i => set_nth temp (sigma i) (p i)) l init)
    = length init.
Proof.
  induction l as [|y l IH]; intro init; [reflexivity|].
  cbn [fold_left]. now rewrite IH, set_nth_length.
Qed.

Lemma scatter_untouched l : forall init k,
    (forall z, In z l -> sigma z <> k) ->
    nth k (fold_left (fun temp i => set_nth temp (sigma i) (p i)) l init) 0
    = nth k init 0.
Proof.
  induction l as [|y l IH]; intros init k Hk; [reflexivity|].
  cbn [fold_left].
  rewrite IH by (intros; apply Hk; now right).
  apply nth_set_nth_neq. apply Hk. now left.
Qed.

Lemma scatter_nth l : forall init,
    NoDup (map sigma l) ->
    (forall x, In x l -> (sigma x < length init)%nat) ->
    forall x, In x l ->
      nth (sigma x)
          (fold_left (fun temp i => set_nth temp (sigma i) (p i)) l init) 0
      = p x.
Proof.
  induction l as [|y l IH]; intros init Hnd Hlt x Hin; [destruct Hin|].
  cbn [map] in Hnd. apply NoDup_cons_iff in Hnd. destruct Hnd as [Hy Hnd].
  cbn [fold_left].
  destruct (in_dec Z.eq_dec x l) as [Hxl|Hxl].
  - apply IH; [exact Hnd | | exact Hxl].
    intros z Hz. rewrite set_nth_length. apply Hlt. now right.
  - destruct Hin as [->|Hin]; [|contradiction].
    rewrite scatter_untouched.
    + apply nth_set_nth_eq. apply Hlt. now left.
    + intros z Hz E. apply Hy. rewrite <- E. now apply in_map.
Qed.

End Scatter.

Lemma upto_NoDup n : NoDup (upto n).
Proof.
  unfold upto. apply NoDup_map_NoDup_ForallPairs; [|apply seq_NoDup].
  intros x y _ _ E. lia.
Qed.

Lemma bit_reverse_nth (L : Z) (poly : list Z) (i : Z) :
  0 <= L < 32 -> 0 <= i < 2 ^ L ->
  nth (Z.to_nat (bitrev_of L i))
      (bit_reverse (2 ^ L) (precompute_bitrev (2 ^ L) L) poly) 0
  = nth (Z.to_nat i) poly 0.
Proof.
  intros HL Hi.
  assert (Htbl : forall x, 0 <= x < 2 ^ L ->
                   nth (Z.to_nat x) (precompute_bitrev (2 ^ L) L) 0
                   = bitrev_of L x).
  { intros x Hx. unfold precompute_bitrev, upto. rewrite map_map.
    rewrite nth_indep with (d' := bitrev_of L (Z.of_nat 0)).
    2:{ rewrite length_map, length_seq. lia. }
    rewrite (map_nth (fun y => bitrev_of L (Z.of_nat y))).
    rewrite seq_nth by lia. f_equal. lia. }
  unfold bit_reverse.
  rewrite <- (Htbl i Hi).
  apply (scatter_nth
           (fun i => Z.to_nat (nth (Z.to_nat i)
                                   (precompute_bitrev (2 ^ L) L) 0))
           (fun i => nth (Z.to_nat i) poly 0)).
  - apply NoDup_map_NoDup_ForallPairs; [|apply upto_NoDup].
    intros x y Hx Hy E. apply upto_In in Hx, Hy.
    rewrite !Htbl in E by assumption.
    pose proof (bitrev_of_range L x ltac:(lia)).
    pose proof (bitrev_of_range L y ltac:(lia)).
    apply Z2Nat.inj in E; try lia.
    rewrite <- (bitrev_of_involutive L x), <- (bitrev_of_involutive L y)
      by (try lia; assumption).
    now rewrite E.
  - intros x Hx. apply upto_In in Hx. rewrite Htbl by assumption.
    rewrite repeat_length.
    pose proof (bitrev_of_range L x ltac:(lia)). lia.
  - apply upto_In. exact Hi.
Qed.

Lemma bit_reverse_length (n : Z) (bitrev poly : list Z) :
  length (bit_reverse n bitrev poly) = Z.to_nat n.
Proof.
  unfold bit_reverse.
  rewrite (scatter_length
             (fun i => Z.to_nat (nth (Z.to_nat i) bitrev 0))
             (fun i => nth (Z.to_nat i) poly 0)).
  apply repeat_length.
Qed.

(** X16. [bit_reverse] is the permutation its table describes, and it is
    its own inverse: on an array of [n = 2 ^ log_n_] coefficients, slot
    [bitrev_[i]] of the result holds [poly[i]], no slot is written twice,
    and applying [bit_reverse] a second time gives the array back. *)
Theorem bit_reverse_involutive (L : Z) (poly : list Z)
        (HL : 0 <= L < 32) (Hlen : length poly = Z.to_nat (2 ^ L)) :
  let n := 2 ^ L in
  let bitrev := precompute_bitrev n L in
  length (bit_reverse n bitrev poly) = length poly
  /\ (forall i, 0 <= i < n ->
                nth (Z.to_nat (bitrev_of L i)) (bit_reverse n bitrev poly) 0
                = nth (Z.to_nat i) poly 0)
  /\ bit_reverse n bitrev (bit_reverse n bitrev poly) = poly.
Proof.
  cbv zeta.
  split; [now rewrite bit_reverse_length|].
  split; [intros i Hi; now apply bit_reverse_nth|].
  apply nth_ext with (d := 0) (d' := 0).
  - now rewrite bit_reverse_length.
  - intros k Hk. rewrite bit_reverse_length in Hk.
    assert (Hj : 0 <= Z.of_nat k < 2 ^ L) by lia.
    pose proof (bitrev_of_range L (Z.of_nat k) ltac:(lia)) as Hr.
    rewrite <- (Nat2Z.id k) at 1.
    rewrite <- (bitrev_of_involutive L (Z.of_nat k)) at 1
      by (try lia; assumption).
    rewrite bit_reverse_nth by (try lia; assumption).
    rewrite bit_reverse_nth by (try lia; assumption).
    now rewrite Nat2Z.id.
Qed.

Lemma bit_reverse_involutive_witness :
  let poly := [10; 11; 12; 13; 14; 15; 16; 17] in
  let n := 2 ^ 3 in
  let bitrev := precompute_bitrev n 3 in
  length (bit_reverse n bitrev poly) = length poly
  /\ (forall i, 0 <= i < n ->
                nth (Z.to_nat (bitrev_of 3 i)) (bit_reverse n bitrev poly) 0
                = nth (Z.to_nat i) poly 0)
  /\ bit_reverse n bitrev (bit_reverse n bitrev poly) = poly.
Proof.
  apply (bit_reverse_involutive 3 [10; 11; 12; 13; 14; 15; 16; 17]);
    [vm_compute; split; congruence | reflexivity].
Defined.

End BitReversal.

(** ** The two samplers *)

Section Samplers.

Lemma u64_add_idemp x i : u64 (u64 x + i) = u64 (x + i).
Proof. unfold u64. apply Zplus_mod_idemp_l. Qed.

Lemma map_upto_app {A} (f : Z -> A) a b :
  0 <= a -> 0 <= b ->
  map f (upto (a + b)) = map f (upto a) ++ map (fun i => f (a + i)) (upto b).
Proof.
  intros Ha Hb. rewrite upto_app by assumption.
  now rewrite map_app, map_map.
Qed.

(** X17. Squeezing is positional for both samplers.  On a sampler whose
    state is not empty (an initialised one: with an empty state [squeeze]
    divides by [state_.size() = 0]), the bytes of one call of length
    [a + b] are those of a call of length [a] followed by a call of length
    [b]; every call returns as many bytes as asked, each below 256, and
    leaves the state bytes as they were. *)
Theorem squeeze_splits (s : Sampler) (a b : Z)
        (Hstate : state_ s <> []) (Ha : 0 <= a) (Hb : 0 <= b) :
  (let '(x, s1) := SHAKE128Sampler.squeeze s a in
   let '(y, s2) := SHAKE128Sampler.squeeze s1 b in
   SHAKE128Sampler.squeeze s (a + b) = (x ++ y, s2)
   /\ length x = Z.to_nat a /\ Forall (fun v => 0 <= v < 256) x
   /\ state_ s1 = state_ s)
  /\ (let '(x, s1) := SHAKE256Sampler.squeeze s a in
      let '(y, s2) := SHAKE256Sampler.squeeze s1 b in
      SHAKE256Sampler.squeeze s (a + b) = (x ++ y, s2)
      /\ length x = Z.to_nat a /\ Forall (fun v => 0 <= v < 256) x
      /\ state_ s1 = state_ s).
Proof.
  split.
  - unfold SHAKE128Sampler.squeeze. cbn [state_ position_].
    split; [|split; [|split]].
    + f_equal.
      * rewrite map_upto_app by assumption. f_equal.
        apply map_ext. intro i. now rewrite u64_add_idemp, Z.add_assoc.
      * f_equal. now rewrite u64_add_idemp, Z.add_assoc.
    + now rewrite length_map, upto_length.
    + apply Forall_forall. intros v Hv. apply in_map_iff in Hv.
      destruct Hv as [i [<- _]]. unfold SHAKE128Sampler.byte_at.
      apply u8_range.
    + reflexivity.
  - unfold SHAKE256Sampler.squeeze. cbn [state_ position_].
    split; [|split; [|split]].
    + f_equal.
      * rewrite map_upto_app by assumption. f_equal.
        apply map_ext. intro i. now rewrite u64_add_idemp, Z.add_assoc.
      * f_equal. now rewrite u64_add_idemp, Z.add_assoc.
    + now rewrite length_map, upto_length.
    + apply Forall_forall. intros v Hv. apply in_map_iff in Hv.
      destruct Hv as [i [<- _]]. unfold SHAKE256Sampler.byte_at.
      apply u8_range.
    + reflexivity.
Qed.

Lemma squeeze_splits_witness :
  (let '(x, s1) := SHAKE128Sampler.squeeze (mkSampler [1; 2; 3] 5) 3 in
   let '(y, s2) := SHAKE128Sampler.squeeze s1 4 in
   SHAKE128Sampler.squeeze (mkSampler [1; 2; 3] 5) (3 + 4) = (x ++ y, s2)
   /\ length x = Z.to_nat 3 /\ Forall (fun v => 0 <= v < 256) x
   /\ state_ s1 = state_ (mkSampler [1; 2; 3] 5))
  /\ (let '(x, s1) := SHAKE256Sampler.squeeze (mkSampler [1; 2; 3] 5) 3 in
      let '(y, s2) := SHAKE256Sampler.squeeze s1 4 in
      SHAKE256Sampler.squeeze (mkSampler [1; 2; 3] 5) (3 + 4) = (x ++ y, s2)
      /\ length x = Z.to_nat 3 /\ Forall (fun v => 0 <= v < 256) x
      /\ state_ s1 = state_ (mkSampler [1; 2; 3] 5)).
Proof.
  apply (squeeze_splits (mkSampler [1; 2; 3] 5) 3 4); discriminate.
Defined.

(** X18. The stream of the SHAKE128 stand-in repeats: the byte at position
    [pos + 65536 * |state|] is the byte at position [pos], because only the
    two low bytes of the block counter enter the mixing. *)
Theorem shake128_stream_is_periodic (state : list Z) (pos : Z)
        (Hstate : state <> []) (Hpos : 0 <= pos) :
  SHAKE128Sampler.byte_at state (pos + 65536 * Z.of_nat (length state))
  = SHAKE128Sampler.byte_at state pos.
Proof.
  unfold SHAKE128Sampler.byte_at.
  set (size := Z.of_nat (length state)).
  assert (Hsize : 0 < size).
  { unfold size. destruct state; [contradiction | cbn [length]; lia]. }
  cbv zeta.
  rewrite Z.mod_add by lia. rewrite Z.div_add by lia.
  set (c := pos / size).
  assert (E1 : Z.land (u32 (c + 65536)) 255 = Z.land (u32 c) 255).
  { rewrite !land_255_mod. unfold u32. pow2s.
    Z.div_mod_to_equations. lia. }
  assert (E2 : Z.land (Z.shiftr (u32 (c + 65536)) 8) 255
               = Z.land (Z.shiftr (u32 c) 8) 255).
  { rewrite !shiftr_land_255 by lia. unfold u32. pow2s.
    Z.div_mod_to_equations. lia. }
  now rewrite E1, E2.
Qed.

Lemma shake128_stream_is_periodic_witness :
  SHAKE128Sampler.byte_at [7; 8; 9] (4 + 65536 * Z.of_nat (length [7; 8; 9]))
  = SHAKE128Sampler.byte_at [7; 8; 9] 4.
Proof.
  apply (shake128_stream_is_periodic [7; 8; 9] 4); discriminate.
Defined.

Lemma binomial_round_spec (r : Z) (s : Sampler) :
  state_ (snd (SHAKE256Sampler.binomial_round (r, s))) = state_ s
  /\ position_ (snd (SHAKE256Sampler.binomial_round (r, s)))
     = u64 (position_ s + 2)
  /\ (fst (SHAKE256Sampler.binomial_round (r, s)) = r - 2
      \/ fst (SHAKE256Sampler.binomial_round (r, s)) = r
      \/ fst (SHAKE256Sampler.binomial_round (r, s)) = r + 2).
Proof.
  unfold SHAKE256Sampler.binomial_round, SHAKE256Sampler.squeeze.
  cbn [state_ position_ fst snd].
  split; [reflexivity|]. split.
  - rewrite u64_add_idemp. f_equal. lia.
  - destruct (Z.land _ 1 =? 0); destruct (Z.land _ 1 =? 0); lia.
Qed.

Lemma binomial_fold_spec (l : list Z) :
  forall r s,
    let out :=
      fold_left (fun acc _ => SHAKE256Sampler.binomial_round acc) l (r, s) in
    state_ (snd out) = state_ s
    /\ u64 (position_ (snd out))
       = u64 (position_ s + 2 * Z.of_nat (length l))
    /\ Z.abs (fst out - r) <= 2 * Z.of_nat (length l)
    /\ Z.even (fst out - r) = true.
Proof.
  induction l as [|x l IH]; intros r s; cbv zeta.
  - cbn [fold_left length Z.of_nat fst snd].
    rewrite Z.mul_0_r, Z.add_0_r, Z.sub_diag.
    repeat split; try reflexivity; try (cbn; lia).
  - cbn [fold_left].
    pose proof (binomial_round_spec r s) as [Hst [Hpos Hr]].
    destruct (SHAKE256Sampler.binomial_round (r, s)) as [r1 s1].
    cbn [fst snd] in Hst, Hpos, Hr.
    specialize (IH r1 s1). cbv zeta in IH.
    destruct IH as [IHst [IHpos [IHabs IHeven]]].
    set (out := fold_left _ l (r1, s1)) in *.
    cbn [length]. rewrite Nat2Z.inj_succ.
    split; [congruence|]. split; [|split].
    + rewrite IHpos, Hpos. rewrite u64_add_idemp. f_equal. lia.
    + lia.
    + replace (fst out - r) with ((fst out - r1) + (r1 - r)) by lia.
      rewrite Z.even_add, IHeven.
      destruct Hr as [-> | [-> | ->]].
      * now replace (r - 2 - r) with (-2) by lia.
      * now replace (r - r) with 0 by lia.
      * now replace (r + 2 - r) with 2 by lia.
Qed.

Lemma sample_binomial_coefficient_spec (s : Sampler) (eta : Z) :
  0 <= eta ->
  let out := SHAKE256Sampler.sample_binomial_coefficient s eta in
  state_ (snd out) = state_ s
  /\ u64 (position_ (snd out)) = u64 (position_ s + 2 * eta)
  /\ - (2 * eta) <= fst out <= 2 * eta
  /\ Z.even (fst out) = true.
Proof.
  intro Heta. cbv zeta. unfold SHAKE256Sampler.sample_binomial_coefficient.
  pose proof (binomial_fold_spec (upto eta) 0 s) as H. cbv zeta in H.
  rewrite upto_length, Z2Nat.id, Z.sub_0_r in H by lia.
  destruct H as [Hst [Hpos [Habs Heven]]].
  repeat split; try assumption; lia.
Qed.

(** X19. [sample_binomial_coefficient(eta)] adds [2 * eta] signs, one per
    squeezed byte: its result is even and lies in [-2 eta, 2 eta] (not in
    [-eta, eta]), the state bytes are untouched and the position moves on
    by [2 * eta]. *)
Theorem binomial_coefficient_range (s : Sampler) (eta : Z)
        (Heta : 0 <= eta) (Hpos : 0 <= position_ s < 2 ^ 64) :
  let '(r, s') := SHAKE256Sampler.sample_binomial_coefficient s eta in
  - (2 * eta) <= r <= 2 * eta
  /\ Z.even r = true
  /\ state_ s' = state_ s
  /\ position_ s' = u64 (position_ s + 2 * eta).
Proof.
  pose proof (sample_binomial_coefficient_spec s eta Heta) as H.
  cbv zeta in H.
  assert (Hp : position_ (snd (SHAKE256Sampler.sample_binomial_coefficient
                                 s eta))
               = u64 (position_
                        (snd (SHAKE256Sampler.sample_binomial_coefficient
                                s eta)))).
  { destruct (Z.eq_dec eta 0) as [E|NE].
    - subst eta. cbn [SHAKE256Sampler.sample_binomial_coefficient].
      change (upto 0) with (@nil Z). cbn [fold_left snd].
      unfold u64. now rewrite Z.mod_small.
    - unfold SHAKE256Sampler.sample_binomial_coefficient.
      replace eta with ((eta - 1) + 1) by lia.
      rewrite upto_succ by lia. rewrite fold_left_app. cbn [fold_left].
      destruct (fold_left _ (upto (eta - 1)) (0, s)) as [r1 s1].
      pose proof (binomial_round_spec r1 s1) as [_ [Hq _]].
      rewrite Hq. unfold u64. now rewrite Z.mod_mod by lia. }
  destruct (SHAKE256Sampler.sample_binomial_coefficient s eta) as [r s'].
  cbn [fst snd] in H, Hp. destruct H as [Hst [Hpo [Hr He]]].
  repeat split; try assumption; try lia.
Qed.

Lemma binomial_coefficient_range_witness :
  let '(r, s') :=
    SHAKE256Sampler.sample_binomial_coefficient
      (SHAKE256Sampler.init zero_seed) 2 in
  - (2 * 2) <= r <= 2 * 2
  /\ Z.even r = true
  /\ state_ s' = state_ (SHAKE256Sampler.init zero_seed)
  /\ position_ s' = u64 (position_ (SHAKE256Sampler.init zero_seed) + 2 * 2).
Proof.
  apply (binomial_coefficient_range (SHAKE256Sampler.init zero_seed) 2);
    [discriminate | vm_compute; split; congruence].
Defined.

Lemma lift_sample_mod (p : CLWEParameters) (r : Z) :
  0 < modulus p < 2 ^ 31 -> - 2 ^ 31 <= r < 2 ^ 31 ->
  ColorKEM.lift_sample p r = r mod modulus p.
Proof.
  intros Hq Hr. unfold ColorKEM.lift_sample. cbv zeta.
  set (q := modulus p) in *.
  assert (Hs : s32 q = q).
  { unfold s32, u32. rewrite Z.mod_small by (pow2s; lia).
    destruct (Z.ltb_spec q (2 ^ 31)); [reflexivity | lia]. }
  change (2 ^ 31) with 2147483648 in *.
  rewrite Hs.
  pose proof (Z.rem_bound_abs r q ltac:(lia)) as Hb.
  assert (Hrange : 0 <= Z.rem r q + q < 2 ^ 32) by (pow2s; lia).
  pose proof (Z.quot_rem' r q) as Hqr.
  unfold u32. rewrite (Z.mod_small (Z.rem r q + q) (2 ^ 32)) by exact Hrange.
  replace (Z.rem r q + q) with (r + (1 - Z.quot r q) * q) by nia.
  apply Z.mod_add. lia.
Qed.

Lemma even_small_cases (r : Z) :
  - 4 <= r <= 4 -> Z.even r = true ->
  r = -4 \/ r = -2 \/ r = 0 \/ r = 2 \/ r = 4.
Proof.
  intros Hr He.
  assert (H : r = -4 \/ r = -3 \/ r = -2 \/ r = -1 \/ r = 0
              \/ r = 1 \/ r = 2 \/ r = 3 \/ r = 4) by lia.
  repeat (destruct H as [-> | H]); try discriminate; try lia.
Qed.

Lemma sample_colors_Forall (P : ColorValue.t -> Prop) (p : CLWEParameters) :
  (forall r, - (2 * eta p) <= r <= 2 * eta p -> Z.even r = true ->
             P (ColorValue.from_precise_value (ColorKEM.lift_sample p r))) ->
  0 <= eta p ->
  forall s, Forall P (ColorKEM.sample_colors p s).
Proof.
  intros HP Heta s. unfold ColorKEM.sample_colors.
  assert (G : forall l acc s0,
             Forall P acc ->
             Forall P
               (fst (fold_left
                       (fun (st : list ColorValue.t * Sampler) (_ : Z) =>
                          let '(acc, sampler) := st in
                          let '(sample, sampler) :=
                            SHAKE256Sampler.sample_binomial_coefficient
                              sampler (eta p) in
                          (acc ++ [ColorValue.from_precise_value
                                     (ColorKEM.lift_sample p sample)],
                           sampler))
                       l (acc, s0)))).
  { induction l as [|x l IH]; intros acc s0 Hacc; [exact Hacc|].
    cbn [fold_left].
    pose proof (sample_binomial_coefficient_spec s0 (eta p) Heta) as H.
    cbv zeta in H.
    destruct (SHAKE256Sampler.sample_binomial_coefficient s0 (eta p))
      as [r s1].
    cbn [fst snd] in H. destruct H as [_ [_ [Hr He]]].
    apply IH. apply Forall_app. split; [exact Hacc|].
    constructor; [|constructor]. now apply HP. }
  apply G. constructor.
Qed.

(** X20. What the noise looks like once it is a colour.  Every colour of a
    secret or error vector is [from_precise_value] of a residue
    [r mod q] with [r] even and [|r| <= 2 eta]; being written from a value
    below 2^32 it survives [colors_to_bytes] and [parse_colors].  For the
    three parameter sets ([q = 3329], [eta = 2]) the precise value of a
    noise colour is one of 0, 2, 4, 253, 255: the negative samples -4 and
    -2 come out as 253 and 255, the low bytes of [q - 4] and [q - 2]. *)
Theorem noise_colors_are_small (p : CLWEParameters) (s : Sampler)
        (Hq : 0 < modulus p < 2 ^ 31) (Heta : 0 <= eta p < 2 ^ 29) :
  Forall (fun c => exists r,
              - (2 * eta p) <= r <= 2 * eta p /\ Z.even r = true
              /\ c = ColorValue.from_precise_value (r mod modulus p))
         (ColorKEM.sample_colors p s)
  /\ ColorKEM.parse_colors
       (ColorKEM.colors_to_bytes (ColorKEM.sample_colors p s))
     = ColorKEM.sample_colors p s
  /\ forall lvl,
       Forall (fun c => In (ColorValue.to_precise_value c)
                           [0; 2; 4; 253; 255])
              (ColorKEM.sample_colors (CLWEParameters_of lvl) s).
Proof.
  split; [|split].
  - apply sample_colors_Forall; [|lia].
    intros r Hr He. exists r. repeat split; try assumption; try lia.
    rewrite lift_sample_mod
      by (change (2 ^ 31) with 2147483648 in *;
          change (2 ^ 29) with 536870912 in *; lia).
    reflexivity.
  - assert (H32 : Forall precise32 (ColorKEM.sample_colors p s)).
    { apply sample_colors_Forall; [|lia].
      intros r Hr He. exists (ColorKEM.lift_sample p r). split; [|reflexivity].
      change (2 ^ 31) with 2147483648 in *.
      change (2 ^ 29) with 536870912 in *.
      rewrite lift_sample_mod
        by (change (2 ^ 31) with 2147483648 in *; lia).
      pose proof (Z.mod_pos_bound r (modulus p) ltac:(lia)). pow2s. lia. }
    rewrite parse_colors_colors_to_bytes.
    + rewrite <- (map_id (ColorKEM.sample_colors p s)) at 2.
      apply map_ext_in. intros c Hc. apply precise32_codec_image.
      rewrite Forall_forall in H32. now apply H32.
    + eapply Forall_impl; [|exact H32]. apply precise32_byte_color.
  - intro lvl. apply sample_colors_Forall.
    + intros r Hr He.
      assert (Heta2 : eta (CLWEParameters_of lvl) = 2).
      { unfold CLWEParameters_of.
        destruct (lvl =? 128); [reflexivity|].
        destruct (lvl =? 192); [reflexivity|].
        destruct (lvl =? 256); reflexivity. }
      rewrite Heta2 in Hr.
      rewrite lift_sample_mod
        by (rewrite ?CLWEParameters_of_modulus;
            change (2 ^ 31) with 2147483648; lia).
      rewrite CLWEParameters_of_modulus.
      destruct (even_small_cases r ltac:(lia) He)
        as [-> | [-> | [-> | [-> | ->]]]]; vm_compute; tauto.
    + unfold CLWEParameters_of.
      destruct (lvl =? 128); [cbn; lia|].
      destruct (lvl =? 192); [cbn; lia|].
      destruct (lvl =? 256); cbn; lia.
Qed.

Lemma noise_colors_are_small_witness :
  let p := CLWEParameters_of 128 in
  let s := SHAKE256Sampler.init zero_seed in
  Forall (fun c => exists r,
              - (2 * eta p) <= r <= 2 * eta p /\ Z.even r = true
              /\ c = ColorValue.from_precise_value (r mod modulus p))
         (ColorKEM.sample_colors p s)
  /\ ColorKEM.parse_colors
       (ColorKEM.colors_to_bytes (ColorKEM.sample_colors p s))
     = ColorKEM.sample_colors p s
  /\ forall lvl,
       Forall (fun c => In (ColorValue.to_precise_value c)
                           [0; 2; 4; 253; 255])
              (ColorKEM.sample_colors (CLWEParameters_of lvl) s).
Proof.
  apply (noise_colors_are_small (CLWEParameters_of 128)
           (SHAKE256Sampler.init zero_seed));
    vm_compute; split; congruence.
Defined.

Lemma lift_formula (q r : Z) :
  0 < q < 2 ^ 31 -> - 2 ^ 31 <= r < 2 ^ 31 ->
  u32 (Z.rem r (s32 q) + q) mod q = r mod q.
Proof.
  intros Hq Hr.
  exact (lift_sample_mod (mkParams 0 0 0 q 0 0) r Hq Hr).
Qed.

Lemma sample_polynomial_fold (P : Z -> Prop) (eta q : Z) :
  0 <= eta ->
  (forall r, - (2 * eta) <= r <= 2 * eta -> Z.even r = true ->
             P (u32 (Z.rem r (s32 q) + q) mod q)) ->
  forall l acc s0,
    let out :=
      fold_left
        (fun (st : list Z * Sampler) (_ : Z) =>
           let '(coeffs, s) := st in
           let '(sample, s) :=
             SHAKE256Sampler.sample_binomial_coefficient s eta in
           (coeffs ++ [u32 (Z.rem sample (s32 q) + q) mod q], s))
        l (acc, s0) in
    length (fst out) = (length acc + length l)%nat
    /\ (Forall P acc -> Forall P (fst out))
    /\ state_ (snd out) = state_ s0.
Proof.
  intros Heta HP.
  induction l as [|x l IH]; intros acc s0; cbv zeta.
  - cbn [fold_left fst snd length]. rewrite Nat.add_0_r. auto.
  - cbn [fold_left].
    pose proof (sample_binomial_coefficient_spec s0 eta Heta) as H.
    cbv zeta in H.
    destruct (SHAKE256Sampler.sample_binomial_coefficient s0 eta)
      as [r s1].
    cbn [fst snd] in H. destruct H as [Hst [_ [Hr He]]].
    specialize (IH (acc ++ [u32 (Z.rem r (s32 q) + q) mod q]) s1).
    cbv zeta in IH. destruct IH as [IHlen [IHP IHst]].
    split; [|split].
    + rewrite IHlen, length_app. cbn [length]. lia.
    + intro Hacc. apply IHP. apply Forall_app. split; [exact Hacc|].
      constructor; [|constructor]. now apply HP.
    + congruence.
Qed.

(** X21. The free function [sample_polynomial_binomial] always returns:
    it draws 32 values from [std::random_device] and writes [degree]
    coefficients, each the residue in [0, q) of an even sample [r] with
    [|r| <= 2 eta], so a negative sample [-r] is stored as [q - r]. *)
Theorem sample_polynomial_binomial_residues
        (degree eta q : Z) (h : Host)
        (Hdeg : 0 <= degree) (Heta : 0 <= eta < 2 ^ 29)
        (Hq : 0 < q < 2 ^ 31) :
  exists coeffs,
    sample_polynomial_binomial degree eta q h = Some (coeffs, skip_rd h 32)
    /\ coeffs
       = fst (SHAKE256Sampler.sample_polynomial_binomial
                (SHAKE256Sampler.init (rd_bytes h 32)) degree eta q)
    /\ length coeffs = Z.to_nat degree
    /\ Forall (fun c => 0 <= c < q
                        /\ exists r, - (2 * eta) <= r <= 2 * eta
                                     /\ Z.even r = true /\ c = r mod q)
              coeffs.
Proof.
  eexists. split; [|split; [reflexivity|]].
  - unfold sample_polynomial_binomial, bind.
    rewrite (generate_rd_byte 32 h). reflexivity.
  - unfold SHAKE256Sampler.sample_polynomial_binomial.
    pose proof (sample_polynomial_fold
                  (fun c => 0 <= c < q
                            /\ exists r, - (2 * eta) <= r <= 2 * eta
                                         /\ Z.even r = true /\ c = r mod q)
                  eta q ltac:(lia)) as H.
    assert (HP : forall r, - (2 * eta) <= r <= 2 * eta ->
                           Z.even r = true ->
                           0 <= u32 (Z.rem r (s32 q) + q) mod q < q
                           /\ exists r0, - (2 * eta) <= r0 <= 2 * eta
                                         /\ Z.even r0 = true
                                         /\ u32 (Z.rem r (s32 q) + q) mod q
                                            = r0 mod q).
    { intros r Hr He.
      assert (Hr31 : - 2 ^ 31 <= r < 2 ^ 31)
        by (change (2 ^ 31) with 2147483648;
            change (2 ^ 29) with 536870912 in Heta; lia).
      rewrite (lift_formula q r Hq Hr31).
      split; [apply Z.mod_pos_bound; lia|].
      exists r. auto. }
    specialize (H HP (upto degree) []
                  (SHAKE256Sampler.init (rd_bytes h 32))).
    cbv zeta in H. destruct H as [Hlen [HF _]].
    split.
    + rewrite Hlen, upto_length. reflexivity.
    + apply HF. constructor.
Qed.

Lemma sample_polynomial_binomial_residues_witness :
  exists coeffs,
    sample_polynomial_binomial 256 2 3329 host_zeros
    = Some (coeffs, skip_rd host_zeros 32)
    /\ coeffs
       = fst (SHAKE256Sampler.sample_polynomial_binomial
                (SHAKE256Sampler.init (rd_bytes host_zeros 32)) 256 2 3329)
    /\ length coeffs = Z.to_nat 256
    /\ Forall (fun c => 0 <= c < 3329
                        /\ exists r, - (2 * 2) <= r <= 2 * 2
                                     /\ Z.even r = true /\ c = r mod 3329)
              coeffs.
Proof.
  apply (sample_polynomial_binomial_residues 256 2 3329 host_zeros);
    vm_compute; try split; congruence.
Defined.

(** X22. [SHAKE256Sampler::init] always leaves a 32-byte state at position
    0 that starts with the seed: a seed of 32 bytes or more is cut to its
    first 32 bytes, so what follows them never reaches the stream; a
    shorter seed is padded.  [SHAKE128Sampler::init] keeps the whole
    seed. *)
Theorem shake256_init_state (seed : list Z) (Hseed : seed <> []) :
  length (state_ (SHAKE256Sampler.init seed)) = 32%nat
  /\ position_ (SHAKE256Sampler.init seed) = 0
  /\ firstn (length seed) (state_ (SHAKE256Sampler.init seed))
     = firstn 32 seed
  /\ ((32 <= length seed)%nat ->
      SHAKE256Sampler.init seed = mkSampler (firstn 32 seed) 0)
  /\ SHAKE128Sampler.init seed = mkSampler seed 0.
Proof.
  unfold SHAKE256Sampler.init, SHAKE128Sampler.init.
  cbn [state_ position_].
  set (pad := map _ (map _ (upto (32 - Z.min (Z.of_nat (length seed)) 32)))).
  assert (Hpad : length pad
                 = Z.to_nat (32 - Z.min (Z.of_nat (length seed)) 32))
    by (unfold pad; now rewrite !length_map, upto_length).
  split; [|split; [reflexivity|split; [|split; [|reflexivity]]]].
  - rewrite length_app, length_firstn, Hpad. lia.
  - destruct (Nat.le_gt_cases (length seed) 32) as [Hle|Hgt].
    + rewrite (firstn_all2 (n := 32) seed) by exact Hle.
      rewrite firstn_app, Nat.sub_diag, firstn_all. cbn [firstn].
      now rewrite app_nil_r.
    + assert (E : pad = []).
      { destruct pad; [reflexivity|]. cbn [length] in Hpad. lia. }
      rewrite E, app_nil_r. apply firstn_all2.
      rewrite length_firstn. lia.
  - intro H32.
    assert (E : pad = []).
    { destruct pad; [reflexivity|]. cbn [length] in Hpad. lia. }
    now rewrite E, app_nil_r.
Qed.

Lemma shake256_init_state_witness :
  length (state_ (SHAKE256Sampler.init [5; 6; 7])) = 32%nat
  /\ position_ (SHAKE256Sampler.init [5; 6; 7]) = 0
  /\ firstn (length [5; 6; 7]) (state_ (SHAKE256Sampler.init [5; 6; 7]))
     = firstn 32 [5; 6; 7]
  /\ ((32 <= length [5; 6; 7])%nat ->
      SHAKE256Sampler.init [5; 6; 7] = mkSampler (firstn 32 [5; 6; 7]) 0)
  /\ SHAKE128Sampler.init [5; 6; 7] = mkSampler [5; 6; 7] 0.
Proof.
  apply (shake256_init_state [5; 6; 7]). discriminate.
Defined.

End Samplers.

(** ** Inside the colour KEM *)

Section InsideKEM.
Import ColorKEM.

Lemma at_nth {A} (v : list A) (i : Z) (d : A) :
  0 <= i < Z.of_nat (length v) -> at_ v i = Some (nth (Z.to_nat i) v d).
Proof.
  intro Hi. unfold at_.
  replace ((0 <=? i) && (i <? Z.of_nat (length v))) with true
    by (symmetry; apply andb_true_iff; split;
        [apply Z.leb_le | apply Z.ltb_lt]; lia).
  apply nth_error_nth'. lia.
Qed.

Lemma dot_step_exact (p : CLWEParameters) (acc x y : Z) :
  0 < modulus p < 2 ^ 32 -> 0 <= acc < modulus p ->
  0 <= x < 2 ^ 32 -> 0 <= y < 2 ^ 32 ->
  dot_step p acc x y = (acc + x * y) mod modulus p.
Proof.
  intros Hq Hacc Hx Hy. unfold dot_step, u64. pow2s.
  assert (0 <= x * y <= 4294967295 * 4294967295) by nia.
  rewrite (Z.mod_small (x * y)) by lia.
  rewrite (Z.mod_small (acc + x * y)) by lia. reflexivity.
Qed.

Lemma inner_product_fold (p : CLWEParameters) (x y : list ColorValue.t) :
  0 < modulus p < 2 ^ 32 ->
  (forall i, 0 <= i < module_rank p ->
             i < Z.of_nat (length x) /\ i < Z.of_nat (length y)
             /\ 0 <= precise_at x i < 2 ^ 32
             /\ 0 <= precise_at y i < 2 ^ 32) ->
  forall l S,
    (forall i, In i l -> 0 <= i < module_rank p) ->
    fold_left
      (fun (acc : option Z) i =>
         sum <-? acc ;;
         xi <-? at_ x i ;;
         yi <-? at_ y i ;;
         Some (dot_step p sum (ColorValue.to_precise_value xi)
                        (ColorValue.to_precise_value yi)))
      l (Some (S mod modulus p))
    = Some (fold_left (fun acc i => acc + precise_at x i * precise_at y i)
                      l S mod modulus p).
Proof.
  intros Hq Hv. induction l as [|i l IH]; intros S Hl; [reflexivity|].
  cbn [fold_left obind].
  destruct (Hv i (Hl i (or_introl eq_refl))) as [Hix [Hiy [Hxr Hyr]]].
  pose proof (Hl i (or_introl eq_refl)) as Hi.
  rewrite (at_nth x i ColorValue.default) by lia.
  rewrite (at_nth y i ColorValue.default) by lia.
  cbn [obind]. fold (precise_at x i). fold (precise_at y i).
  rewrite dot_step_exact;
    [|exact Hq | apply Z.mod_pos_bound; lia | exact Hxr | exact Hyr].
  rewrite Z.add_mod_idemp_l by lia.
  apply IH. intros j Hj. apply Hl. now right.
Qed.

(** X23. [inner_product] (the loop shared by [encrypt_message] and
    [decrypt_message]) is the inner product modulo [q] of the precise
    values: on vectors of at least [k] colours whose precise values fit 32
    bits, no 64-bit product or sum wraps and the result is
    [(x_0 y_0 + ... + x_{k-1} y_{k-1}) mod q]. *)
Theorem inner_product_is_modular_sum
        (p : CLWEParameters) (x y : list ColorValue.t)
        (Hq : 0 < modulus p < 2 ^ 32)
        (Hx : module_rank p <= Z.of_nat (length x))
        (Hy : module_rank p <= Z.of_nat (length y))
        (Hx32 : forall i, 0 <= i < module_rank p ->
                          0 <= precise_at x i < 2 ^ 32)
        (Hy32 : forall i, 0 <= i < module_rank p ->
                          0 <= precise_at y i < 2 ^ 32) :
  inner_product p x y
  = Some (sum_upto (fun i => precise_at x i * precise_at y i)
                   (module_rank p) mod modulus p)
  /\ 0 <= sum_upto (fun i => precise_at x i * precise_at y i)
                   (module_rank p) mod modulus p < modulus p.
Proof.
  split; [|apply Z.mod_pos_bound; lia].
  unfold inner_product, sum_upto.
  change (Some 0) with (Some (0 mod modulus p)).
  apply inner_product_fold; [exact Hq | | intros i Hi; now apply upto_In].
  intros i Hi.
  split; [lia|]. split; [lia|]. split; [now apply Hx32 | now apply Hy32].
Qed.

Lemma inner_product_is_modular_sum_witness :
  let p := CLWEParameters_of 128 in
  let x := [ColorValue.from_precise_value 3000;
            ColorValue.from_precise_value 5] in
  let y := [ColorValue.from_precise_value 7;
            ColorValue.from_precise_value 255] in
  inner_product p x y
  = Some (sum_upto (fun i => precise_at x i * precise_at y i)
                   (module_rank p) mod modulus p)
  /\ 0 <= sum_upto (fun i => precise_at x i * precise_at y i)
                   (module_rank p) mod modulus p < modulus p.
Proof.
  cbv zeta.
  apply (inner_product_is_modular_sum (CLWEParameters_of 128)
           [ColorValue.from_precise_value 3000;
            ColorValue.from_precise_value 5]
           [ColorValue.from_precise_value 7;
            ColorValue.from_precise_value 255]).
  - vm_compute; split; congruence.
  - vm_compute; congruence.
  - vm_compute; congruence.
  - intros i Hi. change (module_rank (CLWEParameters_of 128)) with 2 in Hi.
    assert (E : i = 0 \/ i = 1) by lia.
    destruct E as [-> | ->]; vm_compute; split; congruence.
  - intros i Hi. change (module_rank (CLWEParameters_of 128)) with 2 in Hi.
    assert (E : i = 0 \/ i = 1) by lia.
    destruct E as [-> | ->]; vm_compute; split; congruence.
Defined.

Lemma store_entry_last (p : CLWEParameters) (coeffs : list Z) :
  1 <= degree p ->
  store_entry p coeffs
  = ColorValue.from_precise_value (nth (Z.to_nat (degree p - 1)) coeffs 0).
Proof.
  intro Hn. unfold store_entry.
  replace (degree p) with ((degree p - 1) + 1) at 1 by lia.
  rewrite upto_succ by lia. rewrite fold_left_app. reflexivity.
Qed.

(** X24. What [generate_matrix_A] keeps of its sampling.  For every 32-byte
    seed the matrix is the [k] by [k] table whose entry [(i, j)] is the
    single colour [from_precise_value] of the 256th accepted candidate of
    the stream seeded with [seed, i, j]: the store loop writes all 256
    coefficients to the same slot, and the last one stays. *)
Theorem matrix_entry_is_last_coefficient
        (lvl : Z) (seed : list Z) (fuel : nat)
        (Hseed : length seed = 32%nat) (Hfuel : (544 <= fuel)%nat) :
  let p := CLWEParameters_of lvl in
  generate_matrix_A p fuel seed
  = Some (map (fun i =>
                 map (fun j =>
                        ColorValue.from_precise_value
                          (nth 255 (accepted 3329 (seed ++ [u8 i; u8 j]) 544)
                               0))
                     (upto (module_rank p)))
              (upto (module_rank p))).
Proof.
  intro p. unfold generate_matrix_A.
  apply mapM_opt_map. intros i _.
  apply mapM_opt_map. intros j _.
  unfold p. rewrite (sample_entry_returns lvl seed i j fuel Hseed Hfuel).
  cbn [obind]. f_equal.
  rewrite store_entry_last
    by (rewrite CLWEParameters_of_degree; lia).
  rewrite CLWEParameters_of_degree. f_equal.
  change (Z.to_nat (256 - 1)) with 255%nat.
  rewrite nth_firstn. reflexivity.
Qed.

Lemma matrix_entry_is_last_coefficient_witness :
  let p := CLWEParameters_of 128 in
  generate_matrix_A p 544 zero_seed
  = Some (map (fun i =>
                 map (fun j =>
                        ColorValue.from_precise_value
                          (nth 255
                               (accepted 3329 (zero_seed ++ [u8 i; u8 j]) 544)
                               0))
                     (upto (module_rank p)))
              (upto (module_rank p))).
Proof.
  exact (matrix_entry_is_last_coefficient 128 zero_seed 544 eq_refl
           (Nat.le_refl 544)).
Defined.

(** X25. [encapsulate] expands the matrix from the seed of the public key
    and then makes no use of it: two public keys with the same
    [public_data] and any two 32-byte seeds give the same ciphertext, the
    same shared secret and leave the host in the same state. *)
Theorem encapsulate_ignores_matrix_seed
        (lvl : Z) (fuel : nat) (seed1 seed2 data : list Z)
        (p1 p2 : CLWEParameters) (h : Host)
        (Hseed1 : length seed1 = 32%nat) (Hseed2 : length seed2 = 32%nat)
        (Hfuel : (544 <= fuel)%nat) :
  encapsulate (CLWEParameters_of lvl) fuel (mkPublicKey seed1 data p1) h
  = encapsulate (CLWEParameters_of lvl) fuel (mkPublicKey seed2 data p2) h.
Proof.
  destruct (generate_matrix_A_returns lvl seed1 fuel Hseed1 Hfuel)
    as [A1 HA1].
  destruct (generate_matrix_A_returns lvl seed2 fuel Hseed2 Hfuel)
    as [A2 HA2].
  unfold encapsulate, bind. rewrite (rand_draw h).
  cbn [seed public_data]. rewrite HA1, HA2. cbn [lift].
  rewrite (encrypt_message_draws (CLWEParameters_of lvl) A1
             (parse_colors data) _ (skip_rand h 1)).
  rewrite (encrypt_message_draws (CLWEParameters_of lvl) A2
             (parse_colors data) _ (skip_rand h 1)).
  reflexivity.
Qed.

Lemma encapsulate_ignores_matrix_seed_witness :
  encapsulate (CLWEParameters_of 128) 544
              (mkPublicKey zero_seed [1; 2; 3; 4; 5; 6; 7; 8]
                           (CLWEParameters_of 128)) host_ones
  = encapsulate (CLWEParameters_of 128) 544
                (mkPublicKey (repeat 9 32) [1; 2; 3; 4; 5; 6; 7; 8]
                             (CLWEParameters_of 256)) host_ones.
Proof.
  exact (encapsulate_ignores_matrix_seed 128 544 zero_seed (repeat 9 32)
           [1; 2; 3; 4; 5; 6; 7; 8] (CLWEParameters_of 128)
           (CLWEParameters_of 256) host_ones eq_refl eq_refl
           (Nat.le_refl 544)).
Defined.

Lemma noise_of_precise32 (lvl : Z) (h : Host) :
  Forall precise32 (noise_of (CLWEParameters_of lvl) h).
Proof.
  unfold noise_of. apply sample_colors_Forall.
  - intros r Hr He. exists (lift_sample (CLWEParameters_of lvl) r).
    split; [|reflexivity].
    unfold lift_sample. rewrite CLWEParameters_of_modulus.
    pose proof (Z.mod_pos_bound
                  (u32 (Z.rem r (s32 3329) + 3329)) 3329 ltac:(lia)).
    pow2s. lia.
  - unfold CLWEParameters_of.
    destruct (lvl =? 128); [cbn; lia|].
    destruct (lvl =? 192); [cbn; lia|].
    destruct (lvl =? 256); cbn; lia.
Qed.

Lemma keygen_explicit (lvl : Z) (fuel : nat) (h : Host) :
  (544 <= fuel)%nat ->
  let p := CLWEParameters_of lvl in
  exists t,
    keygen p fuel h
    = Some ((mkPublicKey (rd_bytes h 32) (colors_to_bytes t) p,
             mkPrivateKey (colors_to_bytes (noise_of p (skip_rd h 32))) p),
            skip_rand (skip_rand (skip_rd h 32) 32) 32)
    /\ length t = Z.to_nat (module_rank p).
Proof.
  intros Hfuel p.
  assert (Hseed : length (rd_bytes h 32) = 32%nat)
    by (unfold rd_bytes; now rewrite length_map, length_seq).
  destruct (generate_matrix_A_returns lvl (rd_bytes h 32) fuel Hseed Hfuel)
    as [A HA]. fold p in HA.
  destruct (generate_matrix_A_shape p fuel _ A HA) as [HlenA HrowsA].
  set (s := noise_of p (skip_rd h 32)).
  set (e := noise_of p (skip_rand (skip_rd h 32) 32)).
  destruct (generate_public_key_some p A s e HlenA HrowsA
              (sample_colors_length p _) (sample_colors_length p _))
    as [t [Ht Hlen]].
  exists t. split; [|exact Hlen].
  unfold keygen, bind. rewrite (generate_rd_byte 32 h). rewrite HA.
  cbn [lift].
  rewrite (generate_secret_key_draws p (skip_rd h 32)).
  rewrite (generate_error_vector_draws p (skip_rand (skip_rd h 32) 32)).
  fold (noise_of p (skip_rd h 32)).
  fold (noise_of p (skip_rand (skip_rd h 32) 32)).
  fold s. fold e. rewrite Ht. reflexivity.
Qed.

(** X26. The keys [keygen] returns.  For every host and each of the
    parameter sets, [keygen] returns a public key whose seed is the 32
    bytes drawn from [random_device] and whose data has [4k] bytes, and a
    private key that is the secret vector in the clear: parsing its bytes
    gives back the [k] noise colours sampled from the first 32 draws of
    [rand()].  Both keys carry the parameters of the KEM. *)
Theorem keygen_private_key_is_secret_vector
        (lvl : Z) (fuel : nat) (h : Host) (Hfuel : (544 <= fuel)%nat) :
  let p := CLWEParameters_of lvl in
  exists pk sk h',
    keygen p fuel h = Some ((pk, sk), h')
    /\ seed pk = rd_bytes h 32
    /\ Z.of_nat (length (public_data pk)) = 4 * module_rank p
    /\ parse_colors (secret_data sk)
       = sample_colors p (SHAKE256Sampler.init
                            (rand_bytes (skip_rd h 32) 32))
    /\ pk_params pk = p /\ sk_params sk = p
    /\ verify_keypair pk sk = true.
Proof.
  intro p.
  pose proof (CLWEParameters_of_rank lvl) as Hk. fold p in Hk.
  destruct (keygen_explicit lvl fuel h Hfuel) as [t [Hkg Hlen]].
  fold p in Hkg, Hlen.
  eexists. eexists. eexists. split; [exact Hkg|].
  cbn [seed public_data secret_data pk_params sk_params].
  split; [reflexivity|]. split.
  { rewrite colors_to_bytes_length, Hlen. lia. }
  split.
  { pose proof (noise_of_precise32 lvl (skip_rd h 32)) as H32. fold p in H32.
    rewrite parse_colors_colors_to_bytes
      by (eapply Forall_impl; [|exact H32]; apply precise32_byte_color).
    fold (noise_of p (skip_rd h 32)).
    rewrite <- (map_id (noise_of p (skip_rd h 32))) at 2.
    apply map_ext_in. intros c Hc. apply precise32_codec_image.
    rewrite Forall_forall in H32. now apply H32. }
  split; [reflexivity|]. split; [reflexivity|].
  unfold verify_keypair. cbn [pk_params sk_params].
  now rewrite !Z.eqb_refl.
Qed.

Lemma keygen_private_key_is_secret_vector_witness :
  let p := CLWEParameters_of 128 in
  exists pk sk h',
    keygen p 544 host_ones = Some ((pk, sk), h')
    /\ seed pk = rd_bytes host_ones 32
    /\ Z.of_nat (length (public_data pk)) = 4 * module_rank p
    /\ parse_colors (secret_data sk)
       = sample_colors p (SHAKE256Sampler.init
                            (rand_bytes (skip_rd host_ones 32) 32))
    /\ pk_params pk = p /\ sk_params sk = p
    /\ verify_keypair pk sk = true.
Proof.
  exact (keygen_private_key_is_secret_vector 128 544 host_ones
           (Nat.le_refl 544)).
Defined.

(** X27. [verify_keypair] compares two parameter fields and no key
    material.  It accepts every pair of parsed keys, whatever their bytes,
    since both parse routines stamp [CLWEParameters(128)]; and it accepts
    the public key of one [keygen] with the private key of any other
    [keygen] of the same parameter set. *)
Theorem verify_keypair_reads_no_key_material
        (indeterminate pk_bytes sk_bytes : list Z) :
  verify_keypair (ColorPublicKey_deserialize indeterminate pk_bytes)
                 (ColorPrivateKey_deserialize sk_bytes) = true
  /\ forall lvl fuel h1 h2,
       (544 <= fuel)%nat ->
       exists pk1 sk1 h1' pk2 sk2 h2',
         keygen (CLWEParameters_of lvl) fuel h1 = Some ((pk1, sk1), h1')
         /\ keygen (CLWEParameters_of lvl) fuel h2 = Some ((pk2, sk2), h2')
         /\ verify_keypair pk1 sk2 = true.
Proof.
  split.
  - unfold ColorPublicKey_deserialize, ColorPrivateKey_deserialize.
    destruct (32 <=? Z.of_nat (length pk_bytes)); reflexivity.
  - intros lvl fuel h1 h2 Hfuel.
    destruct (keygen_explicit lvl fuel h1 Hfuel) as [t1 [Hk1 _]].
    destruct (keygen_explicit lvl fuel h2 Hfuel) as [t2 [Hk2 _]].
    do 6 eexists. split; [exact Hk1|]. split; [exact Hk2|].
    unfold verify_keypair. cbn [pk_params sk_params].
    now rewrite !Z.eqb_refl.
Qed.

End InsideKEM.

(** ** Arithmetic on colours *)

Section ColourArithmetic.

(** X28. The modular operations of [ColorValue] are arithmetic modulo [q]
    on math values: for a modulus of at most 2^31 and two colours whose
    math values are below it, [mod_add], [mod_subtract] and [mod_multiply]
    return the colours of [(x + y) mod q], [(x - y) mod q] and
    [(x * y) mod q] without any wrap-around, and adding back what was
    subtracted gives the first colour again. *)
Theorem mod_operations_are_modular
        (c d : ColorValue.t) (q : Z)
        (Hc : byte_color c) (Hd : byte_color d)
        (Hq : 0 < q <= 2 ^ 31)
        (Hcq : ColorValue.to_math_value c < q)
        (Hdq : ColorValue.to_math_value d < q) :
  let x := ColorValue.to_math_value c in
  let y := ColorValue.to_math_value d in
  ColorValue.mod_add c d q
  = Some (ColorValue.from_math_value ((x + y) mod q))
  /\ ColorValue.mod_subtract c d q
     = Some (ColorValue.from_math_value ((x - y) mod q))
  /\ ColorValue.mod_multiply c d q
     = Some (ColorValue.from_math_value ((x * y) mod q))
  /\ ColorValue.mod_add
       (ColorValue.from_math_value ((x - y) mod q)) d q
     = Some c.
Proof.
  cbv zeta.
  pose proof (to_math_value_range c Hc) as Hx.
  pose proof (to_math_value_range d Hd) as Hy.
  pose proof (from_to_math_value c Hc) as Hback.
  set (x := ColorValue.to_math_value c) in *.
  set (y := ColorValue.to_math_value d) in *.
  change (2 ^ 31) with 2147483648 in Hq. pow2s.
  assert (Hqnz : (q =? 0) = false) by (apply Z.eqb_neq; lia).
  split; [|split; [|split]].
  - unfold ColorValue.mod_add. rewrite Hqnz. fold x y.
    unfold u32. pow2s. rewrite (Z.mod_small (x + y)) by lia. reflexivity.
  - unfold ColorValue.mod_subtract. rewrite Hqnz. fold x y.
    destruct (Z.geb_spec x y) as [Hge|Hlt]; [reflexivity|].
    unfold u32. pow2s. rewrite (Z.mod_small (x + q - y)) by lia.
    f_equal. f_equal.
    replace (x + q - y) with (x - y + 1 * q) by lia.
    apply Z.mod_add. lia.
  - unfold ColorValue.mod_multiply. rewrite Hqnz. fold x y.
    unfold u64, u32. pow2s.
    assert (0 <= x * y <= 2147483648 * 2147483648) by nia.
    rewrite (Z.mod_small (x * y)) by lia.
    pose proof (Z.mod_pos_bound (x * y) q ltac:(lia)).
    rewrite (Z.mod_small ((x * y) mod q)) by lia. reflexivity.
  - unfold ColorValue.mod_add. rewrite Hqnz. fold y.
    pose proof (Z.mod_pos_bound (x - y) q ltac:(lia)) as He.
    rewrite to_from_math_value by (pow2s; lia).
    unfold u32. pow2s. rewrite (Z.mod_small ((x - y) mod q + y)) by lia.
    rewrite Z.add_mod_idemp_l by lia.
    replace (x - y + y) with x by lia.
    rewrite (Z.mod_small x) by lia. now rewrite Hback.
Qed.

Lemma mod_operations_are_modular_witness :
  let c := ColorValue.from_math_value 3000 in
  let d := ColorValue.from_math_value 3300 in
  let x := ColorValue.to_math_value c in
  let y := ColorValue.to_math_value d in
  ColorValue.mod_add c d 3329
  = Some (ColorValue.from_math_value ((x + y) mod 3329))
  /\ ColorValue.mod_subtract c d 3329
     = Some (ColorValue.from_math_value ((x - y) mod 3329))
  /\ ColorValue.mod_multiply c d 3329
     = Some (ColorValue.from_math_value ((x * y) mod 3329))
  /\ ColorValue.mod_add
       (ColorValue.from_math_value ((x - y) mod 3329)) d 3329
     = Some c.
Proof.
  apply (mod_operations_are_modular
           (ColorValue.from_math_value 3000)
           (ColorValue.from_math_value 3300) 3329);
    try apply from_math_value_byte_color;
    vm_compute; try split; congruence.
Defined.

Lemma sat_byte x y :
  0 <= x < 256 -> 0 <= y < 256 ->
  u8 (Z.min 255 (x + y)) = Z.min 255 (x + y).
Proof. intros Hx Hy. apply u8_small. lia. Qed.

Lemma sat_assoc x y z :
  0 <= x < 256 -> 0 <= y < 256 -> 0 <= z < 256 ->
  u8 (Z.min 255 (u8 (Z.min 255 (x + y)) + z))
  = u8 (Z.min 255 (x + u8 (Z.min 255 (y + z)))).
Proof.
  intros Hx Hy Hz.
  rewrite (sat_byte x y Hx Hy), (sat_byte y z Hy Hz).
  f_equal. lia.
Qed.

Lemma scale_byte x y :
  0 <= x < 256 -> 0 <= y < 256 ->
  u8 (x * y / 255) = x * y / 255 /\ 0 <= x * y / 255 < 256.
Proof.
  intros Hx Hy.
  assert (H : 0 <= x * y / 255 < 256).
  { split; [apply Z.div_pos; nia|].
    apply Z.div_lt_upper_bound; nia. }
  split; [now apply u8_small | exact H].
Qed.

(** X29. The channel-wise operations of [color_ops] on byte colours.
    [add_colors] is a saturating sum (each channel is [min(255, x + y)]);
    it is commutative and associative.  [multiply_colors] scales each
    channel by [y / 255], is commutative and has the colour
    (255, 255, 255, 255) as its unit.  Both return byte colours, and
    [mod_reduce_color] is idempotent. *)
Theorem color_ops_channelwise
        (a b c : ColorValue.t) (q : Z)
        (Ha : byte_color a) (Hb : byte_color b) (Hc : byte_color c)
        (Hq : 0 < q) :
  color_ops.add_colors a b
  = ColorValue.mk (Z.min 255 (ColorValue.r a + ColorValue.r b))
                  (Z.min 255 (ColorValue.g a + ColorValue.g b))
                  (Z.min 255 (ColorValue.b a + ColorValue.b b))
                  (Z.min 255 (ColorValue.a a + ColorValue.a b))
  /\ byte_color (color_ops.add_colors a b)
  /\ color_ops.add_colors a b = color_ops.add_colors b a
  /\ color_ops.add_colors (color_ops.add_colors a b) c
     = color_ops.add_colors a (color_ops.add_colors b c)
  /\ byte_color (color_ops.multiply_colors a b)
  /\ color_ops.multiply_colors a b = color_ops.multiply_colors b a
  /\ color_ops.multiply_colors a (ColorValue.mk 255 255 255 255) = a
  /\ exists c1, color_ops.mod_reduce_color c q = Some c1
                /\ color_ops.mod_reduce_color c1 q = Some c1.
Proof.
  destruct a as [ar ag ab aa], b as [br bg bb ba], c as [cr cg cb ca].
  destruct Ha as (Har & Hag & Hab & Haa).
  destruct Hb as (Hbr & Hbg & Hbb & Hba).
  pose proof Hc as (Hcr & Hcg & Hcb & Hca).
  cbn [ColorValue.r ColorValue.g ColorValue.b ColorValue.a] in *.
  unfold color_ops.add_colors, color_ops.multiply_colors, byte_color.
  cbn [ColorValue.r ColorValue.g ColorValue.b ColorValue.a].
  pose proof (sat_byte ar br Har Hbr) as S1.
  pose proof (sat_byte ag bg Hag Hbg) as S2.
  pose proof (sat_byte ab bb Hab Hbb) as S3.
  pose proof (sat_byte aa ba Haa Hba) as S4.
  split; [now rewrite S1, S2, S3, S4|].
  split; [rewrite S1, S2, S3, S4; lia|].
  split; [f_equal; f_equal; f_equal; apply Z.add_comm|].
  split; [f_equal; apply sat_assoc; assumption|].
  destruct (scale_byte ar br Har Hbr) as [E1 R1].
  destruct (scale_byte ag bg Hag Hbg) as [E2 R2].
  destruct (scale_byte ab bb Hab Hbb) as [E3 R3].
  destruct (scale_byte aa ba Haa Hba) as [E4 R4].
  split; [rewrite E1, E2, E3, E4; tauto|].
  split; [f_equal; f_equal; f_equal; apply Z.mul_comm|].
  split.
  { rewrite !Z.div_mul by lia. rewrite !u8_small by lia. reflexivity. }
  unfold color_ops.mod_reduce_color.
  assert (Hqnz : (q =? 0) = false) by (apply Z.eqb_neq; lia).
  rewrite Hqnz. eexists. split; [reflexivity|].
  pose proof (to_math_value_range (ColorValue.mk cr cg cb ca) Hc) as Hv.
  pose proof (Z.mod_pos_bound
                (ColorValue.to_math_value (ColorValue.mk cr cg cb ca)) q Hq)
    as Hm.
  assert (Hle : ColorValue.to_math_value (ColorValue.mk cr cg cb ca) mod q
                <= ColorValue.to_math_value (ColorValue.mk cr cg cb ca))
    by (apply Z.mod_le; lia).
  rewrite to_from_math_value by lia.
  now rewrite Z.mod_mod by lia.
Qed.

Lemma color_ops_channelwise_witness :
  let a := ColorValue.mk 200 100 50 255 in
  let b := ColorValue.mk 100 100 100 100 in
  let c := ColorValue.mk 1 2 3 4 in
  color_ops.add_colors a b
  = ColorValue.mk (Z.min 255 (ColorValue.r a + ColorValue.r b))
                  (Z.min 255 (ColorValue.g a + ColorValue.g b))
                  (Z.min 255 (ColorValue.b a + ColorValue.b b))
                  (Z.min 255 (ColorValue.a a + ColorValue.a b))
  /\ byte_color (color_ops.add_colors a b)
  /\ color_ops.add_colors a b = color_ops.add_colors b a
  /\ color_ops.add_colors (color_ops.add_colors a b) c
     = color_ops.add_colors a (color_ops.add_colors b c)
  /\ byte_color (color_ops.multiply_colors a b)
  /\ color_ops.multiply_colors a b = color_ops.multiply_colors b a
  /\ color_ops.multiply_colors a (ColorValue.mk 255 255 255 255) = a
  /\ exists c1, color_ops.mod_reduce_color c 3329 = Some c1
                /\ color_ops.mod_reduce_color c1 3329 = Some c1.
Proof.
  apply (color_ops_channelwise
           (ColorValue.mk 200 100 50 255) (ColorValue.mk 100 100 100 100)
           (ColorValue.mk 1 2 3 4) 3329);
    vm_compute; intuition congruence.
Defined.

End ColourArithmetic.

(** ** Coefficients carried as colours *)

Section ColourEngine.
Import ColorNTTEngine.

Lemma map_nth_upto {A B} (f : A -> B) (l : list A) (d : A) (n : Z) :
  length l = Z.to_nat n ->
  map (fun i => f (nth (Z.to_nat i) l d)) (upto n) = map f l.
Proof.
  intro Hlen. unfold upto. rewrite map_map.
  apply nth_ext with (d := f d) (d' := f d).
  - now rewrite !length_map, length_seq.
  - intros k Hk. rewrite length_map, length_seq in Hk.
    rewrite (map_nth f).
    rewrite nth_indep with (d' := f (nth (Z.to_nat (Z.of_nat 0)) l d))
      by (rewrite length_map, length_seq; exact Hk).
    rewrite (map_nth (fun x => f (nth (Z.to_nat (Z.of_nat x)) l d))).
    rewrite seq_nth by exact Hk. now rewrite Nat2Z.id.
Qed.

Lemma precise_roundtrip_u32 (c : Z) :
  0 <= c < 2 ^ 64 ->
  u32 (ColorValue.to_precise_value (ColorValue.from_precise_value c))
  = Z.land c 0xFF00FF.
Proof.
  intro Hc. rewrite precise_roundtrip_mask by exact Hc.
  unfold u32. rewrite <- Z.land_ones by lia.
  rewrite <- Z.land_assoc. reflexivity.
Qed.

Lemma precise_low_byte (v : Z) :
  0 <= v < 65536 ->
  ColorValue.to_precise_value (ColorValue.from_precise_value v) = v mod 256.
Proof.
  intro Hv.
  rewrite to_precise_value_sum by apply from_precise_value_byte_color.
  unfold ColorValue.from_precise_value.
  cbn [ColorValue.r ColorValue.g ColorValue.b].
  rewrite !shiftr_land_255 by lia. rewrite land_255_mod. pow2s.
  rewrite (Z.div_small v 4294967296) by lia.
  rewrite (Z.div_small v 65536) by lia.
  reflexivity.
Qed.

Lemma precise_of_byte (x : Z) :
  0 <= x < 256 ->
  ColorValue.to_precise_value (ColorValue.from_precise_value x) = x.
Proof.
  intro Hx. rewrite precise_low_byte by lia. apply Z.mod_small. lia.
Qed.

(** X30. [ColorNTTEngine] keeps one byte of a coefficient below 65536.
    Converting 32-bit coefficients to colours and back returns
    [c & 0x00FF00FF].  The colour arithmetic of the butterfly forms the sum,
    the difference and the product modulo [q] of the operands' values, and
    the colour it returns then holds the low byte of that residue only: for
    operands below 256 and below [q <= 65536] the results read back as
    [((x + y) mod q) mod 256], [((x - y) mod q) mod 256] and
    [((x * y) mod q) mod 256]. *)
Theorem color_engine_keeps_low_bytes
        (n : Z) (coeffs : list Z) (x y q : Z)
        (Hlen : length coeffs = Z.to_nat n)
        (Hcoeffs : Forall (fun c => 0 <= c < 2 ^ 32) coeffs)
        (Hx : 0 <= x < 256) (Hy : 0 <= y < 256)
        (Hq : 0 < q <= 65536) (Hxq : x < q) (Hyq : y < q) :
  convert_colors_to_uint32 n (convert_uint32_to_colors n coeffs)
  = map (fun c => Z.land c 0xFF00FF) coeffs
  /\ exists s d m,
       color_add_precise (ColorValue.from_precise_value x)
                         (ColorValue.from_precise_value y) q = Some s
       /\ ColorValue.to_precise_value s = ((x + y) mod q) mod 256
       /\ color_subtract_precise (ColorValue.from_precise_value x)
                                 (ColorValue.from_precise_value y) q = Some d
       /\ ColorValue.to_precise_value d = ((x - y) mod q) mod 256
       /\ color_multiply_precise (ColorValue.from_precise_value x)
                                 (ColorValue.from_precise_value y) q = Some m
       /\ ColorValue.to_precise_value m = ((x * y) mod q) mod 256
       /\ color_butterfly (ColorValue.from_precise_value x)
                          (ColorValue.from_precise_value y)
                          (ColorValue.from_precise_value 1) q
          = Some (s, ColorValue.from_precise_value
                       ((((x - y) mod q) mod 256) mod q)).
Proof.
  split.
  - unfold convert_colors_to_uint32, convert_uint32_to_colors.
    rewrite (map_nth_upto ColorValue.from_precise_value coeffs 0 n Hlen).
    rewrite (map_nth_upto
               (fun c => u32 (ColorValue.to_precise_value c))
               (map ColorValue.from_precise_value coeffs)
               ColorValue.default n)
      by (now rewrite length_map).
    rewrite map_map. apply map_ext_in. intros c Hc.
    rewrite Forall_forall in Hcoeffs. specialize (Hcoeffs c Hc).
    apply precise_roundtrip_u32. pow2s. lia.
  - assert (Hqnz : (q =? 0) = false) by (apply Z.eqb_neq; lia).
    pose proof (Z.mod_pos_bound (x + y) q ltac:(lia)) as Hs.
    pose proof (Z.mod_pos_bound (x - y) q ltac:(lia)) as Hd.
    pose proof (Z.mod_pos_bound (x * y) q ltac:(lia)) as Hm.
    assert (Hadd : color_add_precise (ColorValue.from_precise_value x)
                     (ColorValue.from_precise_value y) q
                   = Some (ColorValue.from_precise_value ((x + y) mod q))).
    { unfold color_add_precise. rewrite Hqnz.
      rewrite !precise_of_byte by assumption.
      unfold u64. pow2s. rewrite (Z.mod_small (x + y)) by lia.
      reflexivity. }
    assert (Hsub : color_subtract_precise (ColorValue.from_precise_value x)
                     (ColorValue.from_precise_value y) q
                   = Some (ColorValue.from_precise_value ((x - y) mod q))).
    { unfold color_subtract_precise. rewrite Hqnz.
      rewrite !precise_of_byte by assumption.
      destruct (Z.geb_spec x y) as [Hge|Hlt]; [reflexivity|].
      unfold u64. pow2s. rewrite (Z.mod_small (x + q - y)) by lia.
      f_equal. f_equal.
      replace (x + q - y) with (x - y + 1 * q) by lia.
      apply Z.mod_add. lia. }
    assert (Hmul : color_multiply_precise (ColorValue.from_precise_value x)
                     (ColorValue.from_precise_value y) q
                   = Some (ColorValue.from_precise_value ((x * y) mod q))).
    { unfold color_multiply_precise. rewrite Hqnz.
      rewrite !precise_of_byte by assumption.
      unfold u64. pow2s.
      assert (0 <= x * y <= 255 * 255) by nia.
      rewrite (Z.mod_small (x * y)) by lia. reflexivity. }
    do 3 eexists.
    split; [exact Hadd|]. split; [apply precise_low_byte; lia|].
    split; [exact Hsub|]. split; [apply precise_low_byte; lia|].
    split; [exact Hmul|]. split; [apply precise_low_byte; lia|].
    unfold color_butterfly. rewrite Hadd, Hsub. cbn [obind].
    unfold color_multiply_precise. rewrite Hqnz.
    rewrite (precise_low_byte ((x - y) mod q)) by lia.
    rewrite (precise_of_byte 1) by lia.
    rewrite Z.mul_1_r.
    pose proof (Z.mod_pos_bound ((x - y) mod q) 256 ltac:(lia)) as Hb.
    unfold u64. pow2s.
    rewrite (Z.mod_small (((x - y) mod q) mod 256) 18446744073709551616)
      by lia.
    reflexivity.
Qed.

Lemma color_engine_keeps_low_bytes_witness :
  convert_colors_to_uint32 4 (convert_uint32_to_colors 4 [0; 255; 256; 3328])
  = map (fun c => Z.land c 0xFF00FF) [0; 255; 256; 3328]
  /\ exists s d m,
       color_add_precise (ColorValue.from_precise_value 200)
                         (ColorValue.from_precise_value 100) 3329 = Some s
       /\ ColorValue.to_precise_value s = ((200 + 100) mod 3329) mod 256
       /\ color_subtract_precise (ColorValue.from_precise_value 200)
                                 (ColorValue.from_precise_value 100) 3329
          = Some d
       /\ ColorValue.to_precise_value d = ((200 - 100) mod 3329) mod 256
       /\ color_multiply_precise (ColorValue.from_precise_value 200)
                                 (ColorValue.from_precise_value 100) 3329
          = Some m
       /\ ColorValue.to_precise_value m = ((200 * 100) mod 3329) mod 256
       /\ color_butterfly (ColorValue.from_precise_value 200)
                          (ColorValue.from_precise_value 100)
                          (ColorValue.from_precise_value 1) 3329
          = Some (s, ColorValue.from_precise_value
                       ((((200 - 100) mod 3329) mod 256) mod 3329)).
Proof.
  apply (color_engine_keeps_low_bytes 4 [0; 255; 256; 3328] 200 100 3329);
    [reflexivity | repeat constructor; lia | lia | lia | lia | lia | lia].
Defined.

End ColourEngine.
